(** * Veilborn rules engine: a shallow embedding of [engine/models.py] and
      [engine/rules.py], and the properties of the rules core.

    Conventions of the embedding.
    - Python [int] is [Z]; a [float] that holds a finite value is the
      rational it denotes ([Q]); [str] is [string].
    - [CardInstance] objects are mutable and shared between hands, decks and
      board cards, so they live in an object store ([Heap]) and the
      containers hold references ([Loc]).
    - [Board.cells] is a dict written only by [Board.place], which files a
      card under its own [(col, row, owner)]; it is represented by its values
      in insertion order (the order Python iterates a dict in), the key of a
      value being recomputed from the card.
    - A function that may raise returns an [Outcome]: the exception comes
      with the state as mutated in place up to the [raise]. *)

From Stdlib Require Import ZArith QArith Qround List String Bool Lia Permutation.
From Stdlib Require Import Sorted.
Import ListNotations.
Open Scope Z_scope.

(* ------------------------------------------------------------------ *)
(** ** Python primitives used by the engine *)
(* ------------------------------------------------------------------ *)

Module Py.

(** [int(x)] on a finite float: truncation toward zero. *)
Definition int (x : Q) : Z := Z.quot (Qnum x) (Zpos (Qden x)).

(** [len(l)] as a Python int. *)
Definition len {A} (l : list A) : Z := Z.of_nat (List.length l).

(** The bound of a slice, clamped the way [list.__getitem__] does:
    a negative index counts from the end, and everything is cut to
    [0 .. len]. *)
Definition clamp {A} (l : list A) (n : Z) : nat :=
  if n <? 0 then Z.to_nat (Z.max 0 (len l + n)) else Z.to_nat n.

(** [l[:n]] *)
Definition slice_to {A} (l : list A) (n : Z) : list A := firstn (clamp l n) l.

(** [l[n:]] *)
Definition slice_from {A} (l : list A) (n : Z) : list A := skipn (clamp l n) l.

(** [sum(...)] over ints. *)
Definition sum (l : list Z) : Z := fold_left Z.add l 0.

(** Lexicographic [<] on 2-tuples of ints. *)
Definition tuple_ltb (a b : Z * Z) : bool :=
  (fst a <? fst b) || ((fst a =? fst b) && (snd a <? snd b)).

Section Sort.
Context {A : Type} (key : A -> Z * Z).

(** [list.sort] and [sorted] are stable; a stable sort has one possible
    result, computed here by insertion.  The element inserted stood
    before all those of [s] in the input, so it only moves past the
    elements whose key is strictly smaller (ascending order). *)
Fixpoint insert_asc (x : A) (s : list A) : list A :=
  match s with
  | [] => [x]
  | y :: s' =>
      if tuple_ltb (key y) (key x) then y :: insert_asc x s' else x :: s
  end.

Definition sort_asc (l : list A) : list A :=
  fold_right insert_asc [] l.

(** With [reverse=True] the order is descending and equal keys still
    keep their input order. *)
Fixpoint insert_desc (x : A) (s : list A) : list A :=
  match s with
  | [] => [x]
  | y :: s' =>
      if tuple_ltb (key x) (key y) then y :: insert_desc x s' else x :: s
  end.

Definition sort_desc (l : list A) : list A :=
  fold_right insert_desc [] l.
End Sort.

(** The exceptions the engine can raise. *)
Inductive Exn := ValueError | StopIteration | IndexError.

End Py.

(* ------------------------------------------------------------------ *)
(** ** engine/models.py *)
(* ------------------------------------------------------------------ *)

Inductive CardType := SPECTER | REVENANT | PHANTOM | BEHEMOTH.
Inductive Rarity := COMMON | RARE | EPIC | LEGENDARY.
Inductive GamePhase :=
  DRAW | MANA | PLACEMENT | REVEAL | RESOLVE | CLEANUP | MATCH_OVER.
Inductive Row := FRONT | BACK.
Inductive Player := ONE | TWO.

Definition CardType_eqb (a b : CardType) : bool :=
  match a, b with
  | SPECTER, SPECTER | REVENANT, REVENANT
  | PHANTOM, PHANTOM | BEHEMOTH, BEHEMOTH => true
  | _, _ => false
  end.

Definition Row_eqb (a b : Row) : bool :=
  match a, b with FRONT, FRONT | BACK, BACK => true | _, _ => false end.

Definition Player_eqb (a b : Player) : bool :=
  match a, b with ONE, ONE | TWO, TWO => true | _, _ => false end.

(** Outer key ATTACKS inner key; the value is the damage multiplier.
    1.5, 1.0 and 0.75 are exact as floats. *)
Definition TYPE_MATCHUP (attacker defender : CardType) : Q :=
  match attacker, defender with
  | SPECTER, SPECTER => 1
  | SPECTER, REVENANT => 3 # 4
  | SPECTER, PHANTOM => 1
  | SPECTER, BEHEMOTH => 3 # 2
  | REVENANT, SPECTER => 3 # 2
  | REVENANT, REVENANT => 1
  | REVENANT, PHANTOM => 3 # 4
  | REVENANT, BEHEMOTH => 1
  | PHANTOM, SPECTER => 1
  | PHANTOM, REVENANT => 3 # 2
  | PHANTOM, PHANTOM => 1
  | PHANTOM, BEHEMOTH => 3 # 4
  | BEHEMOTH, SPECTER => 3 # 4
  | BEHEMOTH, REVENANT => 1
  | BEHEMOTH, PHANTOM => 3 # 2
  | BEHEMOTH, BEHEMOTH => 1
  end%Q.

Inductive AbilityTrigger := ON_ATTACK | ON_DEATH | ON_SURVIVE_ROUND | PASSIVE.

Inductive AbilityEffect :=
  LIFESTEAL | THORNS | LAST_STAND | GHOST_STEP | VEIL_ECHO | ARMOR.

Definition AbilityTrigger_eqb (a b : AbilityTrigger) : bool :=
  match a, b with
  | ON_ATTACK, ON_ATTACK | ON_DEATH, ON_DEATH
  | ON_SURVIVE_ROUND, ON_SURVIVE_ROUND | PASSIVE, PASSIVE => true
  | _, _ => false
  end.

Definition AbilityEffect_eqb (a b : AbilityEffect) : bool :=
  match a, b with
  | LIFESTEAL, LIFESTEAL | THORNS, THORNS | LAST_STAND, LAST_STAND
  | GHOST_STEP, GHOST_STEP | VEIL_ECHO, VEIL_ECHO | ARMOR, ARMOR => true
  | _, _ => false
  end.

Record Ability := mkAbility {
  trigger : AbilityTrigger;
  effect : AbilityEffect;
  value : Q;
  description : string
}.

Record CardDefinition := mkCardDefinition {
  def_id : string;
  name : string;
  card_type : CardType;
  rarity : Rarity;
  base_attack : Z;
  base_defense : Z;
  speed : Z;
  mana_cost : Z;
  ability : option Ability;
  lore : string;
  art_url : string
}.

(** [{1: 100, 2: 250, 3: 500, 4: 1000}.get(level, 9999)] *)
Definition xp_threshold (level : Z) : Z :=
  if level =? 1 then 100
  else if level =? 2 then 250
  else if level =? 3 then 500
  else if level =? 4 then 1000
  else 9999.

Record CardInstance := mkCardInstance {
  instance_id : string;
  definition : CardDefinition;
  inst_owner : Player;
  level : Z;
  xp : Z;
  consecutive_losses : Z;
  is_dormant : bool
}.

Definition attack (c : CardInstance) : Z :=
  base_attack (definition c) + (level c - 1).

Definition max_defense (c : CardInstance) : Z :=
  base_defense (definition c) + (level c - 1) * 2.

Definition set_level_xp (c : CardInstance) (l x : Z) : CardInstance :=
  mkCardInstance (instance_id c) (definition c) (inst_owner c) l x
                 (consecutive_losses c) (is_dormant c).

Definition set_losses (c : CardInstance) (n : Z) (d : bool) : CardInstance :=
  mkCardInstance (instance_id c) (definition c) (inst_owner c) (level c) (xp c)
                 n d.

(** [level_up] returns whether the card levelled, next to the card. *)
Definition level_up (c : CardInstance) : bool * CardInstance :=
  let threshold := xp_threshold (level c) in
  if (threshold <=? xp c) && (level c <? 5)
  then (true, set_level_xp c (level c + 1) (xp c - threshold))
  else (false, c).

Definition add_xp (c : CardInstance) (amount : Z) : bool * CardInstance :=
  level_up (set_level_xp c (level c) (xp c + amount)).

(** References to [CardInstance] objects, and the object store. *)
Definition Loc := nat.
Definition Heap := Loc -> CardInstance.

Definition heap_set (h : Heap) (l : Loc) (c : CardInstance) : Heap :=
  fun l' => if Nat.eqb l' l then c else h l'.

Record BoardCard := mkBoardCard {
  instance : Loc;
  current_hp : Z;
  col : Z;
  row : Row;
  owner : Player;
  face_down : bool;
  has_attacked : bool;
  position_bonus_attack : Z
}.

Definition is_alive (c : BoardCard) : bool := 0 <? current_hp c.

Definition effective_attack (h : Heap) (c : BoardCard) : Z :=
  attack (h (instance c)) + position_bonus_attack c.

Definition set_hp (c : BoardCard) (hp : Z) : BoardCard :=
  mkBoardCard (instance c) hp (col c) (row c) (owner c) (face_down c)
              (has_attacked c) (position_bonus_attack c).

Definition add_bonus (c : BoardCard) (n : Z) : BoardCard :=
  mkBoardCard (instance c) (current_hp c) (col c) (row c) (owner c)
              (face_down c) (has_attacked c) (position_bonus_attack c + n).

Definition set_face_down (c : BoardCard) (f : bool) : BoardCard :=
  mkBoardCard (instance c) (current_hp c) (col c) (row c) (owner c) f
              (has_attacked c) (position_bonus_attack c).

(** The key [Board.place] files a card under. *)
Definition Cell := (Z * Row * Player)%type.

Definition cell_of (c : BoardCard) : Cell := (col c, row c, owner c).

Definition Cell_eqb (a b : Cell) : bool :=
  match a, b with
  | (c1, r1, o1), (c2, r2, o2) =>
      (c1 =? c2) && Row_eqb r1 r2 && Player_eqb o1 o2
  end.

Definition at_cell (k : Cell) (c : BoardCard) : bool := Cell_eqb (cell_of c) k.

Module Board.

(** [cells.values()], in insertion order. *)
Definition t := list BoardCard.

Definition empty : t := [].

Definition get (b : t) (c : Z) (r : Row) (o : Player) : option BoardCard :=
  find (at_cell (c, r, o)) b.

(** [place] raises [ValueError] when the cell is taken. *)
Definition place (b : t) (card : BoardCard) : option t :=
  match get b (col card) (row card) (owner card) with
  | Some _ => None
  | None => Some (b ++ [card])
  end.

Definition remove (b : t) (c : Z) (r : Row) (o : Player) : t :=
  filter (fun x => negb (at_cell (c, r, o) x)) b.

Definition cards_for (b : t) (o : Player) : list BoardCard :=
  filter (fun c => Player_eqb (owner c) o) b.

Definition front_row_for (b : t) (o : Player) : list BoardCard :=
  filter (fun c => Player_eqb (owner c) o && Row_eqb (row c) FRONT) b.

Definition back_row_for (b : t) (o : Player) : list BoardCard :=
  filter (fun c => Player_eqb (owner c) o && Row_eqb (row c) BACK) b.

Definition all_cards (b : t) : list BoardCard := b.

(** In-place update of the card object filed under [k]. *)
Definition update (b : t) (k : Cell) (f : BoardCard -> BoardCard) : t :=
  map (fun c => if at_cell k c then f c else c) b.

End Board.

Record PlayerState := mkPlayerState {
  player : Player;
  hand : list Loc;
  deck : list Loc;
  mana : Z;
  veil_surge_used : bool;
  score : Z;
  hp : Z
}.

(** The two f-strings [phase_resolve] writes into
    [ability_effect_description], by their holes:
    ["{name} drained {heal} vitality"] and
    ["{name} unleashed a death echo for {echo_damage} damage"]. *)
Inductive AbilityNote :=
| Drained (who : string) (heal : Z)
| DeathEcho (who : string) (echo_damage : Z).

Record CombatEvent := mkCombatEvent {
  order : Z;
  attacker_name : string;
  attacker_type : CardType;
  attacker_level : Z;
  attacker_owner : Player;
  defender_name : string;
  defender_type : CardType;
  defender_level : Z;
  defender_owner : Player;
  type_multiplier : Q;
  raw_attack : Z;
  damage_dealt : Z;
  position_bonus : Z;
  defender_destroyed : bool;
  ability_triggered : option string;
  ability_effect_description : option AbilityNote
}.

Record RoundResult := mkRoundResult {
  round_number : Z;
  events : list CombatEvent;
  veil_collapse : bool;
  p1_surviving_defense : Z;
  p2_surviving_defense : Z;
  round_winner : option Player;
  round_points_awarded : Z;
  match_score : Z * Z;            (* {"player_1": _, "player_2": _} *)
  result_match_winner : option Player;
  flanking_applied : option Player
}.

Record GameState := mkGameState {
  game_id : string;
  heap : Heap;                    (* the CardInstance objects of the match *)
  player1 : PlayerState;
  player2 : PlayerState;
  board : Board.t;
  current_round : Z;
  phase : GamePhase;
  round_history : list RoundResult;
  match_winner : option Player
}.

Definition get_player_state (s : GameState) (p : Player) : PlayerState :=
  if Player_eqb p ONE then player1 s else player2 s.

Definition opponent (p : Player) : Player :=
  if Player_eqb p ONE then TWO else ONE.

(** In-place updates of the state and of a player's record. *)
Definition with_players (s : GameState) (p1 p2 : PlayerState) : GameState :=
  mkGameState (game_id s) (heap s) p1 p2 (board s) (current_round s) (phase s)
              (round_history s) (match_winner s).

Definition set_player_state (s : GameState) (p : Player) (ps : PlayerState)
  : GameState :=
  if Player_eqb p ONE then with_players s ps (player2 s)
  else with_players s (player1 s) ps.

Definition with_board (s : GameState) (b : Board.t) : GameState :=
  mkGameState (game_id s) (heap s) (player1 s) (player2 s) b (current_round s)
              (phase s) (round_history s) (match_winner s).

Definition with_heap (s : GameState) (h : Heap) : GameState :=
  mkGameState (game_id s) h (player1 s) (player2 s) (board s) (current_round s)
              (phase s) (round_history s) (match_winner s).

Definition with_phase (s : GameState) (ph : GamePhase) : GameState :=
  mkGameState (game_id s) (heap s) (player1 s) (player2 s) (board s)
              (current_round s) ph (round_history s) (match_winner s).

Definition with_cards (ps : PlayerState) (hd dk : list Loc) : PlayerState :=
  mkPlayerState (player ps) hd dk (mana ps) (veil_surge_used ps) (score ps)
                (hp ps).

Definition with_mana (ps : PlayerState) (m : Z) (surge : bool) : PlayerState :=
  mkPlayerState (player ps) (hand ps) (deck ps) m surge (score ps) (hp ps).

Definition with_score (ps : PlayerState) (sc : Z) : PlayerState :=
  mkPlayerState (player ps) (hand ps) (deck ps) (mana ps) (veil_surge_used ps)
                sc (hp ps).

(** What a call that may raise leaves behind. *)
Inductive Outcome (A : Type) :=
| Ok (a : A)
| Raise (e : Py.Exn) (s : GameState).
Arguments Ok {A} a.
Arguments Raise {A} e s.

(* ------------------------------------------------------------------ *)
(** ** engine/rules.py *)
(* ------------------------------------------------------------------ *)

Definition FLANKING_THRESHOLD : Z := 3.
Definition FLANKING_BONUS : Z := 2.
Definition COLUMN_PRESSURE_BONUS : Z := 1.
Definition MANA_PER_TURN : Z := 1.
Definition MANA_CAP : Z := 8.
Definition VEIL_SURGE_MAX : Z := 3.
Definition ROUNDS_PER_MATCH : Z := 5.
Definition WIN_SCORE : Z := 3.
Definition DORMANCY_LOSS_THRESHOLD : Z := 3.

(** *** Phase: Draw *)

Definition draw_for (ps : PlayerState) (draw_to : Z) : PlayerState :=
  let needed := draw_to - Py.len (hand ps) in
  let drawn := Py.slice_to (deck ps) needed in
  let deck' := Py.slice_from (deck ps) needed in
  with_cards ps (hand ps ++ drawn) deck'.

Definition phase_draw (s : GameState) (draw_to : Z) : GameState :=
  with_phase
    (with_players s (draw_for (player1 s) draw_to)
                    (draw_for (player2 s) draw_to))
    MANA.

(** The default of [draw_to]. *)
Definition DRAW_TO : Z := 5.

(** *** Phase: Mana *)

Definition mana_for (ps : PlayerState) : PlayerState :=
  with_mana ps (Z.min (mana ps + MANA_PER_TURN) MANA_CAP) (veil_surge_used ps).

Definition phase_mana (s : GameState) : GameState :=
  with_phase (with_players s (mana_for (player1 s)) (mana_for (player2 s)))
             PLACEMENT.

(** *** Phase: Placement *)

(** One entry of a batch:
    [{"card_instance_id": str, "col": int, "row": Row}]. *)
Record Placement := mkPlacement {
  card_instance_id : string;
  p_col : Z;
  p_row : Row
}.

(** The error messages of [validate_placement], by their holes. *)
Inductive PlacementError :=
| NotInHand (cid : string)              (* "Card {cid} not in hand" *)
| Dormant (card_name : string)          (* "Card {name} is dormant" *)
| ForeignRow (p : Player) (r : Row)     (* "Player {p} cannot place in row {r}" *)
| ColumnOutOfRange (c : Z)              (* "Column {col} out of range" *)
| DuplicateCell (c : Z) (r : Row)       (* "Duplicate cell placement at ..." *)
| Occupied (c : Z) (r : Row)            (* "Cell (..) already occupied" *)
| InsufficientMana (need have : Z).     (* "Insufficient mana (need .., have ..)" *)

Definition _valid_rows_for (p : Player) : list Row := [FRONT; BACK].

(** [next((c for c in hand if c.instance_id == cid), None)] *)
Definition find_in_hand (h : Heap) (hd : list Loc) (cid : string) : option Loc :=
  find (fun l => String.eqb (instance_id (h l)) cid) hd.

(** [(col, row) in placed_cells] *)
Definition cell_used (placed_cells : list (Z * Row)) (c : Z) (r : Row) : bool :=
  existsb (fun k => (fst k =? c) && Row_eqb (snd k) r) placed_cells.

(** The [for] loop of [validate_placement]: the error of the first
    placement that fails a check, or the total mana cost. *)
Fixpoint validate_loop (h : Heap) (ps : PlayerState) (b : Board.t)
         (pl : Player) (placements : list Placement)
         (total_mana : Z) (placed_cells : list (Z * Row))
  : PlacementError + Z :=
  match placements with
  | [] => inr total_mana
  | p :: rest =>
      let cid := card_instance_id p in
      let c := p_col p in
      let r := p_row p in
      match find_in_hand h (hand ps) cid with
      | None => inl (NotInHand cid)
      | Some l =>
          let card := h l in
          if is_dormant card then inl (Dormant (name (definition card)))
          else if negb (existsb (Row_eqb r) (_valid_rows_for pl))
          then inl (ForeignRow pl r)
          else if negb ((0 <=? c) && (c <=? 3)) then inl (ColumnOutOfRange c)
          else if cell_used placed_cells c r then inl (DuplicateCell c r)
          else match Board.get b c r pl with
               | Some _ => inl (Occupied c r)
               | None =>
                   validate_loop h ps b pl rest
                     (total_mana + mana_cost (definition card))
                     ((c, r) :: placed_cells)
               end
      end
  end.

(** The mana check that ends [validate_placement]. *)
Definition mana_check (ps : PlayerState) (total_mana : Z)
  : bool * option PlacementError :=
  let available_mana := mana ps in
  if available_mana <? total_mana then
    let overdraft := total_mana - available_mana in
    if veil_surge_used ps || (VEIL_SURGE_MAX <? overdraft)
    then (false, Some (InsufficientMana total_mana available_mana))
    else (true, None)
  else (true, None).

(** Returns [(valid, error_message)]; [None] stands for the empty message. *)
Definition validate_placement (s : GameState) (pl : Player)
           (placements : list Placement) : bool * option PlacementError :=
  let ps := get_player_state s pl in
  match validate_loop (heap s) ps (board s) pl placements 0 [] with
  | inl err => (false, Some err)
  | inr total_mana => mana_check ps total_mana
  end.

(** [list.remove(x)]: drops the first element equal to [x]. *)
Fixpoint list_remove (x : Loc) (l : list Loc) : list Loc :=
  match l with
  | [] => []
  | y :: l' => if Nat.eqb y x then l' else y :: list_remove x l'
  end.

(** [ps.hand.remove(card_instance)] on the hand of [pl]. *)
Definition take_from_hand (s : GameState) (pl : Player) (l : Loc) : GameState :=
  let ps := get_player_state s pl in
  set_player_state s pl (with_cards ps (list_remove l (hand ps)) (deck ps)).

(** The [for] loop of [apply_placement].  [next(...)] without a default
    raises [StopIteration] when no card of the hand has the id, and
    [Board.place] raises [ValueError] on a taken cell; both leave the
    placements already made in the state.

    [ps.hand.remove(card_instance)] drops the first element of the hand equal
    to the card found; dataclass equality compares [instance_id], and
    [card_instance] is the first element of the hand with that id, so the
    element dropped is the object found itself. *)
Fixpoint apply_loop (s : GameState) (pl : Player) (placements : list Placement)
         (total_mana : Z) : Outcome (GameState * Z) :=
  match placements with
  | [] => Ok (s, total_mana)
  | p :: rest =>
      let ps := get_player_state s pl in
      match find_in_hand (heap s) (hand ps) (card_instance_id p) with
      | None => Raise Py.StopIteration s
      | Some l =>
          let card_instance := heap s l in
          let board_card :=
            mkBoardCard l (max_defense card_instance) (p_col p) (p_row p) pl
                        true false 0 in
          match Board.place (board s) board_card with
          | None => Raise Py.ValueError s
          | Some b' =>
              apply_loop (take_from_hand (with_board s b') pl l) pl rest
                         (total_mana + mana_cost (definition card_instance))
          end
      end
  end.

(** Deduct mana, handle Veil Surge. *)
Definition pay_mana (ps : PlayerState) (total_mana : Z) : PlayerState :=
  if mana ps <? total_mana then
    let overdraft := total_mana - mana ps in
    with_mana ps (- overdraft) true
  else with_mana ps (mana ps - total_mana) (veil_surge_used ps).

Definition apply_placement (s : GameState) (pl : Player)
           (placements : list Placement) : Outcome GameState :=
  match apply_loop s pl placements 0 with
  | Raise e s' => Raise e s'
  | Ok (s', total_mana) =>
      Ok (set_player_state s' pl (pay_mana (get_player_state s' pl) total_mana))
  end.

(** *** Phase: Reveal *)

Definition phase_reveal (s : GameState) : GameState :=
  with_phase
    (with_board s (map (fun c => set_face_down c false)
                       (Board.all_cards (board s))))
    RESOLVE.

(** *** Targeting *)

(** Back row protection: a back-row card can only be targeted if the front
    cell of its column, on its own side, holds no card. *)
Definition is_targetable (b : Board.t) (card : BoardCard) : bool :=
  if Row_eqb (row card) BACK then
    match Board.get b (col card) FRONT (owner card) with
    | None => true
    | Some _ => false
    end
  else true.

Definition target_key (attacker c : BoardCard) : Z * Z :=
  (Z.abs (col c - col attacker), current_hp c).

Definition _find_target (attacker : BoardCard) (b : Board.t)
  : option BoardCard :=
  let opp := if Player_eqb (owner attacker) ONE then TWO else ONE in
  let eligible := fun c => is_alive c && is_targetable b c in
  let nearest :=
    let enemies := filter eligible (Board.cards_for b opp) in
    match Py.sort_asc (target_key attacker) enemies with
    | [] => None
    | e :: _ => Some e
    end in
  let back :=
    match Board.get b (col attacker) BACK opp with
    | Some back_direct => if eligible back_direct then Some back_direct
                          else nearest
    | None => nearest
    end in
  match Board.get b (col attacker) FRONT opp with
  | Some direct => if eligible direct then Some direct else back
  | None => back
  end.

(** *** Position bonuses *)

Definition bump (n : Z) (b : Board.t) (card : BoardCard) : Board.t :=
  Board.update b (cell_of card) (fun c => add_bonus c n).

Definition distinct_cols (cards : list BoardCard) : Z :=
  Py.len (nodup Z.eq_dec (map col cards)).

Definition flank_one (acc : Board.t * option Player) (pl : Player)
  : Board.t * option Player :=
  let b := fst acc in
  let opp := if Player_eqb pl ONE then TWO else ONE in
  let my_front := Board.front_row_for b pl in
  let opp_front := Board.front_row_for b opp in
  if (FLANKING_THRESHOLD <=? distinct_cols my_front)
     && (distinct_cols opp_front <=? 2)
  then (fold_left (bump FLANKING_BONUS) my_front b, Some pl)
  else acc.

Definition _apply_flanking (b : Board.t) : Board.t * option Player :=
  fold_left flank_one [ONE; TWO] (b, None).

Definition pressure_card (h : Heap) (opp : Player) (b : Board.t)
           (card : BoardCard) : Board.t :=
  match Board.get b (col card) FRONT opp with
  | Some opp_card =>
      let mult := TYPE_MATCHUP (card_type (definition (h (instance card))))
                               (card_type (definition (h (instance opp_card)))) in
      if Qeq_bool mult (3 # 2) then bump COLUMN_PRESSURE_BONUS b card else b
  | None => b
  end.

Definition pressure_one (h : Heap) (b : Board.t) (pl : Player) : Board.t :=
  let opp := if Player_eqb pl ONE then TWO else ONE in
  fold_left (pressure_card h opp) (Board.front_row_for b pl) b.

Definition _apply_column_pressure (h : Heap) (b : Board.t) : Board.t :=
  fold_left (pressure_one h) [ONE; TWO] b.

(** Veil Collapse: every card gains half its attack, [attack // 2]. *)
Definition collapse_card (h : Heap) (b : Board.t) (card : BoardCard) : Board.t :=
  bump (attack (h (instance card)) / 2) b card.

(** *** Damage *)

Definition has_armor (d : CardDefinition) : option Ability :=
  match ability d with
  | Some a => if AbilityEffect_eqb (effect a) ARMOR then Some a else None
  | None => None
  end.

Definition has_ability (d : CardDefinition) (t : AbilityTrigger)
           (e : AbilityEffect) : option Ability :=
  match ability d with
  | Some a => if AbilityTrigger_eqb (trigger a) t && AbilityEffect_eqb (effect a) e
              then Some a else None
  | None => None
  end.

(** *** Phase: Resolve *)

(** The variables of the attack loop. *)
Record Combat := mkCombat {
  cb_board : Board.t;
  cb_events : list CombatEvent;
  cb_event_order : Z;
  cb_dead_cards : list BoardCard
}.

Section Resolve.

(** [int(x * f)] for an int [x] and a float [f], as in
    [int(raw * multiplier)] and in [int(damage * value)] of LIFESTEAL.
    Python turns [x] into a double, rounds the product to a double and
    truncates it; past 53 bits the result is not the truncated exact product,
    and past the range of a double the call raises [OverflowError].  The
    float arithmetic is not modelled: the resolver is taken over every
    function of [x] and [f], and describes the calls that return. *)
Variable int_of_product : Z -> Q -> Z.

(** The damage of one hit: the type multiplier, then ARMOR on the defender. *)
Definition hit_damage (raw : Z) (multiplier : Q) (target : CardDefinition) : Z :=
  let damage := int_of_product raw multiplier in
  match has_armor target with
  | Some a => let armor_val := Py.int (value a) in Z.max 0 (damage - armor_val)
  | None => damage
  end.

(** One turn of [for attacker in all_cards].  [ref] is the entry of the
    sorted list; the card object it refers to is read from the board, where
    earlier hits have been written. *)
Definition attack_turn (h : Heap) (st : Combat) (ref : BoardCard) : Combat :=
  match Board.get (cb_board st) (col ref) (row ref) (owner ref) with
  | None => st
  | Some attacker =>
      if negb (is_alive attacker) then st else
      match _find_target attacker (cb_board st) with
      | None => st
      | Some target =>
          let adef := definition (h (instance attacker)) in
          let tdef := definition (h (instance target)) in
          let multiplier := TYPE_MATCHUP (card_type adef) (card_type tdef) in
          let raw := effective_attack h attacker in
          let damage := hit_damage raw multiplier tdef in
          let target_hp := current_hp target - damage in
          let b1 := Board.update (cb_board st) (cell_of target)
                                 (fun c => set_hp c target_hp) in
          let event_order := cb_event_order st + 1 in
          (* Attacker LIFESTEAL *)
          let '(hp1, trig1, desc1) :=
            match has_ability adef ON_ATTACK LIFESTEAL with
            | Some a =>
                let heal := int_of_product damage (value a) in
                (Z.min (current_hp attacker + heal)
                       (max_defense (h (instance attacker))),
                 Some "Lifesteal"%string,
                 Some (Drained (name adef) heal))
            | None => (current_hp attacker, None, None)
            end in
          let destroyed := negb (0 <? target_hp) in
          (* On-death: VEIL_ECHO *)
          let '(hp2, trig2, desc2) :=
            match (if destroyed then has_ability tdef ON_DEATH VEIL_ECHO
                   else None) with
            | Some _ =>
                let echo_damage := attack (h (instance target)) / 2 in
                (hp1 - echo_damage, Some "Veil Echo"%string,
                 Some (DeathEcho (name tdef) echo_damage))
            | None => (hp1, trig1, desc1)
            end in
          let b2 := Board.update b1 (cell_of attacker)
                                 (fun c => set_hp c hp2) in
          let ev :=
            mkCombatEvent event_order
              (name adef) (card_type adef) (level (h (instance attacker)))
              (owner attacker)
              (name tdef) (card_type tdef) (level (h (instance target)))
              (owner target)
              multiplier raw damage (position_bonus_attack attacker)
              destroyed trig2 desc2 in
          mkCombat b2 (cb_events st ++ [ev]) event_order
                   (if destroyed then cb_dead_cards st ++ [target]
                    else cb_dead_cards st)
      end
  end.

Definition speed_key (h : Heap) (c : BoardCard) : Z * Z :=
  (speed (definition (h (instance c))), effective_attack h c).

(** Steps 1 to 3: position bonuses, Veil Collapse, and the attack order. *)
Definition prepare (h : Heap) (b : Board.t) (veil : bool)
  : Board.t * option Player :=
  let flanked := _apply_flanking b in
  let b2 := _apply_column_pressure h (fst flanked) in
  let b3 := if veil then fold_left (collapse_card h) (Board.all_cards b2) b2
            else b2 in
  (b3, snd flanked).

(** Step 4: each card attacks in speed order. *)
Definition fight (h : Heap) (b : Board.t) : Combat :=
  fold_left (attack_turn h)
            (Py.sort_desc (speed_key h) (Board.all_cards b))
            (mkCombat b [] 0 []).

(** Step 5: remove dead cards from the board. *)
Definition bury (b : Board.t) (dead_cards : list BoardCard) : Board.t :=
  fold_left (fun b dead => Board.remove b (col dead) (row dead) (owner dead))
            dead_cards b.

Definition total_hp (cards : list BoardCard) : Z :=
  Py.sum (map current_hp cards).

(** Step 6: score the round: [(round_winner, points)]. *)
Definition score_round (b : Board.t) : option Player * Z :=
  let p1_def := total_hp (Board.cards_for b ONE) in
  let p2_def := total_hp (Board.cards_for b TWO) in
  let p2_wiped := Py.len (Board.cards_for b TWO) =? 0 in
  let p1_wiped := Py.len (Board.cards_for b ONE) =? 0 in
  if p1_wiped && p2_wiped then (None, 0)
  else if p2_wiped && negb p1_wiped then (Some ONE, 2)
  else if p1_wiped && negb p2_wiped then (Some TWO, 2)
  else if p2_def <? p1_def then (Some ONE, 1)
  else if p1_def <? p2_def then (Some TWO, 1)
  else (None, 0).

(** Step 7: check match winner. *)
Definition decide_match (score1 score2 round : Z) : option Player :=
  if WIN_SCORE <=? score1 then Some ONE
  else if WIN_SCORE <=? score2 then Some TWO
  else if ROUNDS_PER_MATCH <=? round then
    if score2 <? score1 then Some ONE
    else if score1 <? score2 then Some TWO
    else None
  else None.

(** [ps.score += points] for the round winner, if there is one. *)
Definition award (s : GameState) (round_winner : option Player) (points : Z)
  : GameState :=
  match round_winner with
  | Some w =>
      let ps := get_player_state s w in
      set_player_state s w (with_score ps (score ps + points))
  | None => s
  end.

(** The board at the end of the round: bonuses, attacks, removal. *)
Definition resolved_board (s : GameState) : Board.t :=
  let veil_collapse := current_round s =? ROUNDS_PER_MATCH in
  let st := fight (heap s) (fst (prepare (heap s) (board s) veil_collapse)) in
  bury (cb_board st) (cb_dead_cards st).

Definition phase_resolve (s : GameState) : GameState * RoundResult :=
  let h := heap s in
  let veil_collapse := current_round s =? ROUNDS_PER_MATCH in
  let prepared := prepare h (board s) veil_collapse in
  let flanking_player := snd prepared in
  let st := fight h (fst prepared) in
  let b := resolved_board s in
  let p1_def := total_hp (Board.cards_for b ONE) in
  let p2_def := total_hp (Board.cards_for b TWO) in
  let round_winner := fst (score_round b) in
  let points := snd (score_round b) in
  let s2 := award (with_board s b) round_winner points in
  let winner := decide_match (score (player1 s2)) (score (player2 s2))
                             (current_round s2) in
  let result :=
    mkRoundResult (current_round s2) (cb_events st) veil_collapse
                  p1_def p2_def round_winner points
                  (score (player1 s2), score (player2 s2))
                  winner flanking_player in
  (mkGameState (game_id s2) (heap s2) (player1 s2) (player2 s2) (board s2)
               (current_round s2)
               (match winner with Some _ => MATCH_OVER | None => CLEANUP end)
               (round_history s2 ++ [result]) winner,
   result).

End Resolve.

(** *** Phase: Cleanup *)

(** [card_inst.add_xp(amount)] on the object at [l]. *)
Definition heap_add_xp (amount : Z) (h : Heap) (l : Loc) : Heap :=
  heap_set h l (snd (add_xp (h l) amount)).

Definition name_at (h : Heap) (l : Loc) : string := name (definition (h l)).

Definition name_in (n : string) (names : list string) : bool :=
  existsb (String.eqb n) names.

(** XP: survivors earn the damage they dealt this round, plus 10. *)
Definition reward_survivor (evs : list CombatEvent) (surviving_names : list string)
           (h : Heap) (card : BoardCard) : Heap :=
  let nm := name_at h (instance card) in
  let damage_dealt :=
    Py.sum (map damage_dealt
                (filter (fun e => String.eqb (attacker_name e) nm
                                  && Player_eqb (attacker_owner e) (owner card))
                        evs)) in
  let xp_earned := damage_dealt + (if name_in nm surviving_names then 10 else 0) in
  heap_add_xp xp_earned h (instance card).

(** XP: destroyed cards earn half of their damage dealt.  The cards are
    looked up by name in [ps.deck + ps.hand] of both players. *)
Definition reward_named (evs : list CombatEvent) (event : CombatEvent)
           (h : Heap) (card_inst : Loc) : Heap :=
  if String.eqb (name_at h card_inst) (defender_name event) then
    let damage_dealt :=
      Py.sum (map damage_dealt
                  (filter (fun e => String.eqb (attacker_name e)
                                               (defender_name event))
                          evs)) in
    heap_add_xp (damage_dealt / 2) h card_inst
  else h.

Definition reward_destroyed (evs : list CombatEvent) (pool : list Loc)
           (h : Heap) (event : CombatEvent) : Heap :=
  if defender_destroyed event then fold_left (reward_named evs event) pool h
  else h.

(** Dormancy: consecutive losses of the cards of the round's loser. *)
Definition track_loss (destroyed_names : list string) (h : Heap) (card_inst : Loc)
  : Heap :=
  let c := h card_inst in
  if name_in (name (definition c)) destroyed_names then
    let n := consecutive_losses c + 1 in
    heap_set h card_inst
             (set_losses c n (if DORMANCY_LOSS_THRESHOLD <=? n then true
                              else is_dormant c))
  else heap_set h card_inst (set_losses c 0 (is_dormant c)).

(** Surviving board cards go back into the hand of the player. *)
Definition return_cards (b : Board.t) (ps : PlayerState) : PlayerState :=
  with_cards ps (hand ps ++ map instance (Board.cards_for b (player ps)))
             (deck ps).

(** Mana debt is cleared. *)
Definition clear_debt (ps : PlayerState) : PlayerState :=
  if mana ps <? 0 then with_mana ps 0 (veil_surge_used ps) else ps.

(** [round_history[-1]] *)
Definition last_result (hist : list RoundResult) : option RoundResult :=
  match rev hist with
  | [] => None
  | r :: _ => Some r
  end.

Definition cleanup_heap (s : GameState) (r : RoundResult) : Heap :=
  let evs := events r in
  let destroyed_names :=
    map defender_name (filter defender_destroyed evs) in
  let surviving_cards := Board.all_cards (board s) in
  let surviving_names := map (fun c => name_at (heap s) (instance c))
                             surviving_cards in
  let h1 := fold_left (reward_survivor evs surviving_names) surviving_cards
                      (heap s) in
  let pool := (deck (player1 s) ++ hand (player1 s))
              ++ (deck (player2 s) ++ hand (player2 s)) in
  let h2 := fold_left (reward_destroyed evs pool) evs h1 in
  match round_winner r with
  | Some w =>
      let loser_ps := get_player_state s (opponent w) in
      fold_left (track_loss destroyed_names) (deck loser_ps ++ hand loser_ps) h2
  | None => h2
  end.

(** [round_history[-1]] raises [IndexError] before anything is written when
    no round has been resolved. *)
Definition phase_cleanup (s : GameState) : Outcome GameState :=
  match last_result (round_history s) with
  | None => Raise Py.IndexError s
  | Some r =>
      let h := cleanup_heap s r in
      let p1 := clear_debt (return_cards (board s) (player1 s)) in
      let p2 := clear_debt (return_cards (board s) (player2 s)) in
      Ok (mkGameState (game_id s) h p1 p2 Board.empty (current_round s + 1)
                      DRAW (round_history s) (match_winner s))
  end.

(* ------------------------------------------------------------------ *)
(** ** data/cards.py: the starter cards used in the examples *)
(* ------------------------------------------------------------------ *)

Module Cards.
Local Open Scope string_scope.

Definition veyra : CardDefinition :=
  mkCardDefinition "spec_002" "Veyra Silentblade" SPECTER RARE 9 6 10 4
    (Some (mkAbility PASSIVE GHOST_STEP 1
             "Once per match, ignores back-row protection")) "" "".

Definition ashling : CardDefinition :=
  mkCardDefinition "spec_003" "Ashling" SPECTER COMMON 5 5 7 2 None "" "".

Definition gravaul : CardDefinition :=
  mkCardDefinition "rev_001" "Gravaul the Unyielding" REVENANT RARE 7 14 3 4
    (Some (mkAbility PASSIVE ARMOR 2 "Reduces all incoming damage by 2"))
    "" "".

Definition duskwarden : CardDefinition :=
  mkCardDefinition "rev_003" "Duskwarden" REVENANT COMMON 6 12 2 3 None "" "".

Definition lurking_shade : CardDefinition :=
  mkCardDefinition "phan_002" "The Lurking Shade" PHANTOM COMMON 5 6 5 2 None
    "" "".

Definition vorath : CardDefinition :=
  mkCardDefinition "beh_001" "Vorath the Consuming" BEHEMOTH LEGENDARY 12 18 1 7
    (Some (mkAbility ON_DEATH VEIL_ECHO (1 # 2)
             "On death, releases a death echo dealing half its attack to its killer"))
    "" "".

Definition bonecrag : CardDefinition :=
  mkCardDefinition "beh_002" "Bonecrag" BEHEMOTH COMMON 9 14 2 5 None "" "".

(** A fresh copy of a card: level 1, no XP. *)
Definition make_instance (iid : string) (d : CardDefinition) (o : Player)
  : CardInstance :=
  mkCardInstance iid d o 1 0 0 false.

(** An object store holding the given instances at 0, 1, 2, ... *)
Definition heap_of (l : list CardInstance) : Heap :=
  fun n => nth n l (make_instance "" ashling ONE).

Definition new_player (p : Player) : PlayerState :=
  mkPlayerState p [] [] 3 false 0 20.

(** [GameState()] over the given objects. *)
Definition new_game (l : list CardInstance) : GameState :=
  mkGameState "" (heap_of l) (new_player ONE) (new_player TWO) Board.empty 1
              DRAW [] None.

(** [int(x * f)] with the product taken exactly.  It is what Python
    computes whenever [x] and the product fit the 53 bits of a double, as
    they do in every example below: attacks and damages stay under 100 and
    the multipliers are 1.5, 1.0 and 0.75. *)
Definition exact_heal (damage : Z) (v : Q) : Z := Py.int (inject_Z damage * v).

End Cards.

(* ------------------------------------------------------------------ *)
(** ** Predicates and example states of the statements below *)
(* ------------------------------------------------------------------ *)

Definition beats (a b : CardType) : Prop := (TYPE_MATCHUP a b == 3 # 2)%Q.
Definition weak_to (a b : CardType) : Prop := (TYPE_MATCHUP a b == 3 # 4)%Q.

(** A board that stands for a dict holds one card per key. *)
Definition board_wf (b : Board.t) : Prop := NoDup (map cell_of b).

(** The state a call leaves behind, exception or not. *)
Definition state_after {A} (f : A -> GameState) (o : Outcome A) : GameState :=
  match o with
  | Ok a => f a
  | Raise _ s => s
  end.

(** One call into the engine.  The engine does not check the phase it is
    called in, and neither does this relation; a call that raises leaves its
    partial writes behind. *)
Inductive step (heal : Z -> Q -> Z) : GameState -> GameState -> Prop :=
| step_draw s draw_to : step heal s (phase_draw s draw_to)
| step_mana s : step heal s (phase_mana s)
| step_placement s pl batch :
    step heal s (state_after (fun s' => s') (apply_placement s pl batch))
| step_reveal s : step heal s (phase_reveal s)
| step_resolve s : step heal s (fst (phase_resolve heal s))
| step_cleanup s :
    step heal s (state_after (fun s' => s') (phase_cleanup s)).

(** Any number of calls. *)
Inductive steps (heal : Z -> Q -> Z) : GameState -> GameState -> Prop :=
| steps_refl s : steps heal s s
| steps_step s s' s'' : step heal s s' -> steps heal s' s'' -> steps heal s s''.

(** Which card object stands on which cell. *)
Definition shape (b : Board.t) : list (Cell * Loc) :=
  map (fun c => (cell_of c, instance c)) b.

(** The writes of a round to a board card leave its cell and its card object
    alone. *)
Definition keeps_place (f : BoardCard -> BoardCard) : Prop :=
  forall c, cell_of (f c) = cell_of c /\ instance (f c) = instance c.

(** The card objects a state can reach: hands, decks and board. *)
Definition locs (s : GameState) : list Loc :=
  hand (player1 s) ++ deck (player1 s) ++ hand (player2 s) ++ deck (player2 s)
  ++ map instance (Board.all_cards (board s)).

(** A match as [GameState()] sets it up and a deck builder fills it: the two
    player records are those of players one and two, and no card object is
    held twice. *)
Definition state_wf (s : GameState) : Prop :=
  player (player1 s) = ONE /\ player (player2 s) = TWO /\ NoDup (locs s).

(** What a call may do to a match, seen from the card objects: a well-formed
    state stays so, no card object comes into reach, the objects out of reach
    are not written, and a Veil Surge once used stays used. *)
Definition confined (s s' : GameState) : Prop :=
  (state_wf s -> state_wf s')
  /\ (forall l, In l (locs s') -> In l (locs s))
  /\ (forall l, ~ In l (locs s) -> heap s' l = heap s l)
  /\ (forall q, veil_surge_used (get_player_state s q) = true ->
                veil_surge_used (get_player_state s' q) = true).

(** The calls that only move card references around. *)
Definition reshuffled (s s' : GameState) : Prop :=
  heap s' = heap s
  /\ Permutation (locs s') (locs s)
  /\ player (player1 s') = player (player1 s)
  /\ player (player2 s') = player (player2 s)
  /\ (forall q, veil_surge_used (get_player_state s q) = true ->
                veil_surge_used (get_player_state s' q) = true).

(** The cards destroyed in the round [phase_resolve] plays from [s]: its
    [dead_cards]. *)
Definition round_dead (heal : Z -> Q -> Z) (s : GameState) : list BoardCard :=
  cb_dead_cards
    (fight heal (heap s)
           (fst (prepare (heap s) (board s)
                         (current_round s =? ROUNDS_PER_MATCH)))).

(** The damage of one hit in the words of the spec: the floor of the product,
    less the armor value when the defender carries a passive ARMOR ability. *)
Definition spec_damage (raw : Z) (multiplier : Q) (target : CardDefinition) : Z :=
  let damage := Qfloor (inject_Z raw * multiplier) in
  match has_ability target PASSIVE ARMOR with
  | Some a => Z.max 0 (damage - Py.int (value a))
  | None => damage
  end.

(** A Revenant whose ARMOR is not a passive: the ability is triggered on
    death.  The stats are those of Duskwarden. *)
Definition warded_husk : CardDefinition :=
  mkCardDefinition "rev_x" "Warded Husk" REVENANT COMMON 6 12 2 3
    (Some (mkAbility ON_DEATH ARMOR 2 "Reduces all incoming damage by 2"))
    "" "".

(** A card whose base attack is below zero. *)
Definition hexed_wisp : CardDefinition :=
  mkCardDefinition "spec_x" "Hexed Wisp" SPECTER COMMON (-4) 5 7 2 None "" "".

(** A card [a] of player one faces a card [d] of player two, both in the
    front row of column 0, revealed. *)
Definition duel_heap (a d : CardDefinition) : Heap :=
  Cards.heap_of [Cards.make_instance "a" a ONE; Cards.make_instance "d" d TWO].

Definition duel_board (a d : CardDefinition) : Board.t :=
  [mkBoardCard 0%nat (max_defense (duel_heap a d 0%nat)) 0 FRONT ONE
               false false 0;
   mkBoardCard 1%nat (max_defense (duel_heap a d 1%nat)) 0 FRONT TWO
               false false 0].

Definition duel (a d : CardDefinition) : GameState :=
  mkGameState "" (duel_heap a d) (Cards.new_player ONE) (Cards.new_player TWO)
              (duel_board a d) 1 RESOLVE [] None.

(** A round played through the engine: player one holds an Ashling, player
    two a Duskwarden; each places the card in the front row of column 0. *)
Definition skirmish_start : GameState :=
  let g := Cards.new_game [Cards.make_instance "a" Cards.ashling ONE;
                           Cards.make_instance "d" Cards.duskwarden TWO] in
  with_players g (with_cards (player1 g) [0%nat] [])
                 (with_cards (player2 g) [1%nat] []).

Definition skirmish_placed : GameState :=
  state_after (fun s => s)
    (apply_placement
       (state_after (fun s => s)
          (apply_placement skirmish_start ONE [mkPlacement "a" 0 FRONT]))
       TWO [mkPlacement "d" 0 FRONT]).

Definition skirmish_revealed : GameState := phase_reveal skirmish_placed.

Definition skirmish_resolved : GameState :=
  fst (phase_resolve Cards.exact_heal skirmish_revealed).

Definition skirmish_cleaned : GameState :=
  state_after (fun s => s) (phase_cleanup skirmish_resolved).

(** The state of the Veil Surge test: 3 mana, Vorath (cost 7) and Bonecrag
    (cost 5) in hand. *)
Definition surge_state : GameState :=
  let g := Cards.new_game [Cards.make_instance "v" Cards.vorath ONE;
                           Cards.make_instance "b" Cards.bonecrag ONE] in
  with_players g (with_cards (player1 g) [0%nat; 1%nat] []) (player2 g).

(** Column 0 held four deep: Ashling in front of Duskwarden for player two,
    Bonecrag in front of Gravaul for player one. *)
Definition standoff : GameState :=
  let h := Cards.heap_of [Cards.make_instance "a" Cards.ashling TWO;
                          Cards.make_instance "d" Cards.duskwarden TWO;
                          Cards.make_instance "b" Cards.bonecrag ONE;
                          Cards.make_instance "g" Cards.gravaul ONE] in
  mkGameState "" h (Cards.new_player ONE) (Cards.new_player TWO)
    [mkBoardCard 0%nat (max_defense (h 0%nat)) 0 FRONT TWO false false 0;
     mkBoardCard 1%nat (max_defense (h 1%nat)) 0 BACK TWO false false 0;
     mkBoardCard 2%nat (max_defense (h 2%nat)) 0 FRONT ONE false false 0;
     mkBoardCard 3%nat (max_defense (h 3%nat)) 0 BACK ONE false false 0]
    1 RESOLVE [] None.

(** The state of the win-condition test: player one leads 2 to 0 in round 3
    and stands alone on the board. *)
Definition match_point : GameState :=
  let h := Cards.heap_of [Cards.make_instance "a" Cards.ashling ONE] in
  mkGameState "" h (with_score (Cards.new_player ONE) 2) (Cards.new_player TWO)
    [mkBoardCard 0%nat (max_defense (h 0%nat)) 0 FRONT ONE false false 0]
    3 RESOLVE [] None.

(** A player with six cards in hand and three in the deck. *)
Definition overfull : GameState :=
  with_players (Cards.new_game [])
    (mkPlayerState ONE [0; 1; 2; 3; 4; 5]%nat [6; 7; 8]%nat 3 false 0 20)
    (Cards.new_player TWO).

(** Player one holds a single Ashling and has 8 mana. *)
Definition lone_ashling : GameState :=
  let g := Cards.new_game [Cards.make_instance "a"%string Cards.ashling ONE] in
  with_players g (mkPlayerState ONE [0%nat] [] 8 false 0 20) (player2 g).

(** [x] may stand before [y] in a descending sort by [key]: its key is not
    the smaller one. *)
Definition not_below {A} (key : A -> Z * Z) (x y : A) : Prop :=
  Py.tuple_ltb (key x) (key y) = false.

(** [x] may stand before [y] in an ascending sort by [key]. *)
Definition not_above {A} (key : A -> Z * Z) (x y : A) : Prop :=
  Py.tuple_ltb (key y) (key x) = false.

(** Whether [_apply_flanking] grants player [p] the flanking bonus on [b]:
    [len(my_cols) >= FLANKING_THRESHOLD and len(opp_cols) <= 2]. *)
Definition flanks (b : Board.t) (p : Player) : bool :=
  (FLANKING_THRESHOLD <=? distinct_cols (Board.front_row_for b p))
  && (distinct_cols (Board.front_row_for b (opponent p)) <=? 2).

(** Whether the card object [l], standing in column [c], faces a front-row
    card of [opp] that its type beats: the test of [_apply_column_pressure]. *)
Definition facing_at (h : Heap) (b : Board.t) (opp : Player) (c : Z) (l : Loc)
  : bool :=
  match Board.get b c FRONT opp with
  | Some opp_card =>
      Qeq_bool (TYPE_MATCHUP (card_type (definition (h l)))
                             (card_type (definition (h (instance opp_card)))))
               (3 # 2)
  | None => false
  end.

(** A front-row card under column pressure. *)
Definition pressured (h : Heap) (b : Board.t) (c : BoardCard) : bool :=
  Row_eqb (row c) FRONT
  && facing_at h b (opponent (owner c)) (col c) (instance c).

(** The position bonus Step 1 and 2 of [phase_resolve] add to a card of the
    board [b]: flanking, column pressure, Veil Collapse. *)
Definition round_bonus (h : Heap) (b : Board.t) (veil : bool) (c : BoardCard)
  : Z :=
  (if flanks b (owner c) && Row_eqb (row c) FRONT then FLANKING_BONUS else 0)
  + (if pressured h b c then COLUMN_PRESSURE_BONUS else 0)
  + (if veil then attack (h (instance c)) / 2 else 0).

(** The sum of [amt l] over the entries [(k, l)] of a shape. *)
Fixpoint total_at (amt : Loc -> Z) (k : Cell) (sh : list (Cell * Loc)) : Z :=
  match sh with
  | [] => 0
  | (k', l) :: sh' =>
      (if Cell_eqb k' k then amt l else 0) + total_at amt k sh'
  end.

(** The entries of a shape that stand in the front row of player [p]. *)
Definition on_front (p : Player) (e : Cell * Loc) : bool :=
  Player_eqb (snd (fst e)) p && Row_eqb (snd (fst (fst e))) FRONT.

(** The board of the flanking test: three Ashlings of player one in the front
    row of columns 0, 1 and 2, Gravaul of player two in front of column 1. *)
Definition flank_heap : Heap :=
  Cards.heap_of [Cards.make_instance "a0" Cards.ashling ONE;
                 Cards.make_instance "a1" Cards.ashling ONE;
                 Cards.make_instance "a2" Cards.ashling ONE;
                 Cards.make_instance "g" Cards.gravaul TWO].

Definition flank_board : Board.t :=
  [mkBoardCard 0%nat 5 0 FRONT ONE false false 0;
   mkBoardCard 1%nat 5 1 FRONT ONE false false 0;
   mkBoardCard 2%nat 5 2 FRONT ONE false false 0;
   mkBoardCard 3%nat 14 1 FRONT TWO false false 0].

(** An attacker of player one in column 0 with no enemy in its column: the
    enemies stand in columns 1 and 3. *)
Definition far_board : Board.t :=
  [mkBoardCard 0%nat 5 0 FRONT ONE false false 0;
   mkBoardCard 1%nat 12 1 FRONT TWO false false 0;
   mkBoardCard 2%nat 3 3 FRONT TWO false false 0].

(** The XP a card has paid for its levels: the thresholds of the levels
    below its own. *)
Definition levels_cost (lvl : Z) : Z :=
  Py.sum (map (fun k => xp_threshold (Z.of_nat k)) (seq 1 (Z.to_nat lvl - 1))).

(** All the XP a card was ever given: what it holds and what its levels
    cost. *)
Definition lifetime_xp (c : CardInstance) : Z := xp c + levels_cost (level c).

(** What engine calls may do to a card object: it stays the same copy of the
    same card of the same owner, its level does not drop and does not pass 5
    unless it was above, and dormancy is not lifted. *)
Definition grows (c c' : CardInstance) : Prop :=
  instance_id c' = instance_id c
  /\ definition c' = definition c
  /\ inst_owner c' = inst_owner c
  /\ level c <= level c'
  /\ (level c <= 5 -> level c' <= 5)
  /\ (is_dormant c = true -> is_dormant c' = true).

(** What engine calls may do to the record of a match: the id stays, rounds
    are appended to the history and never rewritten, the round number and
    the scores do not drop, and the players' [hp] and [player] fields are not
    written. *)
Definition record_grows (s s' : GameState) : Prop :=
  game_id s' = game_id s
  /\ (exists more, round_history s' = round_history s ++ more)
  /\ current_round s <= current_round s'
  /\ forall p, score (get_player_state s p) <= score (get_player_state s' p)
               /\ hp (get_player_state s' p) = hp (get_player_state s p)
               /\ player (get_player_state s' p) = player (get_player_state s p).

(** What a batch costs: the mana cost of the hand card each entry names. *)
Definition batch_cost (h : Heap) (hd : list Loc) (batch : list Placement) : Z :=
  Py.sum (map (fun p => match find_in_hand h hd (card_instance_id p) with
                        | Some l => mana_cost (definition (h l))
                        | None => 0
                        end) batch).

(** An entry of a batch that passes the per-card checks: it names a card of
    the hand that is not dormant, a column from 0 to 3, and a cell of the
    player that is free on the board. *)
Definition placement_ok (h : Heap) (ps : PlayerState) (b : Board.t)
           (pl : Player) (p : Placement) : Prop :=
  (exists l, find_in_hand h (hand ps) (card_instance_id p) = Some l
             /\ is_dormant (h l) = false)
  /\ 0 <= p_col p <= 3
  /\ Board.get b (p_col p) (p_row p) pl = None.

(** A total the player can pay: within the mana, or over it by at most
    [VEIL_SURGE_MAX] with the Veil Surge still unused. *)
Definition affordable (ps : PlayerState) (total : Z) : Prop :=
  total <= mana ps
  \/ (veil_surge_used ps = false /\ total - mana ps <= VEIL_SURGE_MAX).

(** The board card [apply_placement] makes of an entry: the hand card it
    names, at full HP, face down, in the cell named. *)
Definition placed_card (h : Heap) (hd : list Loc) (pl : Player) (p : Placement)
  : list BoardCard :=
  match find_in_hand h hd (card_instance_id p) with
  | Some l => [mkBoardCard l (max_defense (h l)) (p_col p) (p_row p) pl
                           true false 0]
  | None => []
  end.

(** What placement leaves alone: the card objects, the other player, the
    deck, score and [hp] of the player, and the record of the match. *)
Definition only_placed (s s' : GameState) (pl : Player) : Prop :=
  heap s' = heap s
  /\ get_player_state s' (opponent pl) = get_player_state s (opponent pl)
  /\ deck (get_player_state s' pl) = deck (get_player_state s pl)
  /\ score (get_player_state s' pl) = score (get_player_state s pl)
  /\ hp (get_player_state s' pl) = hp (get_player_state s pl)
  /\ player (get_player_state s' pl) = player (get_player_state s pl)
  /\ game_id s' = game_id s
  /\ current_round s' = current_round s
  /\ phase s' = phase s
  /\ round_history s' = round_history s
  /\ match_winner s' = match_winner s.

(** The final round fought by Veyra of player one and Vorath of player two,
    face to face in the front row of column 0. *)
Definition echo_duel : GameState :=
  mkGameState "" (duel_heap Cards.veyra Cards.vorath)
              (Cards.new_player ONE) (Cards.new_player TWO)
              (duel_board Cards.veyra Cards.vorath)
              ROUNDS_PER_MATCH RESOLVE [] None.

Definition echo_resolved : GameState :=
  fst (phase_resolve Cards.exact_heal echo_duel).

Definition echo_cleaned : GameState :=
  state_after (fun s => s) (phase_cleanup echo_resolved).

(** The sum of the HP of the cards of player [p] on a board, written out. *)
Definition hp_on_board (b : Board.t) (p : Player) : Z :=
  fold_right Z.add 0
             (map current_hp (filter (fun c => Player_eqb (owner c) p) b)).

(* ------------------------------------------------------------------ *)
(** ** The type advantage table *)
(* ------------------------------------------------------------------ *)

Section Matchup.
Local Open Scope Q_scope.

(** C1, as stated: every two distinct types are in an advantage relation,
    one way or the other.  The table refutes it: Specter and Phantom sit on
    opposite corners of the cycle and are neutral both ways. *)
Lemma matchup_opposite_corners_neutral :
  ~ (forall a b : CardType, a <> b ->
       (beats a b /\ weak_to b a) \/ (beats b a /\ weak_to a b)).
Proof.
  intros H.
  destruct (H SPECTER PHANTOM) as [[Hb _] | [Hb _]];
    try discriminate; vm_compute in Hb; discriminate.
Qed.

(** C1, amended: self-matchups are 1.0; every entry is 1.5, 1.0 or 0.75;
    A beats B (1.5) exactly when B is weak to A (0.75), and never both ways;
    each type beats exactly the next type of the cycle
    Specter -> Behemoth -> Phantom -> Revenant -> Specter, so the two pairs
    of opposite corners are 1.0 both ways. *)
Theorem matchup_table :
  (forall x, TYPE_MATCHUP x x == 1)
  /\ (forall a b, TYPE_MATCHUP a b == 3 # 2 \/ TYPE_MATCHUP a b == 1
                  \/ TYPE_MATCHUP a b == 3 # 4)
  /\ (forall a b, beats a b <-> weak_to b a)
  /\ (forall a b, ~ (beats a b /\ beats b a))
  /\ (forall a b, beats a b <->
                  (a, b) = (SPECTER, BEHEMOTH) \/ (a, b) = (BEHEMOTH, PHANTOM)
                  \/ (a, b) = (PHANTOM, REVENANT) \/ (a, b) = (REVENANT, SPECTER))
  /\ TYPE_MATCHUP SPECTER PHANTOM == 1 /\ TYPE_MATCHUP PHANTOM SPECTER == 1
  /\ TYPE_MATCHUP REVENANT BEHEMOTH == 1 /\ TYPE_MATCHUP BEHEMOTH REVENANT == 1.
Proof.
  unfold beats, weak_to.
  repeat split; try reflexivity;
    try (intros a b; destruct a, b; vm_compute; intuition congruence);
    try (intros x; destruct x; reflexivity);
    try (intros H; destruct a, b; vm_compute in H |- *; intuition congruence).
Qed.

End Matchup.

(* ------------------------------------------------------------------ *)
(** ** Phase: Draw *)
(* ------------------------------------------------------------------ *)

Section Draw.

(** Both slices of the deck are cut at the same place. *)
Lemma slices_partition {A} (l : list A) (n : Z) :
  Py.slice_to l n ++ Py.slice_from l n = l.
Proof. unfold Py.slice_to, Py.slice_from. apply firstn_skipn. Qed.

(** A hand of at most [draw_to] cards is topped up from the front of the
    deck, as far as the deck goes. *)
Lemma draw_for_tops_up (ps : PlayerState) (draw_to : Z) :
  Py.len (hand ps) <= draw_to ->
  let n := Z.to_nat (draw_to - Py.len (hand ps)) in
  hand (draw_for ps draw_to) = hand ps ++ firstn n (deck ps)
  /\ deck (draw_for ps draw_to) = skipn n (deck ps)
  /\ Py.len (hand (draw_for ps draw_to))
     = Z.min draw_to (Py.len (hand ps) + Py.len (deck ps)).
Proof.
  intros Hle n. unfold draw_for, Py.slice_to, Py.slice_from, Py.clamp.
  destruct (draw_to - Py.len (hand ps) <? 0) eqn:E; [apply Z.ltb_lt in E; lia|].
  cbn [hand deck with_cards]. fold n. repeat split.
  unfold Py.len in *. rewrite length_app, length_firstn. lia.
Qed.

(** The hand that holds exactly [draw_to] cards draws nothing. *)
Lemma draw_for_full_hand (ps : PlayerState) (draw_to : Z) :
  Py.len (hand ps) = draw_to ->
  hand (draw_for ps draw_to) = hand ps /\ deck (draw_for ps draw_to) = deck ps.
Proof.
  intros H. destruct (draw_for_tops_up ps draw_to) as (Hh & Hd & _); [lia|].
  rewrite Hh, Hd. replace (draw_to - Py.len (hand ps)) with 0 by lia.
  cbn. now rewrite app_nil_r.
Qed.


(** C2 on a hand above the fixed size: [needed] is [-1], and the slices
    [deck[:-1]] and [deck[-1:]] make the player draw all of the deck but its
    last card. *)
Theorem phase_draw_overfull_hand :
  let s' := phase_draw overfull DRAW_TO in
  hand (player1 s') = [0; 1; 2; 3; 4; 5; 6; 7]%nat
  /\ deck (player1 s') = [8]%nat
  /\ phase s' = MANA.
Proof. vm_compute. auto. Qed.

End Draw.

(* ------------------------------------------------------------------ *)
(** ** Placement *)
(* ------------------------------------------------------------------ *)

Section DuplicateCard.
Local Open Scope string_scope.


(** C10: a batch naming one card for two distinct cells passes
    [validate_placement], and [apply_placement] raises on it
    ([StopIteration], from [next] on the second entry) once the first entry
    has been put on the board and taken off the hand. *)
Theorem duplicate_card_batch_raises :
  exists (s : GameState) (pl : Player) (p q : Placement) (s' : GameState),
    card_instance_id p = card_instance_id q
    /\ (p_col p, p_row p) <> (p_col q, p_row q)
    /\ validate_placement s pl [p; q] = (true, None)
    /\ apply_placement s pl [p; q] = Raise Py.StopIteration s'
    /\ Board.all_cards (board s) = []
    /\ map instance (Board.all_cards (board s')) = [0%nat]
    /\ hand (get_player_state s pl) = [0%nat]
    /\ hand (get_player_state s' pl) = [].
Proof.
  exists lone_ashling, ONE, (mkPlacement "a" 0 FRONT),
         (mkPlacement "a" 1 FRONT).
  eexists. repeat split; try reflexivity. discriminate.
Qed.

End DuplicateCard.

(* ------------------------------------------------------------------ *)
(** ** Records and boards: the equations the proofs rewrite with *)
(* ------------------------------------------------------------------ *)

Lemma Player_eqb_eq (a b : Player) : Player_eqb a b = true <-> a = b.
Proof. destruct a, b; cbn; split; congruence. Qed.

Lemma Row_eqb_eq (a b : Row) : Row_eqb a b = true <-> a = b.
Proof. destruct a, b; cbn; split; congruence. Qed.

Lemma Player_eqb_refl (a : Player) : Player_eqb a a = true.
Proof. now destruct a. Qed.

Lemma Row_eqb_refl (a : Row) : Row_eqb a a = true.
Proof. now destruct a. Qed.

Lemma Cell_eqb_eq (a b : Cell) : Cell_eqb a b = true <-> a = b.
Proof.
  destruct a as [[c1 r1] o1], b as [[c2 r2] o2]. cbn.
  rewrite !andb_true_iff, Z.eqb_eq, Row_eqb_eq, Player_eqb_eq.
  split; [intros [[-> ->] ->]; reflexivity | intros [= -> -> ->]; auto].
Qed.

Lemma Cell_eqb_refl (a : Cell) : Cell_eqb a a = true.
Proof. now apply Cell_eqb_eq. Qed.

Lemma Cell_eqb_neq (a b : Cell) : Cell_eqb a b = false <-> a <> b.
Proof.
  rewrite <- Cell_eqb_eq. destruct (Cell_eqb a b); split; congruence.
Qed.

Lemma get_set_player_state (s : GameState) (p : Player) (ps : PlayerState) :
  get_player_state (set_player_state s p ps) p = ps.
Proof. now destruct p. Qed.

Lemma heap_set_player_state (s : GameState) (p : Player) (ps : PlayerState) :
  heap (set_player_state s p ps) = heap s.
Proof. now destruct p. Qed.

Lemma board_set_player_state (s : GameState) (p : Player) (ps : PlayerState) :
  board (set_player_state s p ps) = board s.
Proof. now destruct p. Qed.

Lemma get_player_state_with_board (s : GameState) (b : Board.t) (p : Player) :
  get_player_state (with_board s b) p = get_player_state s p.
Proof. now destruct p. Qed.


Section BoardFacts.

Lemma get_Some_cell (b : Board.t) c r o x :
  Board.get b c r o = Some x -> In x b /\ cell_of x = (c, r, o).
Proof.
  unfold Board.get. intros H. apply find_some in H.
  destruct H as [Hin Hc]. split; [assumption|]. now apply Cell_eqb_eq.
Qed.

Lemma get_None_iff (b : Board.t) c r o :
  Board.get b c r o = None <-> forall x, In x b -> cell_of x <> (c, r, o).
Proof.
  unfold Board.get. split.
  - intros H x Hin. apply (find_none _ _ H) in Hin.
    now apply Cell_eqb_neq.
  - intros H. destruct (find _ b) eqn:E; [|reflexivity].
    apply find_some in E. destruct E as [Hin Hc].
    apply Cell_eqb_eq in Hc. now elim (H _ Hin).
Qed.

Lemma get_app (b b' : Board.t) c r o :
  Board.get (b ++ b') c r o
  = match Board.get b c r o with
    | Some x => Some x
    | None => Board.get b' c r o
    end.
Proof.
  unfold Board.get. induction b as [|x b IH]; [reflexivity|].
  cbn [app find]. destruct (at_cell (c, r, o) x); [reflexivity | exact IH].
Qed.

(** On a well-formed board a card is the one filed under its cell. *)
Lemma get_of_member (b : Board.t) (x : BoardCard) :
  board_wf b -> In x b -> Board.get b (col x) (row x) (owner x) = Some x.
Proof.
  unfold board_wf, Board.get. induction b as [|y b IH]; [contradiction|].
  cbn [map]. intros Hnd [-> | Hin].
  - cbn [find]. unfold at_cell. now rewrite Cell_eqb_refl.
  - inversion Hnd as [|? ? Hnotin Hnd']; subst. cbn [find].
    destruct (at_cell (col x, row x, owner x) y) eqn:E.
    + apply Cell_eqb_eq in E. elim Hnotin. rewrite E.
      change (col x, row x, owner x) with (cell_of x). now apply in_map.
    + now apply IH.
Qed.

End BoardFacts.

(* ------------------------------------------------------------------ *)
(** ** Placement: validation, application and Veil Surge *)
(* ------------------------------------------------------------------ *)

Section PlacementFacts.

(** Dropping a card from the hand does not change which card answers to
    another id. *)
Lemma find_remove_other (f : Loc -> bool) (l : Loc) (hd : list Loc) :
  f l = false -> find f (list_remove l hd) = find f hd.
Proof.
  intros Hf. induction hd as [|y hd IH]; [reflexivity|].
  cbn [list_remove find]. destruct (Nat.eqb y l) eqn:E.
  - apply Nat.eqb_eq in E. subst y. now rewrite Hf.
  - cbn [find]. now rewrite IH.
Qed.

Lemma find_in_hand_id (h : Heap) (hd : list Loc) (cid : string) (l : Loc) :
  find_in_hand h hd cid = Some l -> In l hd /\ instance_id (h l) = cid.
Proof.
  unfold find_in_hand. intros H. apply find_some in H.
  destruct H as [Hin He]. split; [assumption | now apply String.eqb_eq].
Qed.

(** A batch that passes the checks of [validate_placement] and names each
    card once goes through the loop of [apply_placement] without an
    exception, at the same total cost, and the loop leaves the mana alone. *)
Lemma validated_loop_applies (pl : Player) (psV : PlayerState) (B : Board.t) :
  forall (batch : list Placement) (s : GameState) (P : list (Z * Row))
         (t total : Z),
    NoDup (map card_instance_id batch) ->
    (forall cid, In cid (map card_instance_id batch) ->
       find_in_hand (heap s) (hand (get_player_state s pl)) cid
       = find_in_hand (heap s) (hand psV) cid) ->
    (forall c r, Board.get (board s) c r pl = None <->
                 Board.get B c r pl = None /\ cell_used P c r = false) ->
    validate_loop (heap s) psV B pl batch t P = inr total ->
    exists s', apply_loop s pl batch t = Ok (s', total)
               /\ heap s' = heap s
               /\ mana (get_player_state s' pl) = mana (get_player_state s pl)
               /\ veil_surge_used (get_player_state s' pl)
                  = veil_surge_used (get_player_state s pl).
Proof.
  induction batch as [|p rest IH]; intros s P t total Hnd Hhand Hboard Hval.
  - cbn in Hval. injection Hval as <-. exists s. cbn. auto.
  - cbn [validate_loop] in Hval. cbn [apply_loop].
    cbn [map] in Hnd, Hhand. inversion Hnd as [|? ? Hfresh Hnd']; subst.
    rewrite (Hhand (card_instance_id p)) by now left.
    destruct (find_in_hand (heap s) (hand psV) (card_instance_id p))
      as [l|] eqn:Hfind; [|discriminate].
    destruct (is_dormant (heap s l)); [discriminate|].
    destruct (negb (existsb (Row_eqb (p_row p)) (_valid_rows_for pl)));
      [discriminate|].
    destruct (negb ((0 <=? p_col p) && (p_col p <=? 3))); [discriminate|].
    destruct (cell_used P (p_col p) (p_row p)) eqn:Hused; [discriminate|].
    destruct (Board.get B (p_col p) (p_row p) pl) eqn:HB; [discriminate|].
    assert (Hfree : Board.get (board s) (p_col p) (p_row p) pl = None)
      by (apply Hboard; auto).
    unfold Board.place. cbn [col row owner]. rewrite Hfree.
    destruct (find_in_hand_id _ _ _ _ Hfind) as [_ Hid].
    match goal with
    | |- exists s', apply_loop ?s1 _ _ ?t1 = _ /\ _ =>
        destruct (IH s1 ((p_col p, p_row p) :: P) t1 total) as (s' & Ha & Hh & Hm & Hv)
    end.
    + assumption.
    + intros cid Hin.
      unfold take_from_hand.
      rewrite heap_set_player_state, get_set_player_state.
      rewrite get_player_state_with_board.
      cbn [heap hand with_cards with_board].
      rewrite <- Hhand by now right.
      apply find_remove_other. cbv beta. rewrite Hid.
      apply String.eqb_neq. intros E. subst cid. contradiction.
    + intros c r. unfold take_from_hand.
      rewrite board_set_player_state. cbn [board with_board].
      rewrite get_app. cbn [cell_used existsb fst snd].
      fold (cell_used P c r).
      unfold Board.get at 2. cbn [find]. unfold at_cell, cell_of.
      cbn [col row owner Cell_eqb]. rewrite Player_eqb_refl, andb_true_r.
      destruct (Board.get (board s) c r pl) eqn:Hs.
      * split; [discriminate|]. intros [HBc Hor].
        apply orb_false_iff in Hor. destruct Hor as [_ Hu].
        assert (Hn : Board.get (board s) c r pl = None) by (apply Hboard; auto).
        congruence.
      * assert (HP : Board.get B c r pl = None /\ cell_used P c r = false)
          by now apply Hboard.
        destruct HP as [HBc Hu]. rewrite Hu, orb_false_r.
        destruct ((p_col p =? c) && Row_eqb (p_row p) r); split; intros H;
          try discriminate; auto.
        destruct H; discriminate.
    + unfold take_from_hand.
      rewrite heap_set_player_state. cbn [heap with_board]. exact Hval.
    + exists s'. rewrite Ha, Hh, Hm, Hv. unfold take_from_hand.
      rewrite heap_set_player_state, !get_set_player_state.
      rewrite get_player_state_with_board. cbn. auto.
Qed.

End PlacementFacts.

(* ------------------------------------------------------------------ *)
(** ** Resolve: what the phase leaves in the state *)
(* ------------------------------------------------------------------ *)

Section ResolveFacts.

Variable heal : Z -> Q -> Z.

Lemma board_award (s : GameState) (w : option Player) (n : Z) :
  board (award s w n) = board s.
Proof. destruct w; [apply board_set_player_state | reflexivity]. Qed.

Lemma heap_award (s : GameState) (w : option Player) (n : Z) :
  heap (award s w n) = heap s.
Proof. destruct w; [apply heap_set_player_state | reflexivity]. Qed.

Lemma resolve_board (s : GameState) :
  board (fst (phase_resolve heal s)) = resolved_board heal s.
Proof. cbn. now rewrite board_award. Qed.

Lemma resolve_heap (s : GameState) :
  heap (fst (phase_resolve heal s)) = heap s.
Proof. cbn. now rewrite heap_award. Qed.

Lemma resolve_round (s : GameState) :
  current_round (fst (phase_resolve heal s)) = current_round s.
Proof. cbn. destruct (fst (score_round _)) as [[]|]; reflexivity. Qed.

(** The player records after Resolve: the round winner has the points of the
    round added to the score, nothing else moves. *)
Lemma resolve_player (s : GameState) (p : Player) :
  get_player_state (fst (phase_resolve heal s)) p
  = let ps := get_player_state s p in
    match fst (score_round (resolved_board heal s)) with
    | Some w => if Player_eqb w p
                then with_score ps (score ps + snd (score_round (resolved_board heal s)))
                else ps
    | None => ps
    end.
Proof.
  cbn. destruct (fst (score_round _)) as [[]|]; destruct p; reflexivity.
Qed.

Lemma resolve_result (s : GameState) :
  let r := snd (phase_resolve heal s) in
  let s' := fst (phase_resolve heal s) in
  round_winner r = fst (score_round (resolved_board heal s))
  /\ round_points_awarded r = snd (score_round (resolved_board heal s))
  /\ p1_surviving_defense r = total_hp (Board.cards_for (board s') ONE)
  /\ p2_surviving_defense r = total_hp (Board.cards_for (board s') TWO)
  /\ result_match_winner r = match_winner s'
  /\ match_score r = (score (player1 s'), score (player2 s'))
  /\ last_result (round_history s') = Some r.
Proof.
  cbn zeta. rewrite resolve_board. cbn. repeat split.
  unfold last_result. now rewrite rev_app_distr.
Qed.

Lemma len_zero_iff {A} (l : list A) : (Py.len l =? 0) = true <-> l = [].
Proof.
  rewrite Z.eqb_eq. unfold Py.len. destruct l; cbn; split; intros H;
    try reflexivity; try discriminate; lia.
Qed.

Lemma len_zero_false {A} (l : list A) : (Py.len l =? 0) = false <-> l <> [].
Proof.
  rewrite <- len_zero_iff. destruct (Py.len l =? 0); split; congruence.
Qed.

Lemma score_round_cases (b : Board.t) :
  let wiped := fun p => Board.cards_for b p = [] in
  let p1_def := total_hp (Board.cards_for b ONE) in
  let p2_def := total_hp (Board.cards_for b TWO) in
  (wiped ONE /\ wiped TWO -> score_round b = (None, 0))
  /\ (wiped TWO /\ ~ wiped ONE -> score_round b = (Some ONE, 2))
  /\ (wiped ONE /\ ~ wiped TWO -> score_round b = (Some TWO, 2))
  /\ (~ wiped ONE /\ ~ wiped TWO /\ p2_def < p1_def
      -> score_round b = (Some ONE, 1))
  /\ (~ wiped ONE /\ ~ wiped TWO /\ p1_def < p2_def
      -> score_round b = (Some TWO, 1))
  /\ (~ wiped ONE /\ ~ wiped TWO /\ p1_def = p2_def
      -> score_round b = (None, 0)).
Proof.
  cbn zeta. unfold score_round.
  destruct (Py.len (Board.cards_for b ONE) =? 0) eqn:E1;
    [apply len_zero_iff in E1 | apply len_zero_false in E1];
    (destruct (Py.len (Board.cards_for b TWO) =? 0) eqn:E2;
     [apply len_zero_iff in E2 | apply len_zero_false in E2]);
    cbn [andb negb];
    destruct (Z.ltb_spec (total_hp (Board.cards_for b TWO))
                         (total_hp (Board.cards_for b ONE)));
    destruct (Z.ltb_spec (total_hp (Board.cards_for b ONE))
                         (total_hp (Board.cards_for b TWO)));
    repeat split; intros; try reflexivity;
    try (exfalso; tauto); exfalso; intuition lia.
Qed.

(** The round is scored on the board Resolve returns, and the points go to
    the score of the round winner. *)
Lemma resolve_scoring (s : GameState) :
  let s' := fst (phase_resolve heal s) in
  let r := snd (phase_resolve heal s) in
  let wiped := fun p => Board.cards_for (board s') p = [] in
  let p1_def := total_hp (Board.cards_for (board s') ONE) in
  let p2_def := total_hp (Board.cards_for (board s') TWO) in
  let outcome := (round_winner r, round_points_awarded r) in
  (wiped ONE /\ wiped TWO -> outcome = (None, 0))
  /\ (wiped TWO /\ ~ wiped ONE -> outcome = (Some ONE, 2))
  /\ (wiped ONE /\ ~ wiped TWO -> outcome = (Some TWO, 2))
  /\ (~ wiped ONE /\ ~ wiped TWO /\ p2_def < p1_def -> outcome = (Some ONE, 1))
  /\ (~ wiped ONE /\ ~ wiped TWO /\ p1_def < p2_def -> outcome = (Some TWO, 1))
  /\ (~ wiped ONE /\ ~ wiped TWO /\ p1_def = p2_def -> outcome = (None, 0))
  /\ (forall w, round_winner r = Some w ->
        score (get_player_state s' w)
        = score (get_player_state s w) + round_points_awarded r
        /\ score (get_player_state s' (opponent w))
           = score (get_player_state s (opponent w)))
  /\ (round_winner r = None ->
        forall p, score (get_player_state s' p) = score (get_player_state s p)).
Proof.
  cbn zeta.
  destruct (resolve_result s) as (Hw & Hp & _).
  rewrite Hw, Hp, resolve_board.
  rewrite <- surjective_pairing.
  destruct (score_round_cases (resolved_board heal s))
    as (C1 & C2 & C3 & C4 & C5 & C6).
  repeat split; try assumption.
  - rewrite resolve_player. cbn zeta. rewrite H, Player_eqb_refl. reflexivity.
  - rewrite resolve_player. cbn zeta. rewrite H.
    destruct w; reflexivity.
  - intros Hn p. rewrite resolve_player. cbn zeta. now rewrite Hn.
Qed.

Lemma resolve_winner (s : GameState) :
  let s' := fst (phase_resolve heal s) in
  match_winner s'
  = decide_match (score (player1 s')) (score (player2 s')) (current_round s)
  /\ phase s' = match match_winner s' with
                | Some _ => MATCH_OVER
                | None => CLEANUP
                end.
Proof.
  cbn. destruct (fst (score_round _)) as [[]|]; split; reflexivity.
Qed.

(** C7: after Resolve, a player whose cumulative score has reached 3 is the
    match winner and the phase is MATCH_OVER, whatever the round (player one
    is looked at first); otherwise, at round 5, the higher scorer is the
    match winner, and equal scores leave [match_winner] unset (the phase is
    then CLEANUP); before round 5 no winner is set. *)
Theorem match_conclusion (s : GameState) :
  let s' := fst (phase_resolve heal s) in
  let sc1 := score (player1 s') in
  let sc2 := score (player2 s') in
  (WIN_SCORE <= sc1 -> match_winner s' = Some ONE /\ phase s' = MATCH_OVER)
  /\ (sc1 < WIN_SCORE <= sc2 ->
      match_winner s' = Some TWO /\ phase s' = MATCH_OVER)
  /\ (sc1 < WIN_SCORE /\ sc2 < WIN_SCORE
      /\ current_round s = ROUNDS_PER_MATCH ->
      (sc2 < sc1 -> match_winner s' = Some ONE /\ phase s' = MATCH_OVER)
      /\ (sc1 < sc2 -> match_winner s' = Some TWO /\ phase s' = MATCH_OVER)
      /\ (sc1 = sc2 -> match_winner s' = None /\ phase s' = CLEANUP))
  /\ (sc1 < WIN_SCORE /\ sc2 < WIN_SCORE
      /\ current_round s < ROUNDS_PER_MATCH ->
      match_winner s' = None /\ phase s' = CLEANUP)
  /\ result_match_winner (snd (phase_resolve heal s)) = match_winner s'.
Proof.
  cbn zeta. destruct (resolve_winner s) as [Hw Hp]. cbn zeta in Hw, Hp.
  destruct (resolve_result s) as (_ & _ & _ & _ & Hr & _). rewrite Hr.
  rewrite Hp, Hw. unfold decide_match, WIN_SCORE, ROUNDS_PER_MATCH.
  set (sc1 := score (player1 (fst (phase_resolve heal s)))).
  set (sc2 := score (player2 (fst (phase_resolve heal s)))).
  destruct (Z.leb_spec 3 sc1); destruct (Z.leb_spec 3 sc2);
    destruct (Z.leb_spec 5 (current_round s));
    destruct (Z.ltb_spec sc2 sc1); destruct (Z.ltb_spec sc1 sc2);
    repeat split; intros; try reflexivity; try lia.
Qed.

End ResolveFacts.

(* ------------------------------------------------------------------ *)
(** ** Boards under in-place updates, and the sorts *)
(* ------------------------------------------------------------------ *)

Section UpdateFacts.

Variable f : BoardCard -> BoardCard.
Hypothesis f_cell : forall c, cell_of (f c) = cell_of c.

Lemma update_cells (b : Board.t) (k : Cell) :
  map cell_of (Board.update b k f) = map cell_of b.
Proof.
  unfold Board.update. rewrite map_map. apply map_ext.
  intros c. destruct (at_cell k c); [apply f_cell | reflexivity].
Qed.

Lemma get_update (b : Board.t) (k : Cell) c r o :
  Board.get (Board.update b k f) c r o
  = option_map (fun x => if at_cell k x then f x else x) (Board.get b c r o).
Proof.
  unfold Board.get, Board.update. induction b as [|x b IH]; [reflexivity|].
  cbn [map find].
  assert (E : at_cell (c, r, o) (if at_cell k x then f x else x)
              = at_cell (c, r, o) x).
  { unfold at_cell. destruct (Cell_eqb (cell_of x) k); [|reflexivity].
    now rewrite f_cell. }
  rewrite E. destruct (at_cell (c, r, o) x); [reflexivity | exact IH].
Qed.

Lemma update_wf (b : Board.t) (k : Cell) :
  board_wf b -> board_wf (Board.update b k f).
Proof. unfold board_wf. now rewrite update_cells. Qed.

End UpdateFacts.

Lemma set_hp_cell (hp : Z) (c : BoardCard) : cell_of (set_hp c hp) = cell_of c.
Proof. reflexivity. Qed.

Lemma add_bonus_cell (n : Z) (c : BoardCard) : cell_of (add_bonus c n) = cell_of c.
Proof. reflexivity. Qed.

(** Whether a card is protected depends on which cells are taken only. *)
Lemma get_is_None_cells (b b' : Board.t) c r o :
  map cell_of b = map cell_of b' ->
  (Board.get b c r o = None <-> Board.get b' c r o = None).
Proof.
  intros H. rewrite !get_None_iff. split; intros Hn x Hin E.
  - apply (in_map cell_of) in Hin. rewrite <- H in Hin.
    apply in_map_iff in Hin. destruct Hin as (y & Hy & Hiny).
    apply (Hn y Hiny). congruence.
  - apply (in_map cell_of) in Hin. rewrite H in Hin.
    apply in_map_iff in Hin. destruct Hin as (y & Hy & Hiny).
    apply (Hn y Hiny). congruence.
Qed.

Lemma is_targetable_cells (b b' : Board.t) (c : BoardCard) :
  map cell_of b = map cell_of b' -> is_targetable b c = is_targetable b' c.
Proof.
  intros H. unfold is_targetable. destruct (Row_eqb (row c) BACK); [|reflexivity].
  pose proof (get_is_None_cells b b' (col c) FRONT (owner c) H) as E.
  destruct (Board.get b (col c) FRONT (owner c)),
           (Board.get b' (col c) FRONT (owner c)); try reflexivity.
  - destruct E as [_ E]. discriminate (E eq_refl).
  - destruct E as [E _]. discriminate (E eq_refl).
Qed.

Section SortFacts.

Context {A : Type} (key : A -> Z * Z).

Lemma insert_asc_In (x y : A) (s : list A) :
  In y (Py.insert_asc key x s) <-> y = x \/ In y s.
Proof.
  induction s as [|z s IH]; cbn.
  - intuition congruence.
  - destruct (Py.tuple_ltb (key z) (key x)); cbn; rewrite ?IH; intuition congruence.
Qed.

Lemma sort_asc_In (y : A) (l : list A) : In y (Py.sort_asc key l) <-> In y l.
Proof.
  induction l as [|x l IH]; cbn; [tauto|].
  rewrite insert_asc_In, IH. intuition congruence.
Qed.

Lemma insert_desc_In (x y : A) (s : list A) :
  In y (Py.insert_desc key x s) <-> y = x \/ In y s.
Proof.
  induction s as [|z s IH]; cbn.
  - intuition congruence.
  - destruct (Py.tuple_ltb (key x) (key z)); cbn; rewrite ?IH; intuition congruence.
Qed.

Lemma sort_desc_In (y : A) (l : list A) : In y (Py.sort_desc key l) <-> In y l.
Proof.
  induction l as [|x l IH]; cbn; [tauto|].
  rewrite insert_desc_In, IH. intuition congruence.
Qed.

End SortFacts.

(* ------------------------------------------------------------------ *)
(** ** Targeting *)
(* ------------------------------------------------------------------ *)

Section Targeting.

(** What [_find_target] returns is an enemy card of the board that is alive
    and targetable. *)
Lemma find_target_sound (attacker t : BoardCard) (b : Board.t) :
  _find_target attacker b = Some t ->
  In t b
  /\ owner t = (if Player_eqb (owner attacker) ONE then TWO else ONE)
  /\ is_alive t = true
  /\ is_targetable b t = true.
Proof.
  unfold _find_target. cbv zeta.
  set (opp := if Player_eqb (owner attacker) ONE then TWO else ONE).
  assert (Hget : forall c r x, Board.get b c r opp = Some x ->
                               is_alive x && is_targetable b x = true ->
                               In x b /\ owner x = opp /\ is_alive x = true
                               /\ is_targetable b x = true).
  { intros c r x Hg He. apply get_Some_cell in Hg. destruct Hg as [Hin Hc].
    apply andb_true_iff in He. injection Hc as _ _ Ho. tauto. }
  assert (Hnear : match Py.sort_asc (target_key attacker)
                          (filter (fun c => is_alive c && is_targetable b c)
                                  (Board.cards_for b opp)) with
                  | [] => None
                  | e :: _ => Some e
                  end = Some t ->
                  In t b /\ owner t = opp /\ is_alive t = true
                  /\ is_targetable b t = true).
  { destruct (Py.sort_asc _ _) as [|e l] eqn:E; [discriminate|].
    intros [= E']. rewrite E' in E.
    assert (Hin : In t (Py.sort_asc (target_key attacker)
                          (filter (fun c => is_alive c && is_targetable b c)
                                  (Board.cards_for b opp))))
      by (rewrite E; now left).
    apply sort_asc_In in Hin. apply filter_In in Hin. destruct Hin as [Hin He].
    unfold Board.cards_for in Hin. apply filter_In in Hin.
    destruct Hin as [Hin Ho]. apply Player_eqb_eq in Ho.
    apply andb_true_iff in He. tauto. }
  destruct (Board.get b (col attacker) FRONT opp) as [direct|] eqn:Hd;
    [destruct (is_alive direct && is_targetable b direct) eqn:Ed;
     [intros [= E]; rewrite <- E; now apply (Hget _ _ _ Hd)|]|];
    (destruct (Board.get b (col attacker) BACK opp) as [back|] eqn:Hb;
     [destruct (is_alive back && is_targetable b back) eqn:Eb;
      [intros [= E]; rewrite <- E; now apply (Hget _ _ _ Hb)|]|]);
    exact Hnear.
Qed.

(** C4, as stated: a back-row card is protected if and only if a live card
    stands in front of it.  Refuted on a board of player two where the front
    card of column 0 has been brought to -5 HP and waits for its removal: the
    back-row card behind it is not targetable. *)
Lemma dead_front_card_still_protects :
  ~ (forall (b : Board.t) (c : BoardCard), row c = BACK ->
       (is_targetable b c = false <->
        exists f, Board.get b (col c) FRONT (owner c) = Some f
                  /\ is_alive f = true)).
Proof.
  intros H.
  set (front := mkBoardCard 0%nat (-5) 0 FRONT TWO false false 0).
  set (back := mkBoardCard 1%nat 12 0 BACK TWO false false 0).
  destruct (H [front; back] back eq_refl) as [Hdead _].
  destruct (Hdead eq_refl) as (f & Hf & Halive).
  cbn in Hf. injection Hf as <-. discriminate Halive.
Qed.

(** C4, amended: front-row cards are always targetable; a back-row card is
    protected if and only if the front cell of its column on its own side
    holds a card, alive or not; [_find_target] never selects a back-row card
    whose front cell is taken, and what it selects is alive; and since an
    attack only writes HP, a front card destroyed during the round protects
    until the round's attacks are over. *)
Theorem back_row_protection (heal : Z -> Q -> Z) (h : Heap) (b : Board.t) :
  (forall c, row c = FRONT -> is_targetable b c = true)
  /\ (forall c, row c = BACK ->
        (is_targetable b c = false <->
         exists f, Board.get b (col c) FRONT (owner c) = Some f))
  /\ (forall attacker t, _find_target attacker b = Some t ->
        is_alive t = true
        /\ (row t = BACK -> Board.get b (col t) FRONT (owner t) = None))
  /\ (forall (st : Combat) (ref c : BoardCard),
        is_targetable (cb_board (attack_turn heal h st ref)) c
        = is_targetable (cb_board st) c).
Proof.
  repeat split.
  - intros c Hc. unfold is_targetable. now rewrite Hc.
  - unfold is_targetable. rewrite H. cbn.
    destruct (Board.get b (col c) FRONT (owner c)) as [f|]; [eauto | discriminate].
  - unfold is_targetable. rewrite H. cbn. intros [f ->]. reflexivity.
  - now apply find_target_sound in H.
  - intros Hrow. apply find_target_sound in H. destruct H as (_ & _ & _ & Ht).
    unfold is_targetable in Ht. rewrite Hrow in Ht. cbn in Ht.
    destruct (Board.get b (col t) FRONT (owner t)); [discriminate | reflexivity].
  - intros st ref c. apply is_targetable_cells.
    unfold attack_turn.
    destruct (Board.get (cb_board st) (col ref) (row ref) (owner ref))
      as [attacker|]; [|reflexivity].
    destruct (negb (is_alive attacker)); [reflexivity|].
    destruct (_find_target attacker (cb_board st)) as [target|]; [|reflexivity].
    destruct (has_ability _ ON_ATTACK LIFESTEAL);
      destruct (if negb _ then has_ability _ ON_DEATH VEIL_ECHO else None);
      cbn [cb_board]; rewrite !update_cells; auto using set_hp_cell.
Qed.

End Targeting.

(* ------------------------------------------------------------------ *)
(** ** Damage *)
(* ------------------------------------------------------------------ *)

Section AttackTurn.

Variable heal : Z -> Q -> Z.

Lemma at_cell_set_hp (k : Cell) (c : BoardCard) (x : Z) :
  at_cell k (set_hp c x) = at_cell k c.
Proof. reflexivity. Qed.

(** What one attack writes: an event carrying the damage, and the HP of the
    defender. *)
Lemma attack_turn_hit (h : Heap) (st : Combat) (ref attacker target : BoardCard) :
  board_wf (cb_board st) ->
  Board.get (cb_board st) (col ref) (row ref) (owner ref) = Some attacker ->
  is_alive attacker = true ->
  _find_target attacker (cb_board st) = Some target ->
  let st' := attack_turn heal h st ref in
  let adef := definition (h (instance attacker)) in
  let tdef := definition (h (instance target)) in
  let multiplier := TYPE_MATCHUP (card_type adef) (card_type tdef) in
  let damage := hit_damage heal (effective_attack h attacker) multiplier tdef in
  (exists ev,
      cb_events st' = cb_events st ++ [ev]
      /\ attacker_name ev = name adef /\ defender_name ev = name tdef
      /\ type_multiplier ev = multiplier
      /\ raw_attack ev = effective_attack h attacker
      /\ damage_dealt ev = damage
      /\ defender_destroyed ev = negb (0 <? current_hp target - damage))
  /\ (exists t',
         Board.get (cb_board st') (col target) (row target) (owner target)
         = Some t'
         /\ current_hp t' = current_hp target - damage).
Proof.
  intros Hwf Hget Halive Htarget. cbn zeta. unfold attack_turn.
  rewrite Hget, Halive, Htarget. cbn [negb].
  destruct (find_target_sound _ _ _ Htarget) as (Hin & Hown & _ & _).
  apply get_Some_cell in Hget. destruct Hget as [_ Hcell].
  assert (Hother : at_cell (cell_of attacker) target = false).
  { unfold at_cell. apply Cell_eqb_neq. unfold cell_of. intros [= _ _ Ho].
    rewrite Ho in Hown. destruct (owner attacker); discriminate. }
  assert (Hself : at_cell (cell_of target) target = true)
    by apply Cell_eqb_refl.
  split.
  - destruct (has_ability _ ON_ATTACK LIFESTEAL);
      destruct (if negb _ then has_ability _ ON_DEATH VEIL_ECHO else None);
      cbn [cb_events]; eexists; repeat split.
  - destruct (has_ability _ ON_ATTACK LIFESTEAL);
      destruct (if negb _ then has_ability _ ON_DEATH VEIL_ECHO else None);
      cbn [cb_board]; rewrite !get_update by auto using set_hp_cell;
      rewrite (get_of_member _ _ Hwf Hin); cbn [option_map];
      rewrite Hself, at_cell_set_hp, Hother; eexists; split; reflexivity.
Qed.

End AttackTurn.

Section DamageClaim.

(** C8 at work on a defender whose ARMOR is not a passive.  Ashling (attack
    5) hits a Revenant (multiplier 0.75) whose ARMOR 2 is an on-death
    ability: the formula of the claim gives floor(3.75) = 3, nothing taken
    off, and the resolver records and subtracts 1.  The test on the defender
    looks at the effect of the ability alone, where the tests for LIFESTEAL
    and VEIL_ECHO look at trigger and effect. *)
Theorem armor_shields_whatever_its_trigger :
  let s := duel Cards.ashling warded_husk in
  let r := snd (phase_resolve Cards.exact_heal s) in
  let s' := fst (phase_resolve Cards.exact_heal s) in
  has_ability warded_husk PASSIVE ARMOR = None
  /\ (exists ev,
         nth_error (events r) 0 = Some ev
         /\ attacker_name ev = "Ashling"%string
         /\ defender_name ev = "Warded Husk"%string
         /\ raw_attack ev = 5 /\ type_multiplier ev = 3 # 4
         /\ spec_damage (raw_attack ev) (type_multiplier ev) warded_husk = 3
         /\ damage_dealt ev = 1)
  /\ (exists husk,
         Board.get (board s) 0 FRONT TWO = Some husk
         /\ current_hp husk = 12)
  /\ (exists husk,
         Board.get (board s') 0 FRONT TWO = Some husk
         /\ current_hp husk = 11).
Proof.
  cbv zeta. split; [reflexivity|]. split; [|split].
  - eexists. split; [reflexivity|]. repeat split.
  - eexists. split; reflexivity.
  - eexists. split; reflexivity.
Qed.

(** [int()] truncates toward zero and nothing clamps the result: a card of
    attack -4 at multiplier 0.75 deals -3, and the defender gains 3 HP. *)
Example negative_attack_deals_negative_damage :
  exists ev,
    In ev (events (snd (phase_resolve Cards.exact_heal
                                      (duel hexed_wisp Cards.duskwarden))))
    /\ raw_attack ev = -4 /\ damage_dealt ev = -3.
Proof. eexists. split; [left; reflexivity|]. split; reflexivity. Qed.

End DamageClaim.

(* ------------------------------------------------------------------ *)
(** ** The round moves no card: bonuses and hits are written in place *)
(* ------------------------------------------------------------------ *)

Section Shape.

Lemma shape_cells (b : Board.t) : map fst (shape b) = map cell_of b.
Proof. unfold shape. rewrite map_map. reflexivity. Qed.

Lemma shape_instances (b : Board.t) : map snd (shape b) = map instance b.
Proof. unfold shape. rewrite map_map. reflexivity. Qed.

Lemma update_shape (f : BoardCard -> BoardCard) (b : Board.t) (k : Cell) :
  keeps_place f -> shape (Board.update b k f) = shape b.
Proof.
  intros Hf. unfold shape, Board.update. rewrite map_map. apply map_ext.
  intros c. destruct (at_cell k c); [|reflexivity].
  destruct (Hf c) as [-> ->]. reflexivity.
Qed.

Lemma set_hp_keeps (x : Z) : keeps_place (fun c => set_hp c x).
Proof. intros c. split; reflexivity. Qed.

Lemma add_bonus_keeps (n : Z) : keeps_place (fun c => add_bonus c n).
Proof. intros c. split; reflexivity. Qed.

Lemma bump_shape (n : Z) (b : Board.t) (card : BoardCard) :
  shape (bump n b card) = shape b.
Proof. apply update_shape, add_bonus_keeps. Qed.

(** A loop whose every turn keeps the shape keeps the shape. *)
Lemma fold_shape {A} (g : Board.t -> A -> Board.t) (l : list A) :
  (forall b x, shape (g b x) = shape b) ->
  forall b, shape (fold_left g l b) = shape b.
Proof.
  intros Hg. induction l as [|x l IH]; intros b; [reflexivity|].
  cbn. now rewrite IH, Hg.
Qed.

Lemma flanking_shape (b : Board.t) : shape (fst (_apply_flanking b)) = shape b.
Proof.
  unfold _apply_flanking. cbn [fold_left].
  assert (H : forall acc pl, shape (fst (flank_one acc pl)) = shape (fst acc)).
  { intros acc pl. unfold flank_one.
    destruct (_ && _); [|reflexivity]. cbn [fst].
    apply fold_shape. intros; apply bump_shape. }
  now rewrite !H.
Qed.

Lemma column_pressure_shape (h : Heap) (b : Board.t) :
  shape (_apply_column_pressure h b) = shape b.
Proof.
  unfold _apply_column_pressure. apply fold_shape. intros b' pl.
  unfold pressure_one. apply fold_shape. intros b'' card.
  unfold pressure_card. destruct (Board.get b'' _ _ _); [|reflexivity].
  destruct (Qeq_bool _ _); [apply bump_shape | reflexivity].
Qed.

Lemma prepare_shape (h : Heap) (b : Board.t) (veil : bool) :
  shape (fst (prepare h b veil)) = shape b.
Proof.
  unfold prepare. cbn [fst]. destruct veil.
  - rewrite fold_shape by (intros; apply bump_shape).
    now rewrite column_pressure_shape, flanking_shape.
  - now rewrite column_pressure_shape, flanking_shape.
Qed.

Variable heal : Z -> Q -> Z.

Lemma attack_turn_shape (h : Heap) (st : Combat) (ref : BoardCard) :
  shape (cb_board (attack_turn heal h st ref)) = shape (cb_board st).
Proof.
  unfold attack_turn.
  destruct (Board.get (cb_board st) (col ref) (row ref) (owner ref))
    as [attacker|]; [|reflexivity].
  destruct (negb (is_alive attacker)); [reflexivity|].
  destruct (_find_target attacker (cb_board st)) as [target|]; [|reflexivity].
  destruct (has_ability _ ON_ATTACK LIFESTEAL);
    destruct (if negb _ then has_ability _ ON_DEATH VEIL_ECHO else None);
    cbn [cb_board]; rewrite !update_shape; auto using set_hp_keeps.
Qed.

(** Every card the attack loop declares dead stands on the board. *)
Lemma attack_turn_dead (h : Heap) (st : Combat) (ref : BoardCard) (S : list (Cell * Loc)) :
  shape (cb_board st) = S ->
  (forall d, In d (cb_dead_cards st) -> In (cell_of d, instance d) S) ->
  forall d, In d (cb_dead_cards (attack_turn heal h st ref)) ->
            In (cell_of d, instance d) S.
Proof.
  intros HS Hdead d. unfold attack_turn.
  destruct (Board.get (cb_board st) (col ref) (row ref) (owner ref))
    as [attacker|]; [|apply Hdead].
  destruct (negb (is_alive attacker)); [apply Hdead|].
  destruct (_find_target attacker (cb_board st)) as [target|] eqn:Ht;
    [|apply Hdead].
  apply find_target_sound in Ht. destruct Ht as (Hin & _).
  assert (Htarget : In (cell_of target, instance target) S).
  { rewrite <- HS. unfold shape.
    now apply (in_map (fun c => (cell_of c, instance c))). }
  destruct (has_ability _ ON_ATTACK LIFESTEAL);
    destruct (negb _); try destruct (has_ability _ ON_DEATH VEIL_ECHO);
    cbn [cb_dead_cards]; try apply Hdead;
    intros Hd; apply in_app_or in Hd; destruct Hd as [Hd | [<- | []]]; auto.
Qed.

Lemma fight_invariant (h : Heap) (refs : list BoardCard) :
  forall st S,
    shape (cb_board st) = S ->
    (forall d, In d (cb_dead_cards st) -> In (cell_of d, instance d) S) ->
    let st' := fold_left (attack_turn heal h) refs st in
    shape (cb_board st') = S
    /\ (forall d, In d (cb_dead_cards st') -> In (cell_of d, instance d) S).
Proof.
  induction refs as [|ref refs IH]; intros st S HS Hdead; [now split|].
  cbn [fold_left]. apply IH.
  - now rewrite attack_turn_shape.
  - now apply attack_turn_dead.
Qed.

Lemma fight_shape (h : Heap) (b : Board.t) :
  shape (cb_board (fight heal h b)) = shape b
  /\ (forall d, In d (cb_dead_cards (fight heal h b)) ->
                In (cell_of d, instance d) (shape b)).
Proof.
  unfold fight. apply fight_invariant; [reflexivity | intros d []].
Qed.

(** The attack loop of the round played from [s]: the board keeps its shape,
    and the dead are cards of the board. *)
Lemma round_shape (s : GameState) :
  let st := fight heal (heap s)
                  (fst (prepare (heap s) (board s)
                                (current_round s =? ROUNDS_PER_MATCH))) in
  shape (cb_board st) = shape (board s)
  /\ (forall d, In d (round_dead heal s) ->
                In (cell_of d, instance d) (shape (board s))).
Proof.
  cbn zeta. unfold round_dead.
  destruct (fight_shape (heap s)
              (fst (prepare (heap s) (board s)
                            (current_round s =? ROUNDS_PER_MATCH)))) as [H1 H2].
  rewrite prepare_shape in H1, H2. now split.
Qed.

(** A round that starts on a well-formed board plays every turn on one. *)
Lemma attack_turn_wf (h : Heap) (st : Combat) (ref : BoardCard) :
  board_wf (cb_board st) -> board_wf (cb_board (attack_turn heal h st ref)).
Proof.
  unfold board_wf. now rewrite <- !shape_cells, attack_turn_shape.
Qed.

Lemma prepare_wf (h : Heap) (b : Board.t) (veil : bool) :
  board_wf b -> board_wf (fst (prepare h b veil)).
Proof.
  unfold board_wf. now rewrite <- !shape_cells, prepare_shape.
Qed.

End Shape.

(* ------------------------------------------------------------------ *)
(** ** Card objects across the calls of a match *)
(* ------------------------------------------------------------------ *)

Section Reach.

Lemma reshuffled_refl (s : GameState) : reshuffled s s.
Proof. unfold reshuffled. auto using Permutation_refl. Qed.

Lemma reshuffled_trans (s s' s'' : GameState) :
  reshuffled s s' -> reshuffled s' s'' -> reshuffled s s''.
Proof.
  intros (H1 & H2 & H3 & H4 & H5) (K1 & K2 & K3 & K4 & K5).
  unfold reshuffled. repeat split; try congruence; auto.
  eapply Permutation_trans; eassumption.
Qed.

Lemma reshuffled_confined (s s' : GameState) : reshuffled s s' -> confined s s'.
Proof.
  intros (Hh & Hp & H1 & H2 & Hv). unfold confined, state_wf.
  split; [|split; [|split]].
  - intros (P1 & P2 & Hnd). split; [congruence|]. split; [congruence|].
    eapply Permutation_NoDup; [|exact Hnd]. now apply Permutation_sym.
  - intros l Hin. eapply Permutation_in; eassumption.
  - intros l _. now rewrite Hh.
  - exact Hv.
Qed.

Lemma confined_refl (s : GameState) : confined s s.
Proof. apply reshuffled_confined, reshuffled_refl. Qed.

Lemma confined_trans (s s' s'' : GameState) :
  confined s s' -> confined s' s'' -> confined s s''.
Proof.
  intros (H1 & H2 & H3 & H4) (K1 & K2 & K3 & K4). unfold confined.
  split; [|split; [|split]]; auto.
  intros l Hl. rewrite K3, H3; auto.
Qed.

(** *** Draw, Mana, Reveal *)

Lemma draw_for_cards (ps : PlayerState) (n : Z) :
  hand (draw_for ps n) ++ deck (draw_for ps n) = hand ps ++ deck ps.
Proof.
  unfold draw_for. cbn [hand deck with_cards].
  now rewrite <- app_assoc, slices_partition.
Qed.

Lemma locs_assoc (s : GameState) :
  locs s = (hand (player1 s) ++ deck (player1 s))
           ++ (hand (player2 s) ++ deck (player2 s))
           ++ map instance (Board.all_cards (board s)).
Proof. unfold locs. now rewrite <- !app_assoc. Qed.

Lemma phase_draw_reshuffled (s : GameState) (n : Z) :
  reshuffled s (phase_draw s n).
Proof.
  unfold reshuffled. repeat split; try reflexivity.
  - rewrite !locs_assoc. cbn [phase_draw with_phase with_players player1 player2 board].
    now rewrite !draw_for_cards.
  - intros q. destruct q; cbn; auto.
Qed.

Lemma phase_mana_reshuffled (s : GameState) : reshuffled s (phase_mana s).
Proof.
  unfold reshuffled. repeat split; try reflexivity.
  intros q. destruct q; cbn; auto.
Qed.

Lemma phase_reveal_reshuffled (s : GameState) : reshuffled s (phase_reveal s).
Proof.
  unfold reshuffled. repeat split; try reflexivity.
  - unfold locs. cbn [phase_reveal with_phase with_board player1 player2 board].
    unfold Board.all_cards. rewrite map_map. cbn [instance set_face_down].
    apply Permutation_refl.
  - intros q. destruct q; cbn; auto.
Qed.

(** *** Placement *)

Lemma list_remove_perm (l : Loc) (hd : list Loc) :
  In l hd -> Permutation (l :: list_remove l hd) hd.
Proof.
  induction hd as [|y hd IH]; [contradiction|].
  cbn [list_remove]. destruct (Nat.eqb y l) eqn:E.
  - apply Nat.eqb_eq in E. subst y. intros _. apply Permutation_refl.
  - intros [-> | Hin]; [rewrite Nat.eqb_refl in E; discriminate|].
    eapply Permutation_trans; [apply perm_swap|]. now apply perm_skip, IH.
Qed.

Lemma move_to_end (l : Loc) (hd X : list Loc) :
  In l hd -> Permutation (list_remove l hd ++ X ++ [l]) (hd ++ X).
Proof.
  intros Hin. rewrite app_assoc.
  eapply Permutation_trans; [apply Permutation_sym, Permutation_cons_append|].
  rewrite app_comm_cons. now apply Permutation_app_tail, list_remove_perm.
Qed.

(** One turn of the loop of [apply_placement]: the card goes from the hand
    to the board. *)
Lemma place_one_reshuffled (s : GameState) (pl : Player) (l : Loc)
      (card : BoardCard) (b' : Board.t) :
  In l (hand (get_player_state s pl)) ->
  instance card = l ->
  Board.place (board s) card = Some b' ->
  reshuffled s (take_from_hand (with_board s b') pl l).
Proof.
  intros Hin Hcard Hplace. unfold Board.place in Hplace.
  destruct (Board.get _ _ _ _); [discriminate|]. injection Hplace as <-.
  unfold reshuffled, take_from_hand.
  rewrite heap_set_player_state, get_player_state_with_board.
  repeat split.
  - destruct pl; cbn in Hin |- *; unfold locs;
      cbn [player1 player2 board hand deck with_cards with_players with_board];
      unfold Board.all_cards; rewrite map_app; cbn [map]; rewrite Hcard.
    + replace (deck (player1 s) ++ hand (player2 s) ++ deck (player2 s)
               ++ map instance (board s) ++ [l])
        with ((deck (player1 s) ++ hand (player2 s) ++ deck (player2 s)
               ++ map instance (board s)) ++ [l])
        by now rewrite <- !app_assoc.
      now apply move_to_end.
    + apply Permutation_app_head, Permutation_app_head.
      replace (deck (player2 s) ++ map instance (board s) ++ [l])
        with ((deck (player2 s) ++ map instance (board s)) ++ [l])
        by now rewrite <- !app_assoc.
      now apply move_to_end.
  - destruct pl; reflexivity.
  - destruct pl; reflexivity.
  - intros q. destruct pl, q; cbn; auto.
Qed.

Lemma apply_loop_reshuffled (pl : Player) (batch : list Placement) :
  forall (s : GameState) (t : Z),
    reshuffled s (state_after fst (apply_loop s pl batch t)).
Proof.
  induction batch as [|p rest IH]; intros s t; [apply reshuffled_refl|].
  cbn [apply_loop].
  destruct (find_in_hand _ _ _) as [l|] eqn:Hfind; [|apply reshuffled_refl].
  destruct (Board.place _ _) as [b'|] eqn:Hplace; [|apply reshuffled_refl].
  eapply reshuffled_trans; [|apply IH].
  apply find_in_hand_id in Hfind. destruct Hfind as [Hin _].
  eapply place_one_reshuffled; [exact Hin | | exact Hplace]. reflexivity.
Qed.

Lemma pay_mana_reshuffled (s : GameState) (pl : Player) (t : Z) :
  reshuffled s (set_player_state s pl (pay_mana (get_player_state s pl) t)).
Proof.
  unfold reshuffled, pay_mana.
  destruct (mana (get_player_state s pl) <? t);
    rewrite heap_set_player_state;
    (split; [reflexivity|]); (split; [destruct pl; apply Permutation_refl|]);
    (split; [destruct pl; reflexivity|]);
    (split; [destruct pl; reflexivity|]);
    intros q; destruct pl, q; cbn; auto.
Qed.

Lemma apply_placement_reshuffled (s : GameState) (pl : Player)
      (batch : list Placement) :
  reshuffled s (state_after (fun s' => s') (apply_placement s pl batch)).
Proof.
  unfold apply_placement.
  pose proof (apply_loop_reshuffled pl batch s 0) as H.
  destruct (apply_loop s pl batch 0) as [[s' t]|e s']; cbn in H |- *;
    [|exact H].
  eapply reshuffled_trans; [exact H | apply pay_mana_reshuffled].
Qed.

End Reach.

Section ReachRound.

Variable heal : Z -> Q -> Z.

(** *** Resolve *)

Lemma remove_In (b : Board.t) c r o (x : BoardCard) :
  In x (Board.remove b c r o) <-> In x b /\ cell_of x <> (c, r, o).
Proof.
  unfold Board.remove. rewrite filter_In, negb_true_iff.
  unfold at_cell. now rewrite Cell_eqb_neq.
Qed.

Lemma bury_In (dead : list BoardCard) :
  forall (b : Board.t) (x : BoardCard),
    In x (bury b dead) <->
    In x b /\ forall d, In d dead -> cell_of x <> cell_of d.
Proof.
  unfold bury. induction dead as [|d dead IH]; intros b x; cbn [fold_left].
  - split; [intros H; split; [exact H | intros d []] | tauto].
  - rewrite IH, remove_In. split.
    + intros [[Hin Hd] Hrest]. split; [exact Hin|].
      intros d' [<- | Hd']; [exact Hd | now apply Hrest].
    + intros [Hin Hall].
      split; [split; [exact Hin | apply Hall; now left]|].
      intros d' Hd'. apply Hall. now right.
Qed.

Lemma filter_filter {A} (P Q : A -> bool) (l : list A) :
  filter P (filter Q l) = filter (fun x => Q x && P x) l.
Proof.
  induction l as [|x l IH]; [reflexivity|]. cbn [filter].
  destruct (Q x); cbn [filter andb]; [|exact IH].
  destruct (P x); now rewrite IH.
Qed.

Lemma bury_filter (dead : list BoardCard) :
  forall b : Board.t,
    bury b dead
    = filter (fun x => forallb (fun d => negb (at_cell (cell_of d) x)) dead) b.
Proof.
  unfold bury. induction dead as [|d dead IH]; intros b; cbn [fold_left forallb].
  - induction b as [|x b IHb]; [reflexivity|]. cbn. now rewrite <- IHb.
  - rewrite IH. unfold Board.remove. rewrite filter_filter. reflexivity.
Qed.

Lemma filter_instances_incl (P : BoardCard -> bool) (b : Board.t) (l : Loc) :
  In l (map instance (filter P b)) -> In l (map instance b).
Proof.
  rewrite !in_map_iff. intros (x & Hx & Hin). apply filter_In in Hin.
  exists x. tauto.
Qed.

Lemma NoDup_filter_instances (P : BoardCard -> bool) (A : list Loc) (b : Board.t) :
  NoDup (A ++ map instance b) -> NoDup (A ++ map instance (filter P b)).
Proof.
  induction A as [|a A IH]; cbn [app].
  - induction b as [|x b IHb]; [auto|]. cbn [map filter].
    intros Hnd. inversion Hnd as [|? ? Hnotin Hnd']; subst.
    destruct (P x); [|auto]. cbn [map]. constructor; [|auto].
    intros Hin. apply Hnotin. now apply filter_instances_incl in Hin.
  - intros Hnd. inversion Hnd as [|? ? Hnotin Hnd']; subst.
    constructor; [|auto]. intros Hin. apply Hnotin.
    apply in_app_or in Hin. apply in_or_app.
    destruct Hin as [Hin | Hin]; [now left | right].
    now apply filter_instances_incl in Hin.
Qed.

Lemma locs_held (s : GameState) :
  locs s = (hand (player1 s) ++ deck (player1 s) ++ hand (player2 s)
            ++ deck (player2 s))
           ++ map instance (board s).
Proof. unfold locs, Board.all_cards. now rewrite <- !app_assoc. Qed.

(** Resolve writes scores and the board only. *)
Lemma resolve_players_cards (s : GameState) (p : Player) :
  let ps' := get_player_state (fst (phase_resolve heal s)) p in
  let ps := get_player_state s p in
  hand ps' = hand ps /\ deck ps' = deck ps /\ player ps' = player ps
  /\ veil_surge_used ps' = veil_surge_used ps /\ mana ps' = mana ps.
Proof.
  cbn zeta. rewrite resolve_player. cbn zeta.
  destruct (fst (score_round _)) as [w|]; [|auto].
  destruct (Player_eqb w p); auto.
Qed.

Lemma resolve_locs (s : GameState) :
  locs (fst (phase_resolve heal s))
  = (hand (player1 s) ++ deck (player1 s) ++ hand (player2 s)
     ++ deck (player2 s))
    ++ map instance (resolved_board heal s).
Proof.
  rewrite locs_held, resolve_board.
  destruct (resolve_players_cards s ONE) as (H1 & D1 & _).
  destruct (resolve_players_cards s TWO) as (H2 & D2 & _).
  cbn [get_player_state Player_eqb] in H1, D1, H2, D2.
  now rewrite H1, D1, H2, D2.
Qed.

Lemma shape_same_instances (b b' : Board.t) :
  shape b = shape b' -> map instance b = map instance b'.
Proof. intros H. now rewrite <- !shape_instances, H. Qed.

Lemma resolve_confined (s : GameState) :
  confined s (fst (phase_resolve heal s)).
Proof.
  destruct (round_shape heal s) as [Hshape _]. cbn zeta in Hshape.
  apply shape_same_instances in Hshape.
  assert (Hsub : forall l, In l (map instance (resolved_board heal s)) ->
                           In l (map instance (board s))).
  { intros l. unfold resolved_board. rewrite bury_filter.
    intros Hin. apply filter_instances_incl in Hin. now rewrite <- Hshape. }
  unfold confined. split; [|split; [|split]].
  - intros (P1 & P2 & Hnd). unfold state_wf.
    destruct (resolve_players_cards s ONE) as (_ & _ & Q1 & _).
    destruct (resolve_players_cards s TWO) as (_ & _ & Q2 & _).
    cbn [get_player_state Player_eqb] in Q1, Q2.
    split; [congruence|]. split; [congruence|].
    rewrite resolve_locs. unfold resolved_board. rewrite bury_filter.
    apply NoDup_filter_instances. rewrite Hshape, <- locs_held. exact Hnd.
  - intros l. rewrite resolve_locs, locs_held, !in_app_iff.
    intros [H | H]; [now left | right; now apply Hsub].
  - intros l _. now rewrite resolve_heap.
  - intros q. destruct (resolve_players_cards s q) as (_ & _ & _ & -> & _).
    auto.
Qed.

End ReachRound.

Section ReachCleanup.

(** *** Cleanup *)

Lemma heap_set_other (h : Heap) (x l : Loc) (c : CardInstance) :
  l <> x -> heap_set h x c l = h l.
Proof.
  intros H. unfold heap_set. destruct (Nat.eqb l x) eqn:E; [|reflexivity].
  apply Nat.eqb_eq in E. contradiction.
Qed.

(** A loop whose turns write inside [W] leaves the objects outside [W] as
    they were. *)
Lemma fold_writes {A} (g : Heap -> A -> Heap) (L : list A) (l : Loc) :
  (forall h a, In a L -> g h a l = h l) ->
  forall h, fold_left g L h l = h l.
Proof.
  induction L as [|a L IH]; intros Hg h; [reflexivity|].
  cbn [fold_left]. rewrite IH.
  - apply Hg. now left.
  - intros h' a' Hin. apply Hg. now right.
Qed.

Lemma cleanup_heap_outside (s : GameState) (r : RoundResult) (l : Loc) :
  ~ In l (locs s) -> cleanup_heap s r l = heap s l.
Proof.
  intros Hout. unfold locs, Board.all_cards in Hout.
  rewrite !in_app_iff in Hout.
  assert (Hpool : forall q x, In x (deck (get_player_state s q)
                                    ++ hand (get_player_state s q)) -> l <> x).
  { intros q x Hx E. subst x. apply in_app_or in Hx.
    destruct q; cbn in Hx; tauto. }
  unfold cleanup_heap.
  set (evs := events r).
  assert (H1 : fold_left (reward_survivor evs
                 (map (fun c => name_at (heap s) (instance c))
                      (Board.all_cards (board s))))
                 (Board.all_cards (board s)) (heap s) l = heap s l).
  { apply fold_writes. intros h c Hin. unfold reward_survivor, heap_add_xp.
    apply heap_set_other. intros E. apply Hout.
    do 4 right. rewrite E. now apply in_map. }
  assert (H2 : forall h0, fold_left (reward_destroyed evs
                 ((deck (player1 s) ++ hand (player1 s))
                  ++ deck (player2 s) ++ hand (player2 s))) evs h0 l = h0 l).
  { intros h0. apply fold_writes. intros h e _. unfold reward_destroyed.
    destruct (defender_destroyed e); [|reflexivity].
    apply fold_writes. intros h' x Hin. unfold reward_named, heap_add_xp.
    destruct (String.eqb _ _); [|reflexivity].
    apply heap_set_other. apply in_app_or in Hin.
    destruct Hin as [Hin | Hin]; [apply (Hpool ONE) | apply (Hpool TWO)];
      exact Hin. }
  assert (H3 : forall q names h0,
             fold_left (track_loss names)
                       (deck (get_player_state s q) ++ hand (get_player_state s q))
                       h0 l = h0 l).
  { intros q names h0. apply fold_writes. intros h x Hin.
    unfold track_loss. destruct (name_in _ _); apply heap_set_other;
      now apply (Hpool q). }
  destruct (round_winner r); rewrite ?H3, H2, H1; reflexivity.
Qed.

Lemma owners_partition (b : Board.t) :
  Permutation (map instance (Board.cards_for b ONE)
               ++ map instance (Board.cards_for b TWO))
              (map instance b).
Proof.
  unfold Board.cards_for. induction b as [|x b IH]; [constructor|].
  cbn [filter map]. destruct (owner x); cbn [Player_eqb map app].
  - now apply perm_skip.
  - eapply Permutation_trans; [apply Permutation_sym, Permutation_middle|].
    now apply perm_skip.
Qed.

Lemma returned_cards_perm (h1 i1 d1 h2 i2 d2 b : list Loc) :
  Permutation (i1 ++ i2) b ->
  Permutation ((h1 ++ i1) ++ d1 ++ (h2 ++ i2) ++ d2 ++ [])
              (h1 ++ d1 ++ h2 ++ d2 ++ b).
Proof.
  intros Hb. rewrite app_nil_r, <- !app_assoc. apply Permutation_app_head.
  eapply Permutation_trans; [apply Permutation_app_comm|].
  rewrite <- !app_assoc. do 2 apply Permutation_app_head.
  eapply Permutation_trans; [apply Permutation_app_comm|].
  rewrite <- app_assoc. now apply Permutation_app_head.
Qed.

Lemma clear_debt_cards (ps : PlayerState) :
  hand (clear_debt ps) = hand ps /\ deck (clear_debt ps) = deck ps
  /\ player (clear_debt ps) = player ps
  /\ veil_surge_used (clear_debt ps) = veil_surge_used ps.
Proof. unfold clear_debt. destruct (mana ps <? 0); auto. Qed.

Lemma phase_cleanup_confined (s : GameState) :
  confined s (state_after (fun s' => s') (phase_cleanup s)).
Proof.
  unfold phase_cleanup.
  destruct (last_result (round_history s)) as [r|]; [|apply confined_refl].
  cbn [state_after].
  destruct (clear_debt_cards (return_cards (board s) (player1 s)))
    as (Hh1 & Hd1 & Hp1 & Hv1).
  destruct (clear_debt_cards (return_cards (board s) (player2 s)))
    as (Hh2 & Hd2 & Hp2 & Hv2).
  cbn [return_cards hand deck player veil_surge_used with_cards]
    in Hh1, Hd1, Hp1, Hv1, Hh2, Hd2, Hp2, Hv2.
  unfold confined. split; [|split; [|split]].
  - intros (P1 & P2 & Hnd). unfold state_wf. cbn [player1 player2].
    split; [congruence|]. split; [congruence|].
    unfold locs. cbn [player1 player2 board]. rewrite Hh1, Hd1, Hh2, Hd2.
    rewrite P1, P2. unfold Board.empty, Board.all_cards. cbn [map].
    eapply Permutation_NoDup; [|exact Hnd]. apply Permutation_sym.
    apply returned_cards_perm, owners_partition.
  - intros l. unfold locs. cbn [player1 player2 board].
    rewrite Hh1, Hd1, Hh2, Hd2. unfold Board.empty, Board.all_cards.
    cbn [map]. rewrite !in_app_iff.
    assert (Hb : forall o, In l (map instance (Board.cards_for (board s) o)) ->
                           In l (map instance (board s)))
      by (intros o; apply filter_instances_incl).
    intros [[H | H] | [H | [[H | H] | [H | []]]]]; eauto 10.
  - intros l Hout. cbn [heap]. now apply cleanup_heap_outside.
  - intros q. destruct q; cbn [get_player_state Player_eqb player1 player2];
      [rewrite Hv1 | rewrite Hv2]; auto.
Qed.

(** *** Every call *)

Variable heal : Z -> Q -> Z.

Lemma step_confined (s s' : GameState) : step heal s s' -> confined s s'.
Proof.
  intros H. destruct H.
  - apply reshuffled_confined, phase_draw_reshuffled.
  - apply reshuffled_confined, phase_mana_reshuffled.
  - apply reshuffled_confined, apply_placement_reshuffled.
  - apply reshuffled_confined, phase_reveal_reshuffled.
  - apply resolve_confined.
  - apply phase_cleanup_confined.
Qed.

Lemma steps_confined (s s' : GameState) : steps heal s s' -> confined s s'.
Proof.
  induction 1 as [s | s s' s'' Hstep _ IH]; [apply confined_refl|].
  eapply confined_trans; [apply step_confined; exact Hstep | exact IH].
Qed.

End ReachCleanup.

(* ------------------------------------------------------------------ *)
(** ** Destroyed cards *)
(* ------------------------------------------------------------------ *)

Section Destroyed.

Variable heal : Z -> Q -> Z.

Lemma NoDup_app_disjoint {A} (l1 l2 : list A) (x : A) :
  NoDup (l1 ++ l2) -> In x l2 -> ~ In x l1.
Proof.
  intros Hnd Hin Hin1. apply in_split in Hin. destruct Hin as (a & b & ->).
  rewrite app_assoc in Hnd. apply NoDup_remove_2 in Hnd.
  apply Hnd. apply in_or_app. left. apply in_or_app. now left.
Qed.

(** When no card object stands twice on the board, the object tells the
    cell. *)
Lemma NoDup_snd_inj {A B} (L : list (A * B)) (a a' : A) (i : B) :
  NoDup (map snd L) -> In (a, i) L -> In (a', i) L -> a = a'.
Proof.
  induction L as [|[x j] L IH]; [contradiction|]. cbn [map snd].
  intros Hnd H1 H2. inversion Hnd as [|? ? Hnotin Hnd']; subst.
  destruct H1 as [E1 | H1]; destruct H2 as [E2 | H2].
  - congruence.
  - injection E1 as _ Ej. subst j. elim Hnotin.
    apply (in_map snd) in H2. exact H2.
  - injection E2 as _ Ej. subst j. elim Hnotin.
    apply (in_map snd) in H1. exact H1.
  - now apply IH.
Qed.

(** The cards destroyed in a round are off the board of the state Resolve
    returns, and were in no hand and no deck. *)
Lemma dead_out_of_reach (s : GameState) (d : BoardCard) :
  state_wf s ->
  In d (round_dead heal s) ->
  In (instance d) (map instance (board s))
  /\ ~ In (instance d) (hand (player1 s) ++ deck (player1 s)
                        ++ hand (player2 s) ++ deck (player2 s))
  /\ ~ In (instance d) (locs (fst (phase_resolve heal s))).
Proof.
  intros (_ & _ & Hnd) Hdead. rewrite locs_held in Hnd.
  destruct (round_shape heal s) as [Hshape Hdeads]. cbn zeta in Hshape.
  specialize (Hdeads d Hdead).
  assert (Hon : In (instance d) (map instance (board s))).
  { rewrite <- shape_instances. apply (in_map snd) in Hdeads. exact Hdeads. }
  assert (Hheld : ~ In (instance d) (hand (player1 s) ++ deck (player1 s)
                                     ++ hand (player2 s) ++ deck (player2 s)))
    by (eapply NoDup_app_disjoint; eassumption).
  split; [exact Hon|]. split; [exact Hheld|].
  rewrite resolve_locs. intros Hin. apply in_app_or in Hin.
  destruct Hin as [Hin | Hin]; [contradiction|].
  apply in_map_iff in Hin. destruct Hin as (x & Hx & Hin).
  unfold resolved_board in Hin. apply bury_In in Hin.
  destruct Hin as [Hin Hcells].
  apply (Hcells d Hdead).
  apply (NoDup_snd_inj (shape (board s)) _ _ (instance d)).
  - rewrite shape_instances. eapply NoDup_app_remove_l. exact Hnd.
  - rewrite <- Hshape, <- Hx. unfold shape.
    now apply (in_map (fun c => (cell_of c, instance c))).
  - exact Hdeads.
Qed.

(** In a match set up with every card object held once, a card listed in the
    [dead_cards] of a round (a defender brought to 0 HP or less by an attack)
    stood on the board and in no hand or deck (placement took it from the
    hand), is off the board when Resolve returns, is in no hand and no deck
    after Cleanup, and stays out of reach through every later call: it is
    never drawn or placed again, and its XP, level, loss count and dormancy
    are never written again. *)
Theorem destroyed_card_leaves_the_match (s0 s : GameState) (d : BoardCard) :
  state_wf s0 ->
  steps heal s0 s ->
  In d (round_dead heal s) ->
  let s' := fst (phase_resolve heal s) in
  let l := instance d in
  In l (map instance (board s))
  /\ ~ In l (hand (player1 s) ++ deck (player1 s)
             ++ hand (player2 s) ++ deck (player2 s))
  /\ ~ In l (map instance (board s'))
  /\ (forall s'', phase_cleanup s' = Ok s'' ->
        ~ In l (hand (player1 s'')) /\ ~ In l (deck (player1 s''))
        /\ ~ In l (hand (player2 s'')) /\ ~ In l (deck (player2 s'')))
  /\ (forall s'', steps heal s' s'' ->
        ~ In l (locs s'') /\ heap s'' l = heap s l).
Proof.
  intros Hwf0 Hsteps Hdead. cbn zeta.
  assert (Hwf : state_wf s) by (now apply (steps_confined heal s0 s)).
  destruct (dead_out_of_reach s d Hwf Hdead) as (Hon & Hheld & Hout).
  assert (Hlater : forall s'', steps heal (fst (phase_resolve heal s)) s'' ->
            ~ In (instance d) (locs s'')
            /\ heap s'' (instance d) = heap s (instance d)).
  { intros s'' Hs. apply steps_confined in Hs.
    destruct Hs as (_ & Hsub & Hheap & _). split.
    - intros Hin. apply Hout. now apply Hsub.
    - rewrite Hheap by exact Hout. now rewrite resolve_heap. }
  split; [exact Hon|]. split; [exact Hheld|]. split; [|split].
  - intros Hin. apply Hout. rewrite locs_held. apply in_or_app. now right.
  - intros s'' Hclean.
    destruct (Hlater s'') as [Hnot _].
    { eapply steps_step; [apply step_cleanup | rewrite Hclean; apply steps_refl]. }
    unfold locs in Hnot. rewrite !in_app_iff in Hnot. tauto.
  - exact Hlater.
Qed.

End Destroyed.

Section DestroyedXP.
Local Open Scope string_scope.

(** C3 on a round played through the engine.  Ashling strikes first for 3
    and is destroyed by Duskwarden's answer; Cleanup looks for the destroyed
    card by name in the decks and hands, where it no longer is, and the card
    ends the round with the XP it had: 0, not 3 // 2 = 1. *)
Theorem destroyed_card_earns_no_xp :
  phase_cleanup skirmish_resolved = Ok skirmish_cleaned
  /\ map (fun e => (attacker_name e, damage_dealt e, defender_destroyed e))
         (events (snd (phase_resolve Cards.exact_heal skirmish_revealed)))
     = [("Ashling", 3, false); ("Duskwarden", 10, true)]
  /\ map instance (round_dead Cards.exact_heal skirmish_revealed) = [0%nat]
  /\ name_at (heap skirmish_revealed) 0%nat = "Ashling"
  /\ xp (heap skirmish_revealed 0%nat) = 0
  /\ xp (heap skirmish_cleaned 0%nat) = 0
  /\ hand (player1 skirmish_cleaned) = []
  /\ deck (player1 skirmish_cleaned) = []
  /\ xp (heap skirmish_cleaned 1%nat) = 20.
Proof. repeat split. Qed.

End DestroyedXP.

(* ------------------------------------------------------------------ *)
(** ** Veil Surge *)
(* ------------------------------------------------------------------ *)

Section VeilSurge.

Variable heal : Z -> Q -> Z.

Lemma mana_check_overdraft (ps : PlayerState) (total : Z) :
  mana ps < total ->
  mana_check ps total
  = if veil_surge_used ps || (VEIL_SURGE_MAX <? total - mana ps)
    then (false, Some (InsufficientMana total (mana ps)))
    else (true, None).
Proof.
  intros H. unfold mana_check.
  destruct (Z.ltb_spec (mana ps) total); [reflexivity | lia].
Qed.

(** A batch within the mana is accepted as far as mana goes. *)
Lemma mana_check_within (ps : PlayerState) (total : Z) :
  total <= mana ps -> mana_check ps total = (true, None).
Proof.
  intros H. unfold mana_check.
  destruct (Z.ltb_spec (mana ps) total); [lia | reflexivity].
Qed.

(** C5: a batch that passes the per-card checks and costs more than the
    player's mana is rejected if and only if the player's Veil Surge is used
    or the overdraft (total cost minus mana) exceeds 3.  When such a batch is
    accepted and applied (each card named once), the mana becomes the negated
    overdraft and [veil_surge_used] is set; from then on, through every later
    call of the match, every batch that costs more than the player's mana is
    rejected. *)
Theorem veil_surge_once (s : GameState) (pl : Player) (batch : list Placement)
        (total : Z) :
  let ps := get_player_state s pl in
  validate_loop (heap s) ps (board s) pl batch 0 [] = inr total ->
  mana ps < total ->
  (fst (validate_placement s pl batch) = false <->
   veil_surge_used ps = true \/ VEIL_SURGE_MAX < total - mana ps)
  /\ (NoDup (map card_instance_id batch) ->
      fst (validate_placement s pl batch) = true ->
      exists s',
        apply_placement s pl batch = Ok s'
        /\ mana (get_player_state s' pl) = - (total - mana ps)
        /\ veil_surge_used (get_player_state s' pl) = true
        /\ forall s'' batch' total',
            steps heal s' s'' ->
            validate_loop (heap s'') (get_player_state s'' pl) (board s'') pl
                          batch' 0 [] = inr total' ->
            mana (get_player_state s'' pl) < total' ->
            fst (validate_placement s'' pl batch') = false).
Proof.
  cbn zeta. intros Hloop Hover.
  assert (Hval : validate_placement s pl batch
                 = mana_check (get_player_state s pl) total)
    by (unfold validate_placement; now rewrite Hloop).
  rewrite Hval, mana_check_overdraft by exact Hover.
  split.
  - destruct (veil_surge_used (get_player_state s pl)); cbn [orb fst].
    + split; auto.
    + destruct (Z.ltb_spec VEIL_SURGE_MAX (total - mana (get_player_state s pl)));
        cbn [fst]; split; intros H'; auto; try discriminate.
      destruct H'; [discriminate | lia].
  - intros Hnd Hok.
    destruct (validated_loop_applies pl (get_player_state s pl) (board s)
                batch s [] 0 total Hnd) as (s1 & Happly & _ & Hmana & Hsurge).
    + reflexivity.
    + intros c r. cbn. tauto.
    + exact Hloop.
    + unfold apply_placement. rewrite Happly. eexists. split; [reflexivity|].
      rewrite get_set_player_state. unfold pay_mana. rewrite Hmana.
      destruct (Z.ltb_spec (mana (get_player_state s pl)) total); [|lia].
      cbn [mana veil_surge_used with_mana]. repeat split.
      intros s'' batch' total' Hsteps Hloop' Hover'.
      apply steps_confined in Hsteps. destruct Hsteps as (_ & _ & _ & Hkeep).
      unfold validate_placement. rewrite Hloop'.
      rewrite mana_check_overdraft by exact Hover'.
      rewrite Hkeep; [reflexivity|].
      rewrite get_set_player_state. reflexivity.
Qed.

End VeilSurge.

(* ------------------------------------------------------------------ *)
(** ** The statements at work on the example rounds *)
(* ------------------------------------------------------------------ *)

Section Examples.
Local Open Scope string_scope.

(** In the standoff Gravaul destroys Ashling before Bonecrag's turn.  Bonecrag
    then finds the dead Ashling in front of it and Duskwarden behind her,
    still protected: Bonecrag makes no attack at all, and the round has three
    events. *)
Example protected_behind_the_dead :
  map (fun e => (attacker_name e, defender_name e, defender_destroyed e))
      (events (snd (phase_resolve Cards.exact_heal standoff)))
  = [("Ashling", "Bonecrag", false);
     ("Gravaul the Unyielding", "Ashling", true);
     ("Duskwarden", "Bonecrag", true)].
Proof. reflexivity. Qed.

(** Match conclusion at work: at match point, in round 3, the wipe takes
    player one to 4 points and ends the match. *)
Lemma match_conclusion_at_match_point :
  let s' := fst (phase_resolve Cards.exact_heal match_point) in
  WIN_SCORE <= score (player1 s')
  /\ current_round match_point = 3
  /\ match_winner s' = Some ONE /\ phase s' = MATCH_OVER.
Proof.
  cbv zeta.
  destruct (match_conclusion Cards.exact_heal match_point) as (Hwin & _).
  assert (H : WIN_SCORE
              <= score (player1 (fst (phase_resolve Cards.exact_heal
                                                    match_point))))
    by (vm_compute; discriminate).
  split; [exact H|]. split; [reflexivity|]. exact (Hwin H).
Defined.

(** The Veil Surge rule at work, on the state of the engine's own test:
    Bonecrag (cost 5) on 3 mana is an overdraft of 2 and is accepted; applied,
    it leaves the player at -2 mana with the surge used. *)
Lemma veil_surge_once_witness :
  let batch := [mkPlacement "b" 0 FRONT] in
  validate_loop (heap surge_state) (get_player_state surge_state ONE)
                (board surge_state) ONE batch 0 [] = inr 5
  /\ mana (get_player_state surge_state ONE) < 5
  /\ fst (validate_placement surge_state ONE batch) = true
  /\ exists s', apply_placement surge_state ONE batch = Ok s'
                /\ mana (get_player_state s' ONE) = -2
                /\ veil_surge_used (get_player_state s' ONE) = true.
Proof.
  cbv zeta.
  assert (Hloop : validate_loop (heap surge_state)
                    (get_player_state surge_state ONE) (board surge_state) ONE
                    [mkPlacement "b" 0 FRONT] 0 [] = inr 5) by reflexivity.
  assert (Hover : mana (get_player_state surge_state ONE) < 5) by reflexivity.
  destruct (veil_surge_once Cards.exact_heal surge_state ONE
              [mkPlacement "b" 0 FRONT] 5 Hloop Hover) as [_ Happly].
  assert (Hnd : NoDup (map card_instance_id [mkPlacement "b" 0 FRONT]))
    by (repeat constructor; intros []).
  assert (Hok : fst (validate_placement surge_state ONE
                                        [mkPlacement "b" 0 FRONT]) = true)
    by reflexivity.
  destruct (Happly Hnd Hok) as (s' & Ha & Hm & Hv & _).
  split; [exact Hloop|]. split; [exact Hover|]. split; [exact Hok|].
  exists s'. split; [exact Ha|]. split; [exact Hm | exact Hv].
Defined.

(** The destroyed Ashling of the skirmish: out of reach after Cleanup, its
    object as it was before the round. *)
Lemma destroyed_card_leaves_the_match_witness :
  let ashling := mkBoardCard 0%nat 5 0 FRONT ONE false false 0 in
  state_wf skirmish_start
  /\ steps Cards.exact_heal skirmish_start skirmish_revealed
  /\ In ashling (round_dead Cards.exact_heal skirmish_revealed)
  /\ ~ In 0%nat (locs skirmish_cleaned)
  /\ heap skirmish_cleaned 0%nat = heap skirmish_revealed 0%nat.
Proof.
  cbv zeta.
  assert (Hwf : state_wf skirmish_start).
  { unfold state_wf. split; [reflexivity|]. split; [reflexivity|].
    cbn. repeat constructor; cbn; intuition discriminate. }
  assert (Hsteps : steps Cards.exact_heal skirmish_start skirmish_revealed).
  { eapply steps_step;
      [apply (step_placement _ skirmish_start ONE [mkPlacement "a" 0 FRONT])|].
    eapply steps_step;
      [apply (step_placement _ _ TWO [mkPlacement "d" 0 FRONT])|].
    eapply steps_step; [apply step_reveal|]. apply steps_refl. }
  assert (Hdead : In (mkBoardCard 0%nat 5 0 FRONT ONE false false 0)
                     (round_dead Cards.exact_heal skirmish_revealed))
    by (left; reflexivity).
  destruct (destroyed_card_leaves_the_match Cards.exact_heal skirmish_start
              skirmish_revealed _ Hwf Hsteps Hdead)
    as (_ & _ & _ & _ & Hlater).
  destruct (Hlater skirmish_cleaned) as [Hout Hheap].
  { eapply steps_step; [apply step_cleanup | apply steps_refl]. }
  split; [exact Hwf|]. split; [exact Hsteps|]. split; [exact Hdead|].
  split; [exact Hout | exact Hheap].
Defined.

End Examples.

(* ------------------------------------------------------------------ *)
(** ** Board: place, get and remove *)
(* ------------------------------------------------------------------ *)

Section BoardOps.

Lemma place_Some (b b' : Board.t) (card : BoardCard) :
  Board.place b card = Some b' <->
  Board.get b (col card) (row card) (owner card) = None /\ b' = b ++ [card].
Proof.
  unfold Board.place.
  destruct (Board.get b (col card) (row card) (owner card)); split.
  - discriminate.
  - intros [H _]. discriminate.
  - intros [= <-]. auto.
  - intros [_ ->]. reflexivity.
Qed.

Lemma get_single (card : BoardCard) c r o :
  Board.get [card] c r o
  = if Cell_eqb (cell_of card) (c, r, o) then Some card else None.
Proof. reflexivity. Qed.

Lemma remove_get_other (b : Board.t) c r o c' r' o' :
  (c', r', o') <> (c, r, o) ->
  Board.get (Board.remove b c r o) c' r' o' = Board.get b c' r' o'.
Proof.
  intros Hne. unfold Board.get, Board.remove.
  induction b as [|x b IH]; [reflexivity|]. cbn [filter find].
  destruct (at_cell (c, r, o) x) eqn:E; cbn [negb find].
  - destruct (at_cell (c', r', o') x) eqn:E'; [|exact IH].
    unfold at_cell in E, E'. apply Cell_eqb_eq in E, E'. congruence.
  - destruct (at_cell (c', r', o') x); [reflexivity | exact IH].
Qed.

Lemma remove_absent (b : Board.t) c r o :
  Board.get b c r o = None -> Board.remove b c r o = b.
Proof.
  rewrite get_None_iff. unfold Board.remove. intros H.
  induction b as [|x b IH]; [reflexivity|]. cbn [filter].
  assert (E : at_cell (c, r, o) x = false).
  { unfold at_cell. apply Cell_eqb_neq. apply H. now left. }
  rewrite E. cbn [negb]. rewrite IH; [reflexivity|].
  intros y Hy. apply H. now right.
Qed.

Lemma remove_wf (b : Board.t) c r o : board_wf b -> board_wf (Board.remove b c r o).
Proof.
  unfold board_wf, Board.remove. induction b as [|x b IH]; [auto|].
  cbn [map filter]. intros Hnd. inversion Hnd as [|? ? Hnotin Hnd']; subst.
  destruct (negb (at_cell (c, r, o) x)); [|auto]. cbn [map].
  constructor; [|auto]. intros Hin. apply Hnotin.
  apply in_map_iff in Hin. destruct Hin as (y & Hy & Hin).
  apply filter_In in Hin. apply in_map_iff. exists y. tauto.
Qed.

(** [Board.place]: on a free cell the card is filed last, [get] finds it
    under its own key, every other key reads as before, a second [place] on
    the cell raises, and [remove] of the cell gives the board back; on a taken
    cell [place] raises ([None]) and only then. *)
Theorem board_place_lookup (b : Board.t) (card : BoardCard) :
  (Board.place b card = None <->
   exists x, Board.get b (col card) (row card) (owner card) = Some x)
  /\ forall b', Board.place b card = Some b' ->
       Board.all_cards b' = Board.all_cards b ++ [card]
       /\ Board.get b' (col card) (row card) (owner card) = Some card
       /\ (forall c r o, (c, r, o) <> cell_of card ->
             Board.get b' c r o = Board.get b c r o)
       /\ Board.place b' card = None
       /\ Board.remove b' (col card) (row card) (owner card) = b
       /\ (board_wf b -> board_wf b').
Proof.
  split.
  - unfold Board.place.
    destruct (Board.get b (col card) (row card) (owner card)) as [x|].
    + split; [eauto | reflexivity].
    + split; [discriminate | intros [x Hx]; discriminate].
  - intros b' Hplace. apply place_Some in Hplace. destruct Hplace as [Hfree ->].
    assert (Hget : Board.get (b ++ [card]) (col card) (row card) (owner card)
                   = Some card).
    { rewrite get_app, Hfree, get_single.
      change (col card, row card, owner card) with (cell_of card).
      now rewrite Cell_eqb_refl. }
    split; [reflexivity|]. split; [exact Hget|]. split; [|split; [|split]].
    + intros c r o Hne. rewrite get_app, get_single.
      destruct (Board.get b c r o); [reflexivity|].
      destruct (Cell_eqb (cell_of card) (c, r, o)) eqn:E; [|reflexivity].
      apply Cell_eqb_eq in E. congruence.
    + unfold Board.place. now rewrite Hget.
    + unfold Board.remove. rewrite filter_app. cbn [filter].
      unfold at_cell at 2.
      change (col card, row card, owner card) with (cell_of card).
      rewrite Cell_eqb_refl. cbn [negb]. rewrite app_nil_r.
      now apply remove_absent.
    + unfold board_wf. rewrite map_app. cbn [map]. intros Hnd.
      apply NoDup_app; [exact Hnd | repeat constructor; intros []|].
      intros k Hk [<- | []]. apply in_map_iff in Hk.
      destruct Hk as (x & Hx & Hin). rewrite get_None_iff in Hfree.
      now apply (Hfree x Hin).
Qed.

(** [Board.remove]: afterwards the key reads as empty and every other key as
    before; removing an empty key changes nothing (no [KeyError]); removing
    twice is removing once; a well-formed board stays well-formed. *)
Theorem board_remove_lookup (b : Board.t) c r o :
  Board.get (Board.remove b c r o) c r o = None
  /\ (forall c' r' o', (c', r', o') <> (c, r, o) ->
        Board.get (Board.remove b c r o) c' r' o' = Board.get b c' r' o')
  /\ (Board.get b c r o = None -> Board.remove b c r o = b)
  /\ Board.remove (Board.remove b c r o) c r o = Board.remove b c r o
  /\ (board_wf b -> board_wf (Board.remove b c r o)).
Proof.
  assert (Hnone : Board.get (Board.remove b c r o) c r o = None).
  { apply get_None_iff. intros x Hin. apply remove_In in Hin. tauto. }
  split; [exact Hnone|]. split; [|split; [|split]].
  - intros c' r' o'. apply remove_get_other.
  - apply remove_absent.
  - now apply remove_absent.
  - apply remove_wf.
Qed.

End BoardOps.

(* ------------------------------------------------------------------ *)
(** ** The sorts order their input *)
(* ------------------------------------------------------------------ *)

Section Sorting.

Lemma tuple_ltb_lt (a b : Z * Z) :
  Py.tuple_ltb a b = true <->
  fst a < fst b \/ (fst a = fst b /\ snd a < snd b).
Proof.
  unfold Py.tuple_ltb.
  rewrite orb_true_iff, andb_true_iff, !Z.ltb_lt, Z.eqb_eq. tauto.
Qed.

Lemma tuple_ltb_ge (a b : Z * Z) :
  Py.tuple_ltb a b = false <->
  fst b < fst a \/ (fst a = fst b /\ snd b <= snd a).
Proof.
  pose proof (tuple_ltb_lt a b) as H.
  destruct (Py.tuple_ltb a b); split; intros H'; try discriminate;
    try reflexivity.
  - exfalso. destruct H as [H _]. specialize (H eq_refl). lia.
  - destruct (Z.lt_trichotomy (fst a) (fst b)) as [Hlt | [Heq | Hgt]].
    + destruct H as [_ H]. discriminate H. now left.
    + destruct (Z_lt_le_dec (snd a) (snd b)) as [Hs | Hs]; [|lia].
      destruct H as [_ H]. discriminate H. right. lia.
    + now left.
Qed.

Context {A : Type} (key : A -> Z * Z).

Lemma insert_desc_perm (x : A) (s : list A) :
  Permutation (Py.insert_desc key x s) (x :: s).
Proof.
  induction s as [|y s IH]; [apply Permutation_refl|]. cbn [Py.insert_desc].
  destruct (Py.tuple_ltb (key x) (key y)); [|apply Permutation_refl].
  eapply Permutation_trans; [apply perm_skip, IH | apply perm_swap].
Qed.

Lemma sort_desc_perm (l : list A) : Permutation (Py.sort_desc key l) l.
Proof.
  induction l as [|x l IH]; [constructor|]. cbn [Py.sort_desc fold_right].
  eapply Permutation_trans; [apply insert_desc_perm|]. now apply perm_skip.
Qed.

Lemma insert_asc_perm (x : A) (s : list A) :
  Permutation (Py.insert_asc key x s) (x :: s).
Proof.
  induction s as [|y s IH]; [apply Permutation_refl|]. cbn [Py.insert_asc].
  destruct (Py.tuple_ltb (key y) (key x)); [|apply Permutation_refl].
  eapply Permutation_trans; [apply perm_skip, IH | apply perm_swap].
Qed.

Lemma sort_asc_perm (l : list A) : Permutation (Py.sort_asc key l) l.
Proof.
  induction l as [|x l IH]; [constructor|]. cbn [Py.sort_asc fold_right].
  eapply Permutation_trans; [apply insert_asc_perm|]. now apply perm_skip.
Qed.

Lemma insert_desc_sorted (x : A) (s : list A) :
  StronglySorted (not_below key) s -> StronglySorted (not_below key) (Py.insert_desc key x s).
Proof.
  induction s as [|y s IH]; intros Hs.
  - cbn. constructor; [constructor | constructor].
  - cbn [Py.insert_desc]. inversion Hs as [|? ? Hs' Hall]; subst.
    destruct (Py.tuple_ltb (key x) (key y)) eqn:E.
    + constructor; [now apply IH|].
      rewrite Forall_forall. intros z Hz.
      apply (Permutation_in _ (insert_desc_perm x s)) in Hz.
      destruct Hz as [<- | Hz].
      * unfold not_below. apply tuple_ltb_lt in E. apply tuple_ltb_ge. lia.
      * rewrite Forall_forall in Hall. now apply Hall.
    + constructor; [exact Hs|]. constructor; [exact E|].
      rewrite Forall_forall in Hall |- *. intros z Hz. specialize (Hall z Hz).
      unfold not_below in *. apply tuple_ltb_ge in E, Hall.
      apply tuple_ltb_ge. lia.
Qed.

Lemma sort_desc_sorted (l : list A) :
  StronglySorted (not_below key) (Py.sort_desc key l).
Proof.
  induction l as [|x l IH]; [constructor|]. cbn [Py.sort_desc fold_right].
  now apply insert_desc_sorted.
Qed.

Lemma insert_asc_sorted (x : A) (s : list A) :
  StronglySorted (not_above key) s -> StronglySorted (not_above key) (Py.insert_asc key x s).
Proof.
  induction s as [|y s IH]; intros Hs.
  - cbn. constructor; [constructor | constructor].
  - cbn [Py.insert_asc]. inversion Hs as [|? ? Hs' Hall]; subst.
    destruct (Py.tuple_ltb (key y) (key x)) eqn:E.
    + constructor; [now apply IH|].
      rewrite Forall_forall. intros z Hz.
      apply (Permutation_in _ (insert_asc_perm x s)) in Hz.
      destruct Hz as [<- | Hz].
      * unfold not_above. apply tuple_ltb_lt in E. apply tuple_ltb_ge. lia.
      * rewrite Forall_forall in Hall. now apply Hall.
    + constructor; [exact Hs|]. constructor; [exact E|].
      rewrite Forall_forall in Hall |- *. intros z Hz. specialize (Hall z Hz).
      unfold not_above in *. apply tuple_ltb_ge in E, Hall.
      apply tuple_ltb_ge. lia.
Qed.

Lemma sort_asc_sorted (l : list A) :
  StronglySorted (not_above key) (Py.sort_asc key l).
Proof.
  induction l as [|x l IH]; [constructor|]. cbn [Py.sort_asc fold_right].
  now apply insert_asc_sorted.
Qed.

(** The head of an ascending sort is a least element of the input. *)
Lemma sort_asc_head_least (l : list A) (e : A) (rest : list A) :
  Py.sort_asc key l = e :: rest ->
  forall c, In c l -> Py.tuple_ltb (key c) (key e) = false.
Proof.
  intros Hsort c Hc. pose proof (sort_asc_sorted l) as Hs.
  rewrite Hsort in Hs. inversion Hs as [|? ? _ Hall]; subst.
  apply (Permutation_in _ (Permutation_sym (sort_asc_perm l))) in Hc.
  rewrite Hsort in Hc. destruct Hc as [<- | Hc].
  - apply tuple_ltb_ge. lia.
  - rewrite Forall_forall in Hall. now apply Hall.
Qed.

(** Stability: the elements of one key keep their input order. *)
Lemma insert_desc_stable (k : Z * Z) (x : A) (s : list A) :
  let same := fun y => (fst (key y) =? fst k) && (snd (key y) =? snd k) in
  filter same (Py.insert_desc key x s) = filter same (x :: s).
Proof.
  cbn zeta. induction s as [|y s IH]; [reflexivity|]. cbn [Py.insert_desc].
  destruct (Py.tuple_ltb (key x) (key y)) eqn:E; [|reflexivity].
  cbn [filter] in IH |- *. rewrite IH.
  destruct ((fst (key x) =? fst k) && (snd (key x) =? snd k)) eqn:Ex;
    [|reflexivity].
  destruct ((fst (key y) =? fst k) && (snd (key y) =? snd k)) eqn:Ey;
    [|reflexivity].
  apply andb_true_iff in Ex, Ey. rewrite !Z.eqb_eq in Ex, Ey.
  apply tuple_ltb_lt in E. lia.
Qed.

Lemma sort_desc_stable (k : Z * Z) (l : list A) :
  let same := fun y => (fst (key y) =? fst k) && (snd (key y) =? snd k) in
  filter same (Py.sort_desc key l) = filter same l.
Proof.
  cbn zeta. induction l as [|x l IH]; [reflexivity|].
  cbn [Py.sort_desc fold_right]. rewrite insert_desc_stable.
  cbn [filter]. unfold Py.sort_desc in IH. now rewrite IH.
Qed.

End Sorting.

(* ------------------------------------------------------------------ *)
(** ** Attack order and targeting priorities *)
(* ------------------------------------------------------------------ *)

Section OrderAndTargets.

Variable heal : Z -> Q -> Z.

Lemma StronglySorted_weaken {A} (R R' : A -> A -> Prop) (l : list A) :
  (forall x y, R x y -> R' x y) -> StronglySorted R l -> StronglySorted R' l.
Proof.
  intros HR. induction 1 as [|x l Hs IH Hall]; constructor; [exact IH|].
  rewrite Forall_forall in Hall |- *. auto.
Qed.

(** The attack order of a round, [sorted(board.all_cards(), key=(speed,
    effective_attack), reverse=True)]: every board card once; a card never
    stands before a faster one, nor before one of the same speed and higher
    effective attack; cards equal on both keep their board order. *)
Theorem attack_order_sorted (h : Heap) (b : Board.t) :
  let order := Py.sort_desc (speed_key h) (Board.all_cards b) in
  let speed_of := fun c => speed (definition (h (instance c))) in
  fight heal h b = fold_left (attack_turn heal h) order (mkCombat b [] 0 [])
  /\ Permutation order b
  /\ StronglySorted
       (fun x y => speed_of y < speed_of x
                   \/ (speed_of x = speed_of y
                       /\ effective_attack h y <= effective_attack h x))
       order
  /\ forall sp atk,
       filter (fun c => (speed_of c =? sp) && (effective_attack h c =? atk))
              order
       = filter (fun c => (speed_of c =? sp) && (effective_attack h c =? atk))
                b.
Proof.
  cbn zeta. split; [reflexivity|]. split; [apply sort_desc_perm|]. split.
  - eapply StronglySorted_weaken; [|apply sort_desc_sorted].
    intros x y Hxy. unfold not_below in Hxy. apply tuple_ltb_ge in Hxy.
    exact Hxy.
  - intros sp atk. exact (sort_desc_stable (speed_key h) (sp, atk) b).
Qed.

Lemma front_card_targetable (b : Board.t) c o (d : BoardCard) :
  Board.get b c FRONT o = Some d -> is_targetable b d = true.
Proof.
  intros H. apply get_Some_cell in H. destruct H as [_ Hc].
  injection Hc as _ Hr _. unfold is_targetable. now rewrite Hr.
Qed.

Lemma back_card_behind (b : Board.t) c o (d x : BoardCard) :
  Board.get b c BACK o = Some d -> Board.get b c FRONT o = Some x ->
  is_targetable b d = false.
Proof.
  intros H Hx. apply get_Some_cell in H. destruct H as [_ Hc].
  injection Hc as Hcol Hr Ho. unfold is_targetable.
  now rewrite Hr, Hcol, Ho, Hx.
Qed.

(** Priorities 1 and 2 of [_find_target], and when it finds nothing.  A live
    enemy in the front row of the attacker's column is the target.  With that
    front cell empty, a live enemy in the back row of the column is the
    target.  With the front cell taken by a dead enemy, the back-row enemy of
    the column is never the target.  No target comes back exactly when no
    enemy card is both alive and targetable. *)
Theorem find_target_priorities (attacker : BoardCard) (b : Board.t) :
  let opp := if Player_eqb (owner attacker) ONE then TWO else ONE in
  (forall d, Board.get b (col attacker) FRONT opp = Some d ->
             is_alive d = true -> _find_target attacker b = Some d)
  /\ (forall d, Board.get b (col attacker) FRONT opp = None ->
                Board.get b (col attacker) BACK opp = Some d ->
                is_alive d = true -> _find_target attacker b = Some d)
  /\ (forall x d, Board.get b (col attacker) FRONT opp = Some x ->
                  is_alive x = false ->
                  Board.get b (col attacker) BACK opp = Some d ->
                  _find_target attacker b <> Some d)
  /\ (_find_target attacker b = None <->
      forall c, In c b -> owner c = opp ->
                is_alive c && is_targetable b c = false).
Proof.
  cbn zeta.
  set (opp := if Player_eqb (owner attacker) ONE then TWO else ONE).
  split; [|split; [|split]].
  - intros d Hd Halive. unfold _find_target. cbv zeta. fold opp.
    rewrite Hd, Halive, (front_card_targetable _ _ _ _ Hd). reflexivity.
  - intros d Hfront Hd Halive. unfold _find_target. cbv zeta. fold opp.
    rewrite Hfront, Hd, Halive. cbn [andb].
    assert (Ht : is_targetable b d = true).
    { apply get_Some_cell in Hd. destruct Hd as [_ Hc].
      injection Hc as Hcol Hr Ho. unfold is_targetable.
      now rewrite Hr, Hcol, Ho, Hfront. }
    now rewrite Ht.
  - intros x d Hx Hdead Hd Hfind. apply find_target_sound in Hfind.
    destruct Hfind as (_ & _ & _ & Ht).
    rewrite (back_card_behind _ _ _ _ _ Hd Hx) in Ht. discriminate.
  - split.
    + intros Hnone c Hin Ho.
      destruct (is_alive c && is_targetable b c) eqn:E; [|reflexivity].
      exfalso. revert Hnone. unfold _find_target. cbv zeta. fold opp.
      assert (Hnear : match Py.sort_asc (target_key attacker)
                              (filter (fun c => is_alive c && is_targetable b c)
                                      (Board.cards_for b opp)) with
                      | [] => None
                      | e :: _ => Some e
                      end <> None).
      { destruct (Py.sort_asc _ _) as [|e l] eqn:Es; [|discriminate].
        assert (Hc : In c (Py.sort_asc (target_key attacker)
                             (filter (fun c => is_alive c && is_targetable b c)
                                     (Board.cards_for b opp)))).
        { apply sort_asc_In. apply filter_In. split; [|exact E].
          unfold Board.cards_for. apply filter_In. split; [exact Hin|].
          now apply Player_eqb_eq. }
        rewrite Es in Hc. destruct Hc. }
      destruct (Board.get b (col attacker) FRONT opp) as [d1|];
        [destruct (is_alive d1 && is_targetable b d1); [discriminate|]|];
        (destruct (Board.get b (col attacker) BACK opp) as [d2|];
         [destruct (is_alive d2 && is_targetable b d2); [discriminate|]|]);
        exact Hnear.
    + intros Hall. destruct (_find_target attacker b) as [t|] eqn:E;
        [|reflexivity].
      apply find_target_sound in E. fold opp in E.
      destruct E as (Hin & Ho & Ha & Ht).
      specialize (Hall t Hin Ho). rewrite Ha, Ht in Hall. discriminate.
Qed.

(** Priority 3 of [_find_target]: the target is an eligible enemy nearest to
    the attacker's column, and, when it stands in another column, one of
    lowest HP among the nearest. *)
Theorem find_target_nearest (attacker t : BoardCard) (b : Board.t) :
  _find_target attacker b = Some t ->
  forall c, In c b ->
            owner c = (if Player_eqb (owner attacker) ONE then TWO else ONE) ->
            is_alive c = true -> is_targetable b c = true ->
            Z.abs (col t - col attacker) <= Z.abs (col c - col attacker)
            /\ (col t <> col attacker ->
                Z.abs (col t - col attacker) = Z.abs (col c - col attacker) ->
                current_hp t <= current_hp c).
Proof.
  set (opp := if Player_eqb (owner attacker) ONE then TWO else ONE).
  intros Hfind c Hin Ho Ha Ht.
  assert (Hsame : forall r d, Board.get b (col attacker) r opp = Some d ->
                              d = t ->
                              Z.abs (col t - col attacker)
                              <= Z.abs (col c - col attacker)
                              /\ (col t <> col attacker ->
                                  Z.abs (col t - col attacker)
                                  = Z.abs (col c - col attacker) ->
                                  current_hp t <= current_hp c)).
  { intros r d Hd <-. apply get_Some_cell in Hd. destruct Hd as [_ Hc].
    injection Hc as Hcol _ _. rewrite Hcol. split; [lia | congruence]. }
  revert Hfind. unfold _find_target. cbv zeta. fold opp.
  assert (Hnear : match Py.sort_asc (target_key attacker)
                          (filter (fun c => is_alive c && is_targetable b c)
                                  (Board.cards_for b opp)) with
                  | [] => None
                  | e :: _ => Some e
                  end = Some t ->
                  Z.abs (col t - col attacker) <= Z.abs (col c - col attacker)
                  /\ (col t <> col attacker ->
                      Z.abs (col t - col attacker)
                      = Z.abs (col c - col attacker) ->
                      current_hp t <= current_hp c)).
  { destruct (Py.sort_asc _ _) as [|e l] eqn:Es; [discriminate|].
    intros [= ->].
    assert (Hc : In c (filter (fun c => is_alive c && is_targetable b c)
                              (Board.cards_for b opp))).
    { apply filter_In. split; [|now rewrite Ha, Ht].
      unfold Board.cards_for. apply filter_In. split; [exact Hin|].
      now apply Player_eqb_eq. }
    pose proof (sort_asc_head_least _ _ _ _ Es c Hc) as Hle.
    apply tuple_ltb_ge in Hle. unfold target_key in Hle. cbn [fst snd] in Hle.
    lia. }
  destruct (Board.get b (col attacker) FRONT opp) as [d1|] eqn:H1;
    [destruct (is_alive d1 && is_targetable b d1);
     [intros [= E]; exact (Hsame _ _ H1 E)|]|];
    (destruct (Board.get b (col attacker) BACK opp) as [d2|] eqn:H2;
     [destruct (is_alive d2 && is_targetable b d2);
      [intros [= E]; exact (Hsame _ _ H2 E)|]|]);
    exact Hnear.
Qed.

End OrderAndTargets.

(* ------------------------------------------------------------------ *)
(** ** Position bonuses in closed form *)
(* ------------------------------------------------------------------ *)

Section Bonuses.

Lemma add_bonus_zero (c : BoardCard) : add_bonus c 0 = c.
Proof. destruct c. unfold add_bonus. cbn. now rewrite Z.add_0_r. Qed.

Lemma add_bonus_add (c : BoardCard) (x y : Z) :
  add_bonus (add_bonus c x) y = add_bonus c (x + y).
Proof. unfold add_bonus. cbn. now rewrite Z.add_assoc. Qed.

(** A loop of bumps, each by an amount read off the card object, adds to every
    board card the amounts of the loop's cards that stand on its cell. *)
Lemma fold_bump_total (amt : Loc -> Z) (L : list BoardCard) :
  forall b : Board.t,
    fold_left (fun b card => bump (amt (instance card)) b card) L b
    = map (fun c => add_bonus c (total_at amt (cell_of c) (shape L))) b.
Proof.
  induction L as [|x L IH]; intros b.
  - cbn. rewrite <- (map_id b) at 1. apply map_ext. intros c.
    now rewrite add_bonus_zero.
  - cbn [fold_left]. rewrite IH. unfold bump at 1, Board.update.
    rewrite map_map. apply map_ext. intros c.
    cbn [shape map total_at]. fold (shape L). unfold at_cell.
    destruct (Cell_eqb (cell_of c) (cell_of x)) eqn:E.
    + rewrite add_bonus_cell, add_bonus_add.
      apply Cell_eqb_eq in E. rewrite E, Cell_eqb_refl. reflexivity.
    + assert (E' : Cell_eqb (cell_of x) (cell_of c) = false).
      { apply Cell_eqb_neq. apply Cell_eqb_neq in E. congruence. }
      rewrite E'. reflexivity.
Qed.

Lemma total_at_absent (amt : Loc -> Z) (k : Cell) (sh : list (Cell * Loc)) :
  ~ In k (map fst sh) -> total_at amt k sh = 0.
Proof.
  induction sh as [|[k' l] sh IH]; [reflexivity|]. cbn [map fst total_at In].
  intros H. rewrite IH by tauto.
  destruct (Cell_eqb k' k) eqn:E; [|reflexivity].
  apply Cell_eqb_eq in E. tauto.
Qed.

(** On a board with one card per cell, the total over a selection of the
    board's shape is the amount of the card itself, if selected. *)
Lemma total_at_selected (amt : Loc -> Z) (S : Cell * Loc -> bool)
      (sh : list (Cell * Loc)) (k : Cell) (l : Loc) :
  NoDup (map fst sh) -> In (k, l) sh ->
  total_at amt k (filter S sh) = if S (k, l) then amt l else 0.
Proof.
  induction sh as [|[k' l'] sh IH]; [contradiction|].
  cbn [map fst]. intros Hnd Hin. inversion Hnd as [|? ? Hnotin Hnd']; subst.
  assert (Hsub : forall k0, In k0 (map fst (filter S sh)) -> In k0 (map fst sh)).
  { intros k0 H0. apply in_map_iff in H0. destruct H0 as (e & He & H0).
    apply filter_In in H0. apply in_map_iff. exists e. tauto. }
  destruct Hin as [[= -> ->] | Hin].
  - cbn [filter]. destruct (S (k, l)); cbn [total_at].
    + rewrite Cell_eqb_refl, total_at_absent; [lia | auto].
    + apply total_at_absent. auto.
  - assert (Hne : Cell_eqb k' k = false).
    { apply Cell_eqb_neq. intros ->. apply Hnotin.
      apply (in_map fst) in Hin. exact Hin. }
    cbn [filter]. destruct (S (k', l')); cbn [total_at]; rewrite ?Hne;
      now rewrite IH.
Qed.

(** The closed form of a bump loop over a selection of the board. *)
Lemma fold_bump_selected (amt : Loc -> Z) (S : Cell * Loc -> bool)
      (b0 b : Board.t) (L : list BoardCard) :
  board_wf b0 -> shape b = shape b0 -> shape L = filter S (shape b0) ->
  fold_left (fun b card => bump (amt (instance card)) b card) L b
  = map (fun c => add_bonus c (if S (cell_of c, instance c)
                               then amt (instance c) else 0)) b.
Proof.
  intros Hwf Hb HL. rewrite fold_bump_total, HL. apply map_ext_in.
  intros c Hc. f_equal. apply total_at_selected.
  - rewrite shape_cells. exact Hwf.
  - rewrite <- Hb. unfold shape.
    now apply (in_map (fun c => (cell_of c, instance c))).
Qed.

Lemma shape_filter (P : Cell * Loc -> bool) (b : Board.t) :
  shape (filter (fun c => P (cell_of c, instance c)) b) = filter P (shape b).
Proof.
  unfold shape. induction b as [|x b IH]; [reflexivity|]. cbn [filter map].
  destruct (P (cell_of x, instance x)); cbn [map]; now rewrite IH.
Qed.

Lemma front_row_shape (b : Board.t) (p : Player) :
  shape (Board.front_row_for b p) = filter (on_front p) (shape b).
Proof. unfold Board.front_row_for. exact (shape_filter (on_front p) b). Qed.

Lemma shape_same_cells (b b' : Board.t) :
  shape b = shape b' -> map cell_of b = map cell_of b'.
Proof. intros H. now rewrite <- !shape_cells, H. Qed.

Lemma front_cols_shape (b b' : Board.t) (p : Player) :
  shape b = shape b' ->
  distinct_cols (Board.front_row_for b p)
  = distinct_cols (Board.front_row_for b' p).
Proof.
  intros H. unfold distinct_cols. f_equal. f_equal.
  assert (E : forall x : Board.t,
             map col x = map (fun e => fst (fst (fst e))) (shape x)).
  { intros x. unfold shape. rewrite map_map. reflexivity. }
  now rewrite !E, !front_row_shape, H.
Qed.

Lemma flanks_shape (b b' : Board.t) (p : Player) :
  shape b = shape b' -> flanks b p = flanks b' p.
Proof.
  intros H. unfold flanks.
  now rewrite (front_cols_shape b b' p H), (front_cols_shape b b' _ H).
Qed.

(** Flanking goes to one player at most. *)
Lemma flanks_exclusive (b : Board.t) : flanks b ONE && flanks b TWO = false.
Proof.
  unfold flanks, opponent, FLANKING_THRESHOLD. cbn [Player_eqb].
  destruct (3 <=? distinct_cols (Board.front_row_for b ONE));
    destruct (Z.leb_spec (distinct_cols (Board.front_row_for b TWO)) 2);
    destruct (Z.leb_spec 3 (distinct_cols (Board.front_row_for b TWO)));
    cbn; try reflexivity; lia.
Qed.

Lemma flank_one_closed (b0 : Board.t) (acc : Board.t * option Player)
      (pl : Player) :
  board_wf b0 -> shape (fst acc) = shape b0 ->
  flank_one acc pl
  = if flanks b0 pl
    then (map (fun c => add_bonus c (if on_front pl (cell_of c, instance c)
                                     then FLANKING_BONUS else 0)) (fst acc),
          Some pl)
    else acc.
Proof.
  intros Hwf Hsh. unfold flank_one.
  change (if Player_eqb pl ONE then TWO else ONE) with (opponent pl).
  fold (flanks (fst acc) pl). rewrite (flanks_shape _ _ pl Hsh).
  destruct (flanks b0 pl); [|reflexivity]. f_equal.
  apply (fold_bump_selected (fun _ => FLANKING_BONUS) (on_front pl) b0);
    [exact Hwf | exact Hsh|].
  now rewrite front_row_shape, Hsh.
Qed.

End Bonuses.

Section BonusTheorems.

Lemma get_shape (b b' : Board.t) c r o :
  shape b = shape b' ->
  option_map instance (Board.get b c r o)
  = option_map instance (Board.get b' c r o).
Proof.
  unfold shape, Board.get. revert b'.
  induction b as [|x b IH]; intros [|y b'] H; try discriminate;
    [reflexivity|].
  cbn [map] in H.
  assert (Hhd : (cell_of x, instance x) = (cell_of y, instance y))
    by congruence.
  assert (Hrest : map (fun c => (cell_of c, instance c)) b
                  = map (fun c => (cell_of c, instance c)) b') by congruence.
  pose proof (f_equal fst Hhd) as Hc. pose proof (f_equal snd Hhd) as Hi.
  cbn [fst snd] in Hc, Hi. cbn [find].
  unfold at_cell at 1 3. rewrite Hc.
  destruct (Cell_eqb (cell_of y) (c, r, o)); [cbn; now rewrite Hi | now apply IH].
Qed.

Lemma facing_at_shape (h : Heap) (b b' : Board.t) opp c l :
  shape b = shape b' -> facing_at h b opp c l = facing_at h b' opp c l.
Proof.
  intros H. unfold facing_at.
  pose proof (get_shape b b' c FRONT opp H) as E.
  destruct (Board.get b c FRONT opp), (Board.get b' c FRONT opp);
    cbn in E; try discriminate; [|reflexivity].
  injection E as ->. reflexivity.
Qed.

Lemma pressure_card_facing (h : Heap) (opp : Player) (b : Board.t)
      (card : BoardCard) :
  pressure_card h opp b card
  = if facing_at h b opp (col card) (instance card)
    then bump COLUMN_PRESSURE_BONUS b card else b.
Proof.
  unfold pressure_card, facing_at.
  destruct (Board.get b (col card) FRONT opp); reflexivity.
Qed.

(** The loop of column pressure over the cards [L] is a loop of bumps over
    those of [L] that face a card they beat. *)
Lemma pressure_fold (h : Heap) (opp : Player) (b0 : Board.t)
      (L : list BoardCard) :
  forall b, shape b = shape b0 ->
    fold_left (pressure_card h opp) L b
    = fold_left (fun b card => bump COLUMN_PRESSURE_BONUS b card)
                (filter (fun c => facing_at h b0 opp (col c) (instance c)) L) b.
Proof.
  induction L as [|x L IH]; intros b Hb; [reflexivity|].
  cbn [fold_left filter]. rewrite pressure_card_facing.
  rewrite (facing_at_shape h b b0 opp _ _ Hb).
  destruct (facing_at h b0 opp (col x) (instance x)); cbn [fold_left].
  - apply IH. now rewrite bump_shape.
  - now apply IH.
Qed.

Lemma pressure_one_closed (h : Heap) (b0 b : Board.t) (pl : Player) :
  board_wf b0 -> shape b = shape b0 ->
  pressure_one h b pl
  = map (fun c => add_bonus c
                    (if on_front pl (cell_of c, instance c)
                        && facing_at h b0 (opponent pl) (col c) (instance c)
                     then COLUMN_PRESSURE_BONUS else 0)) b.
Proof.
  intros Hwf Hb. unfold pressure_one.
  change (if Player_eqb pl ONE then TWO else ONE) with (opponent pl).
  rewrite (pressure_fold h (opponent pl) b0 _ b Hb).
  apply (fold_bump_selected (fun _ => COLUMN_PRESSURE_BONUS)
           (fun e => on_front pl e
                     && facing_at h b0 (opponent pl) (fst (fst (fst e))) (snd e))
           b0 b); [exact Hwf | exact Hb|].
  unfold Board.front_row_for. rewrite filter_filter.
  rewrite <- Hb.
  exact (shape_filter
           (fun e => on_front pl e
                     && facing_at h b0 (opponent pl) (fst (fst (fst e))) (snd e))
           b).
Qed.

Lemma map_shape (g : BoardCard -> BoardCard) (b : Board.t) :
  keeps_place g -> shape (map g b) = shape b.
Proof.
  intros Hg. unfold shape. rewrite map_map. apply map_ext.
  intros c. destruct (Hg c) as [-> ->]. reflexivity.
Qed.

Lemma apply_flanking_closed (b : Board.t) :
  board_wf b ->
  _apply_flanking b
  = (map (fun c => add_bonus c (if flanks b (owner c) && Row_eqb (row c) FRONT
                                then FLANKING_BONUS else 0)) b,
     if flanks b TWO then Some TWO
     else if flanks b ONE then Some ONE else None).
Proof.
  intros Hwf. unfold _apply_flanking. cbn [fold_left].
  rewrite (flank_one_closed b (b, None) ONE Hwf eq_refl). cbn [fst].
  pose proof (flanks_exclusive b) as Hex.
  destruct (flanks b ONE) eqn:E1.
  - rewrite (flank_one_closed b _ TWO Hwf).
    2:{ cbn [fst]. apply map_shape. intros c.
        destruct (on_front ONE _); split; reflexivity. }
    cbn [andb] in Hex. rewrite Hex. f_equal.
    apply map_ext. intros c. unfold on_front. cbn [fst snd cell_of].
    destruct (owner c); cbn [Player_eqb andb]; rewrite ?E1, ?Hex; reflexivity.
  - rewrite (flank_one_closed b (b, None) TWO Hwf eq_refl). cbn [fst].
    destruct (flanks b TWO) eqn:E2.
    + f_equal. apply map_ext. intros c. unfold on_front.
      cbn [fst snd cell_of].
      destruct (owner c); cbn [Player_eqb andb]; rewrite ?E1, ?E2; reflexivity.
    + f_equal. rewrite <- (map_id b) at 1. apply map_ext. intros c.
      destruct (owner c); rewrite ?E1, ?E2; cbn [andb];
        now rewrite add_bonus_zero.
Qed.

Lemma map_bonus_cases (f : BoardCard -> bool) (n : Z) (b : Board.t) :
  map (fun c => add_bonus c (if f c then n else 0)) b
  = map (fun c => if f c then add_bonus c n else c) b.
Proof.
  apply map_ext. intros c. destruct (f c); [reflexivity | apply add_bonus_zero].
Qed.

(** Flanking in closed form, on a board with one card per cell.  The bonus
    goes to the player who holds at least 3 distinct front-row columns while
    the opponent holds at most 2, to one player at most, and adds exactly
    [FLANKING_BONUS] to each of that player's front-row cards; no other card
    and no other field is touched. *)
Theorem flanking_closed_form (b : Board.t) :
  board_wf b ->
  _apply_flanking b
  = (map (fun c => if flanks b (owner c) && Row_eqb (row c) FRONT
                   then add_bonus c FLANKING_BONUS else c) b,
     if flanks b TWO then Some TWO
     else if flanks b ONE then Some ONE else None)
  /\ flanks b ONE && flanks b TWO = false.
Proof.
  intros Hwf. split; [|apply flanks_exclusive].
  rewrite (apply_flanking_closed b Hwf). f_equal.
  exact (map_bonus_cases (fun c => flanks b (owner c) && Row_eqb (row c) FRONT)
                         FLANKING_BONUS b).
Qed.

Lemma matchup_not_both (a d : CardType) :
  Qeq_bool (TYPE_MATCHUP a d) (3 # 2) && Qeq_bool (TYPE_MATCHUP d a) (3 # 2)
  = false.
Proof. destruct a, d; reflexivity. Qed.

Lemma column_pressure_closed (h : Heap) (b0 b : Board.t) :
  board_wf b0 -> shape b = shape b0 ->
  _apply_column_pressure h b
  = map (fun c => add_bonus c (if pressured h b0 c
                               then COLUMN_PRESSURE_BONUS else 0)) b.
Proof.
  intros Hwf Hb. unfold _apply_column_pressure. cbn [fold_left].
  rewrite (pressure_one_closed h b0 b ONE Hwf Hb).
  rewrite (pressure_one_closed h b0 _ TWO Hwf).
  2:{ rewrite map_shape; [exact Hb|]. intros c.
      destruct (_ && _); split; reflexivity. }
  rewrite map_map. apply map_ext. intros c. rewrite add_bonus_add. f_equal.
  unfold pressured, on_front, opponent.
  cbn [fst snd cell_of col row owner instance add_bonus].
  destruct (owner c); cbn [Player_eqb andb];
    destruct (Row_eqb (row c) FRONT); cbn [andb];
    try destruct (facing_at h b0 _ (col c) (instance c)); reflexivity.
Qed.

(** Column pressure in closed form, on a board with one card per cell: a
    card gains exactly [COLUMN_PRESSURE_BONUS] when it stands in the front row
    and the opponent's front-row card of its column is of a type it beats,
    and nothing changes otherwise; of two cards facing each other at most one
    gains it. *)
Theorem column_pressure_closed_form (h : Heap) (b : Board.t) :
  board_wf b ->
  _apply_column_pressure h b
  = map (fun c => if pressured h b c
                  then add_bonus c COLUMN_PRESSURE_BONUS else c) b
  /\ forall x y, In x b -> In y b ->
       row x = FRONT -> row y = FRONT -> col x = col y ->
       owner y = opponent (owner x) ->
       pressured h b x && pressured h b y = false.
Proof.
  intros Hwf. split.
  - rewrite (column_pressure_closed h b b Hwf eq_refl).
    exact (map_bonus_cases (pressured h b) COLUMN_PRESSURE_BONUS b).
  - intros x y Hx Hy Rx Ry Hcol Ho.
    assert (Hgy : Board.get b (col x) FRONT (opponent (owner x)) = Some y).
    { rewrite Hcol, <- Ry, <- Ho. now apply get_of_member. }
    assert (Hgx : Board.get b (col y) FRONT (opponent (owner y)) = Some x).
    { rewrite <- Hcol, <- Rx, Ho.
      replace (opponent (opponent (owner x))) with (owner x)
        by (destruct (owner x); reflexivity).
      now apply get_of_member. }
    unfold pressured, facing_at. rewrite Rx, Ry, Hgy, Hgx. cbn [Row_eqb andb].
    apply matchup_not_both.
Qed.

Lemma pressured_add_bonus (h : Heap) (b : Board.t) (c : BoardCard) (n : Z) :
  pressured h b (add_bonus c n) = pressured h b c.
Proof. reflexivity. Qed.

Lemma filter_all {A} (l : list A) : filter (fun _ => true) l = l.
Proof. induction l as [|x l IH]; [reflexivity|]. cbn. now rewrite IH. Qed.

Lemma veil_collapse_closed (h : Heap) (b0 b : Board.t) :
  board_wf b0 -> shape b = shape b0 ->
  fold_left (collapse_card h) (Board.all_cards b) b
  = map (fun c => add_bonus c (attack (h (instance c)) / 2)) b.
Proof.
  intros Hwf Hb.
  exact (fold_bump_selected (fun l => attack (h l) / 2) (fun _ => true)
           b0 b b Hwf Hb (eq_trans Hb (eq_sym (filter_all (shape b0))))).
Qed.

Lemma prepare_closed (h : Heap) (b : Board.t) (veil : bool) :
  board_wf b ->
  prepare h b veil
  = (map (fun c => add_bonus c (round_bonus h b veil c)) b,
     if flanks b TWO then Some TWO
     else if flanks b ONE then Some ONE else None).
Proof.
  intros Hwf. unfold prepare. rewrite (apply_flanking_closed b Hwf).
  cbn [fst snd]. f_equal.
  set (b1 := map _ b).
  assert (H1 : shape b1 = shape b).
  { apply map_shape. intros c. split; reflexivity. }
  rewrite (column_pressure_closed h b b1 Hwf H1).
  set (b2 := map _ b1).
  assert (H2 : shape b2 = shape b).
  { unfold b2. rewrite map_shape; [exact H1|]. intros c. split; reflexivity. }
  destruct veil.
  - rewrite (veil_collapse_closed h b b2 Hwf H2). unfold b2, b1.
    rewrite !map_map. apply map_ext. intros c.
    rewrite !add_bonus_add. unfold round_bonus. f_equal.
    rewrite pressured_add_bonus. cbn [instance add_bonus]. lia.
  - unfold b2, b1. rewrite !map_map. apply map_ext. intros c.
    rewrite !add_bonus_add. unfold round_bonus. f_equal.
    rewrite pressured_add_bonus. lia.
Qed.

(** Steps 1 and 2 of [phase_resolve] in closed form, on a board with one card
    per cell: the bonuses are additive.  Each card's [position_bonus_attack]
    grows by 2 if its owner flanks and it stands in front, by 1 if it is
    under column pressure, and in the final round by half its attack
    ([attack // 2]); the cards keep their order and all their other fields. *)
Theorem position_bonuses_additive (h : Heap) (b : Board.t) (veil : bool) :
  board_wf b ->
  prepare h b veil
  = (map (fun c => add_bonus c (round_bonus h b veil c)) b,
     if flanks b TWO then Some TWO
     else if flanks b ONE then Some ONE else None).
Proof. exact (prepare_closed h b veil). Qed.

End BonusTheorems.

(* ------------------------------------------------------------------ *)
(** ** Order, targets and bonuses at work *)
(* ------------------------------------------------------------------ *)

Section BonusExamples.

Lemma flank_board_wf : board_wf flank_board.
Proof.
  unfold board_wf. cbn. repeat constructor; cbn; intuition discriminate.
Qed.

(** From column 0 the enemy of column 1 is nearer than the one of column 3,
    whatever their HP. *)
Lemma find_target_nearest_witness :
  let attacker := mkBoardCard 0%nat 5 0 FRONT ONE false false 0 in
  let near := mkBoardCard 1%nat 12 1 FRONT TWO false false 0 in
  let far := mkBoardCard 2%nat 3 3 FRONT TWO false false 0 in
  _find_target attacker far_board = Some near
  /\ In far far_board
  /\ Z.abs (col near - col attacker) <= Z.abs (col far - col attacker).
Proof.
  cbv zeta.
  assert (Hfind : _find_target (mkBoardCard 0%nat 5 0 FRONT ONE false false 0)
                               far_board
                  = Some (mkBoardCard 1%nat 12 1 FRONT TWO false false 0))
    by reflexivity.
  assert (Hin : In (mkBoardCard 2%nat 3 3 FRONT TWO false false 0) far_board)
    by (right; right; left; reflexivity).
  split; [exact Hfind|]. split; [exact Hin|].
  exact (proj1 (find_target_nearest _ _ _ Hfind _ Hin eq_refl eq_refl eq_refl)).
Defined.

(** Flanking on the board of the test: player one flanks, and its three
    front-row cards gain 2 each. *)
Lemma flanking_closed_form_witness :
  board_wf flank_board
  /\ snd (_apply_flanking flank_board) = Some ONE
  /\ map position_bonus_attack (fst (_apply_flanking flank_board))
     = [2; 2; 2; 0].
Proof.
  split; [exact flank_board_wf|].
  destruct (flanking_closed_form flank_board flank_board_wf) as [-> _].
  split; reflexivity.
Defined.

(** Column pressure on Ashling (Specter) facing Bonecrag (Behemoth): Ashling
    gains 1, Bonecrag nothing. *)
Lemma column_pressure_closed_form_witness :
  let h := duel_heap Cards.ashling Cards.bonecrag in
  let b := duel_board Cards.ashling Cards.bonecrag in
  board_wf b
  /\ map position_bonus_attack (_apply_column_pressure h b) = [1; 0].
Proof.
  cbv zeta.
  assert (Hwf : board_wf (duel_board Cards.ashling Cards.bonecrag)).
  { unfold board_wf. cbn. repeat constructor; cbn; intuition discriminate. }
  split; [exact Hwf|].
  destruct (column_pressure_closed_form
              (duel_heap Cards.ashling Cards.bonecrag) _ Hwf) as [-> _].
  reflexivity.
Defined.

(** All bonuses together on the flanking board in the final round: the
    Ashlings (attack 5) gain 2 for flanking and 5 // 2 = 2 for the escalation;
    Gravaul (attack 7, Revenant facing a Specter) gains 1 for column pressure
    and 7 // 2 = 3. *)
Lemma position_bonuses_additive_witness :
  board_wf flank_board
  /\ map position_bonus_attack (fst (prepare flank_heap flank_board true))
     = [4; 4; 4; 4]
  /\ snd (prepare flank_heap flank_board true) = Some ONE.
Proof.
  split; [exact flank_board_wf|].
  rewrite (position_bonuses_additive flank_heap flank_board true flank_board_wf).
  split; reflexivity.
Defined.

End BonusExamples.

(* ------------------------------------------------------------------ *)
(** ** The combat log and the casualties of a round *)
(* ------------------------------------------------------------------ *)

Section CombatLog.
Variable heal : Z -> Q -> Z.

(** One turn appends at most one event, numbered next. *)
Lemma attack_turn_log (h : Heap) (st : Combat) (ref : BoardCard) :
  let st' := attack_turn heal h st ref in
  (cb_events st' = cb_events st /\ cb_event_order st' = cb_event_order st
   /\ cb_dead_cards st' = cb_dead_cards st /\ cb_board st' = cb_board st)
  \/ exists ev target,
       cb_events st' = cb_events st ++ [ev]
       /\ cb_event_order st' = cb_event_order st + 1
       /\ order ev = cb_event_order st + 1
       /\ attacker_owner ev = owner ref
       /\ defender_owner ev = opponent (owner ref)
       /\ cb_dead_cards st'
          = (if defender_destroyed ev then cb_dead_cards st ++ [target]
             else cb_dead_cards st).
Proof.
  cbv zeta. unfold attack_turn.
  destruct (Board.get (cb_board st) (col ref) (row ref) (owner ref))
    as [attacker|] eqn:Hget; [|left; auto].
  destruct (negb (is_alive attacker)); [left; auto|].
  destruct (_find_target attacker (cb_board st)) as [target|] eqn:Hfind;
    [|left; auto].
  right. apply get_Some_cell in Hget. destruct Hget as [_ Hcell].
  assert (Ho : owner attacker = owner ref) by (apply (f_equal snd) in Hcell; exact Hcell).
  apply find_target_sound in Hfind. destruct Hfind as (_ & Hopp & _ & _).
  destruct (has_ability (definition (h (instance attacker))) ON_ATTACK LIFESTEAL);
  destruct (if negb (0 <? current_hp target - _) then _ else None);
  eexists; exists target; cbn;
  (split; [reflexivity|]); (split; [reflexivity|]); (split; [reflexivity|]);
  (split; [exact Ho|]); (split; [|reflexivity]);
  rewrite Hopp, Ho; destruct (owner ref); reflexivity.
Qed.


Lemma opponent_neq (p : Player) : p <> opponent p.
Proof. destruct p; discriminate. Qed.

Lemma fight_log (h : Heap) (refs : list BoardCard) :
  forall st,
    cb_event_order st = Z.of_nat (List.length (cb_events st)) ->
    (forall i e, nth_error (cb_events st) i = Some e ->
                 order e = Z.of_nat i + 1) ->
    (forall e, In e (cb_events st) -> attacker_owner e <> defender_owner e) ->
    List.length (filter defender_destroyed (cb_events st))
    = List.length (cb_dead_cards st) ->
    let st' := fold_left (attack_turn heal h) refs st in
    (forall i e, nth_error (cb_events st') i = Some e ->
                 order e = Z.of_nat i + 1)
    /\ (forall e, In e (cb_events st') ->
                  attacker_owner e <> defender_owner e)
    /\ List.length (filter defender_destroyed (cb_events st'))
       = List.length (cb_dead_cards st')
    /\ (List.length (cb_events st') <= List.length (cb_events st) + List.length refs)%nat.
Proof.
  induction refs as [|ref refs IH]; intros st Hn Hord Hown Hdead; cbn zeta.
  - cbn [fold_left List.length]. repeat split; auto; lia.
  - cbn [fold_left List.length].
    destruct (attack_turn_log h st ref) as [(He & Ho & Hd & _) | Hstep].
    + specialize (IH (attack_turn heal h st ref)). cbv zeta in IH.
      rewrite He, Ho, Hd in IH. specialize (IH Hn Hord Hown Hdead).
      destruct IH as (I1 & I2 & I3 & I4). repeat split; auto; lia.
    + destruct Hstep as (ev & target & He & Ho & Hev & Hao & Hdo & Hd).
      specialize (IH (attack_turn heal h st ref)). cbv zeta in IH.
      rewrite He, Ho, Hd in IH.
      assert (I : (forall i e, nth_error (cb_events st ++ [ev]) i = Some e ->
                               order e = Z.of_nat i + 1)
                  /\ (forall e, In e (cb_events st ++ [ev]) ->
                                attacker_owner e <> defender_owner e)
                  /\ List.length (filter defender_destroyed (cb_events st ++ [ev]))
                     = List.length (if defender_destroyed ev
                               then cb_dead_cards st ++ [target]
                               else cb_dead_cards st)).
      { split; [|split].
        - intros i e Hi.
          destruct (Nat.lt_ge_cases i (List.length (cb_events st))) as [Hlt|Hge].
          + rewrite nth_error_app1 in Hi by exact Hlt. auto.
          + rewrite nth_error_app2 in Hi by exact Hge.
            destruct (i - List.length (cb_events st))%nat as [|k] eqn:Ek.
            * cbn in Hi. injection Hi as <-. rewrite Hev, Hn. lia.
            * destruct k; discriminate.
        - intros e Hin. apply in_app_or in Hin. destruct Hin as [Hin|[<-|[]]].
          + auto.
          + rewrite Hao, Hdo. apply opponent_neq.
        - rewrite filter_app, length_app. cbn [filter].
          destruct (defender_destroyed ev); cbn [List.length];
            [rewrite length_app; cbn [List.length]|]; lia. }
      destruct I as (J1 & J2 & J3).
      assert (Hn' : cb_event_order st + 1
                    = Z.of_nat (List.length (cb_events st ++ [ev]))).
      { rewrite length_app. cbn [List.length]. lia. }
      specialize (IH Hn' J1 J2 J3). destruct IH as (I1 & I2 & I3 & I4).
      rewrite length_app in I4. cbn [List.length] in I4.
      repeat split; auto; lia.
Qed.

Lemma shape_length (b b' : Board.t) : shape b = shape b' -> List.length b = List.length b'.
Proof.
  intros H. apply (f_equal (@List.length (Cell * Loc))) in H. unfold shape in H.
  now rewrite !length_map in H.
Qed.

(** The combat log of a round: the events are numbered 1, 2, ... in the order
    of the log; attacker and defender of an event belong to different
    players; a card attacks at most once, so there are at most as many events
    as cards on the board; and the events that report a destroyed defender
    are as many as the cards taken off the board. *)
Theorem combat_log_numbered (s : GameState) :
  let r := snd (phase_resolve heal s) in
  (forall i e, nth_error (events r) i = Some e -> order e = Z.of_nat i + 1)
  /\ (forall e, In e (events r) -> attacker_owner e <> defender_owner e)
  /\ (List.length (events r) <= List.length (Board.all_cards (board s)))%nat
  /\ List.length (filter defender_destroyed (events r))
     = List.length (round_dead heal s).
Proof.
  cbn zeta. unfold phase_resolve. cbv zeta. cbn [snd events].
  unfold round_dead, fight.
  set (b := fst (prepare (heap s) (board s) (current_round s =? ROUNDS_PER_MATCH))).
  destruct (fight_log (heap s) (Py.sort_desc (speed_key (heap s)) (Board.all_cards b))
                      (mkCombat b [] 0 [])) as (I1 & I2 & I3 & I4);
    try reflexivity.
  - intros i e Hi. destruct i; discriminate.
  - intros e [].
  - split; [exact I1|]. split; [exact I2|]. split; [|exact I3].
    cbn [cb_events List.length] in I4.
    rewrite (Permutation_length (sort_desc_perm _ _)) in I4.
    unfold Board.all_cards in *.
    rewrite (shape_length b (board s)) in I4; [lia|apply prepare_shape].
Qed.


(** The board one attack leaves: the attacker's and the target's HP are
    written, nothing else. *)
Lemma attack_turn_cases (h : Heap) (st : Combat) (ref : BoardCard) :
  let st' := attack_turn heal h st ref in
  st' = st
  \/ exists attacker target hp_a hp_t,
       In attacker (cb_board st) /\ is_alive attacker = true
       /\ In target (cb_board st) /\ is_alive target = true
       /\ owner target = opponent (owner attacker)
       /\ cb_board st'
          = map (fun c => if at_cell (cell_of target) c then set_hp c hp_t
                          else if at_cell (cell_of attacker) c
                               then set_hp c hp_a else c)
                (cb_board st)
       /\ cb_dead_cards st'
          = (if 0 <? hp_t then cb_dead_cards st
             else cb_dead_cards st ++ [target]).
Proof.
  cbv zeta. unfold attack_turn.
  destruct (Board.get (cb_board st) (col ref) (row ref) (owner ref))
    as [attacker|] eqn:Hget; [|left; auto].
  destruct (is_alive attacker) eqn:Halive; cbn [negb]; [|left; auto].
  destruct (_find_target attacker (cb_board st)) as [target|] eqn:Hfind;
    [|left; auto].
  right. apply get_Some_cell in Hget. destruct Hget as [Hina _].
  apply find_target_sound in Hfind.
  destruct Hfind as (Hint & Hopp & Halt & _).
  assert (Ho : owner target = opponent (owner attacker)).
  { rewrite Hopp. destruct (owner attacker); reflexivity. }
  assert (Hmap : forall hp_t hp_a,
             Board.update (Board.update (cb_board st) (cell_of target)
                                        (fun c => set_hp c hp_t))
                          (cell_of attacker) (fun c => set_hp c hp_a)
             = map (fun c => if at_cell (cell_of target) c then set_hp c hp_t
                             else if at_cell (cell_of attacker) c
                                  then set_hp c hp_a else c)
                   (cb_board st)).
  { intros hp_t hp_a. unfold Board.update. rewrite map_map.
    apply map_ext. intros c.
    destruct (at_cell (cell_of target) c) eqn:Et.
    - rewrite at_cell_set_hp.
      destruct (at_cell (cell_of attacker) c) eqn:Ea; [|reflexivity].
      apply Cell_eqb_eq in Et, Ea. exfalso.
      assert (E : cell_of attacker = cell_of target) by congruence.
      apply (f_equal snd) in E. cbn in E. rewrite Ho in E.
      destruct (owner attacker); discriminate.
    - reflexivity. }
  exists attacker, target.
  destruct (has_ability (definition (h (instance attacker))) ON_ATTACK LIFESTEAL);
    destruct (0 <? current_hp target - _) eqn:Ehp; cbn [negb];
    try destruct (has_ability (definition (h (instance target))) ON_DEATH VEIL_ECHO);
    eexists; eexists; cbn [cb_board cb_dead_cards];
    (split; [exact Hina|]); (split; [exact Halive|]);
    (split; [exact Hint|]); (split; [exact Halt|]); (split; [exact Ho|]);
    (split; [apply Hmap|]); rewrite Ehp; reflexivity.
Qed.

Lemma wf_same_cell (b : Board.t) (x y : BoardCard) :
  board_wf b -> In x b -> In y b -> cell_of x = cell_of y -> x = y.
Proof.
  intros Hwf Hx Hy E. apply (get_of_member _ _ Hwf) in Hx.
  apply (get_of_member _ _ Hwf) in Hy.
  change (col x, row x, owner x) with (cell_of x) in *.
  assert (Hx' : Board.get b (col y) (row y) (owner y) = Some x).
  { assert (E3 : (col x, row x, owner x) = (col y, row y, owner y)) by exact E.
    injection E3 as <- <- <-. exact Hx. }
  congruence.
Qed.

(** The cards that are down: each key once, and the card filed under it has
    no HP left. *)
Lemma fight_dead (h : Heap) (refs : list BoardCard) :
  forall st,
    board_wf (cb_board st) ->
    NoDup (map cell_of (cb_dead_cards st)) ->
    (forall d, In d (cb_dead_cards st) ->
               exists x, In x (cb_board st) /\ cell_of x = cell_of d
                         /\ is_alive x = false) ->
    let st' := fold_left (attack_turn heal h) refs st in
    board_wf (cb_board st')
    /\ NoDup (map cell_of (cb_dead_cards st'))
    /\ (forall d, In d (cb_dead_cards st') ->
                  exists x, In x (cb_board st') /\ cell_of x = cell_of d
                            /\ is_alive x = false)
    /\ (forall x, In x (cb_board st) -> is_alive x = false ->
                  In x (cb_board st')).
Proof.
  induction refs as [|ref refs IH]; intros st Hwf Hnd Hdown; cbn zeta.
  - cbn [fold_left]. auto.
  - cbn [fold_left].
    assert (Hwf' := attack_turn_wf heal h st ref Hwf).
    destruct (attack_turn_cases h st ref) as [E | Hhit].
    + rewrite E in *. apply IH; assumption.
    + destruct Hhit as (a & t & hp_a & hp_t & Hina & Hala & Hint & Halt & Ho
                        & Hb & Hd).
      set (g := fun c => if at_cell (cell_of t) c then set_hp c hp_t
                         else if at_cell (cell_of a) c then set_hp c hp_a
                              else c) in *.
      assert (Hkeep : forall x, In x (cb_board st) -> is_alive x = false ->
                                g x = x).
      { intros x Hx Hdead. unfold g.
        destruct (at_cell (cell_of t) x) eqn:Et.
        - apply Cell_eqb_eq in Et.
          rewrite (wf_same_cell _ _ _ Hwf Hx Hint Et) in Hdead. congruence.
        - destruct (at_cell (cell_of a) x) eqn:Ea; [|reflexivity].
          apply Cell_eqb_eq in Ea.
          rewrite (wf_same_cell _ _ _ Hwf Hx Hina Ea) in Hdead. congruence. }
      assert (Hstay : forall x, In x (cb_board st) -> is_alive x = false ->
                                In x (cb_board (attack_turn heal h st ref))).
      { intros x Hx Hdead. rewrite Hb. apply in_map_iff. exists x.
        split; [now apply Hkeep | exact Hx]. }
      assert (Hold : forall d, In d (cb_dead_cards st) ->
                 exists x, In x (cb_board (attack_turn heal h st ref))
                           /\ cell_of x = cell_of d /\ is_alive x = false).
      { intros d Hin. destruct (Hdown d Hin) as (x & Hx & Hc & Hdead).
        exists x. auto. }
      specialize (IH (attack_turn heal h st ref) Hwf'). cbv zeta in IH.
      assert (Hgoal : NoDup (map cell_of (cb_dead_cards (attack_turn heal h st ref)))
                      /\ (forall d, In d (cb_dead_cards (attack_turn heal h st ref)) ->
                            exists x, In x (cb_board (attack_turn heal h st ref))
                                      /\ cell_of x = cell_of d
                                      /\ is_alive x = false)).
      { rewrite Hd. destruct (0 <? hp_t) eqn:Ehp; [auto|]. split.
        - rewrite map_app. cbn [map]. apply NoDup_app; [exact Hnd| |].
          + repeat constructor. intros [].
          + intros k Hk [<- | []]. apply in_map_iff in Hk.
            destruct Hk as (d & Hdc & Hin).
            destruct (Hdown d Hin) as (x & Hx & Hc & Hdead).
            assert (x = t) by (apply (wf_same_cell _ _ _ Hwf Hx Hint); congruence).
            subst x. congruence.
        - intros d Hin. apply in_app_or in Hin. destruct Hin as [Hin|[<-|[]]].
          + now apply Hold.
          + exists (set_hp t hp_t). split; [|split].
            * rewrite Hb. apply in_map_iff. exists t. split; [|exact Hint].
              unfold g, at_cell. now rewrite Cell_eqb_refl.
            * reflexivity.
            * exact Ehp. }
      destruct Hgoal as [G1 G2]. specialize (IH G1 G2).
      destruct IH as (I1 & I2 & I3 & I4).
      split; [exact I1|]. split; [exact I2|]. split; [exact I3|].
      intros x Hx Hdead. apply I4; [now apply Hstay | exact Hdead].
Qed.


(** A card that is down is not hit again, so it is not counted among the
    dead unless it was before. *)
Lemma fight_spares_down (h : Heap) (refs : list BoardCard) (x : BoardCard) :
  forall st,
    board_wf (cb_board st) ->
    In x (cb_board st) -> is_alive x = false ->
    ~ In (cell_of x) (map cell_of (cb_dead_cards st)) ->
    let st' := fold_left (attack_turn heal h) refs st in
    In x (cb_board st')
    /\ ~ In (cell_of x) (map cell_of (cb_dead_cards st')).
Proof.
  induction refs as [|ref refs IH]; intros st Hwf Hx Hdown Hnot; cbn zeta.
  - cbn [fold_left]. auto.
  - cbn [fold_left].
    assert (Hwf' := attack_turn_wf heal h st ref Hwf).
    destruct (attack_turn_cases h st ref) as [E | Hhit].
    + rewrite E in *. apply IH; assumption.
    + destruct Hhit as (a & t & hp_a & hp_t & Hina & Hala & Hint & Halt & Ho
                        & Hb & Hd).
      assert (Hnt : cell_of x <> cell_of t).
      { intros E. rewrite (wf_same_cell _ _ _ Hwf Hx Hint E) in Hdown.
        congruence. }
      assert (Hna : cell_of x <> cell_of a).
      { intros E. rewrite (wf_same_cell _ _ _ Hwf Hx Hina E) in Hdown.
        congruence. }
      apply IH; [exact Hwf'| | exact Hdown |].
      * rewrite Hb. apply in_map_iff. exists x. split; [|exact Hx].
        unfold at_cell. apply Cell_eqb_neq in Hnt, Hna. now rewrite Hnt, Hna.
      * rewrite Hd. destruct (0 <? hp_t); [exact Hnot|].
        rewrite map_app, in_app_iff. cbn [map In]. intuition congruence.
Qed.

Lemma remove_length (b : Board.t) (d : BoardCard) :
  board_wf b -> In (cell_of d) (map cell_of b) ->
  S (List.length (Board.remove b (col d) (row d) (owner d))) = List.length b.
Proof.
  unfold board_wf, Board.remove. change (col d, row d, owner d) with (cell_of d).
  induction b as [|x b IH]; [intros _ []|].
  cbn [map filter List.length]. intros Hnd Hin.
  inversion Hnd as [|? ? Hnotin Hnd']; subst.
  destruct (Cell_eqb (cell_of x) (cell_of d)) eqn:E.
  - unfold at_cell at 1. rewrite E. cbn [negb]. f_equal.
    apply Cell_eqb_eq in E.
    assert (Habs : Board.get b (col d) (row d) (owner d) = None).
    { apply get_None_iff. intros y Hy Hc. apply Hnotin. rewrite E.
      change (col d, row d, owner d) with (cell_of d) in Hc. rewrite <- Hc.
      now apply in_map. }
    apply remove_absent in Habs. unfold Board.remove in Habs.
    change (col d, row d, owner d) with (cell_of d) in Habs. now rewrite Habs.
  - unfold at_cell at 1. rewrite E. cbn [negb List.length]. f_equal.
    apply IH; [exact Hnd'|]. destruct Hin as [Hin|Hin]; [|exact Hin].
    apply Cell_eqb_neq in E. congruence.
Qed.

Lemma bury_length (dead : list BoardCard) :
  forall b : Board.t,
    board_wf b -> NoDup (map cell_of dead) ->
    (forall d, In d dead -> In (cell_of d) (map cell_of b)) ->
    (List.length (bury b dead) + List.length dead = List.length b)%nat.
Proof.
  unfold bury. induction dead as [|d dead IH]; intros b Hwf Hnd Hin.
  - cbn. lia.
  - cbn [fold_left List.length]. cbn [map] in Hnd.
    inversion Hnd as [|? ? Hnotin Hnd']; subst.
    rewrite <- (remove_length b d Hwf (Hin d (or_introl eq_refl))).
    rewrite <- (IH (Board.remove b (col d) (row d) (owner d))); [lia| | |].
    + now apply remove_wf.
    + exact Hnd'.
    + intros e He. specialize (Hin e (or_intror He)).
      apply in_map_iff in Hin. destruct Hin as (y & Hy & Hyb).
      apply in_map_iff. exists y. split; [exact Hy|].
      apply remove_In. split; [exact Hyb|].
      change (col d, row d, owner d) with (cell_of d). rewrite Hy.
      intros E. apply Hnotin. rewrite <- E. now apply in_map.
Qed.


(** The casualties of a round, on a board with one card per cell.  No cell
    is listed twice among the dead; each dead card had no HP left when the
    attacks were over; the board Resolve returns is the board it was given
    without the cells of the dead, every other card in its cell and in
    placement order, so the two boards differ by as many cards as were
    destroyed.  A card that enters the round without HP is neither hit nor
    removed: it is still on the board, with the HP it had. *)
Theorem round_casualties (s : GameState) :
  board_wf (board s) ->
  let s' := fst (phase_resolve heal s) in
  let dead := round_dead heal s in
  let fought :=
    cb_board (fight heal (heap s)
                    (fst (prepare (heap s) (board s)
                                  (current_round s =? ROUNDS_PER_MATCH)))) in
  NoDup (map cell_of dead)
  /\ (forall d, In d dead ->
        exists x, Board.get fought (col d) (row d) (owner d) = Some x
                  /\ current_hp x <= 0)
  /\ shape (board s')
     = filter (fun e => forallb (fun d => negb (Cell_eqb (fst e) (cell_of d)))
                                dead)
              (shape (board s))
  /\ (List.length (board s') + List.length dead = List.length (board s))%nat
  /\ (forall x, In x (board s) -> is_alive x = false ->
        exists x', Board.get (board s') (col x) (row x) (owner x) = Some x'
                   /\ instance x' = instance x
                   /\ current_hp x' = current_hp x).
Proof.
  intros Hwf. cbn zeta. rewrite resolve_board. unfold resolved_board, round_dead.
  cbv zeta.
  set (veil := current_round s =? ROUNDS_PER_MATCH).
  assert (Hwfp := prepare_wf (heap s) (board s) veil Hwf).
  set (b := fst (prepare (heap s) (board s) veil)) in *.
  destruct (fight_shape heal (heap s) b) as [Hshape Hdeadin].
  assert (Hsb : shape b = shape (board s)) by apply prepare_shape.
  unfold fight in *.
  set (refs := Py.sort_desc (speed_key (heap s)) (Board.all_cards b)) in *.
  destruct (fight_dead (heap s) refs (mkCombat b [] 0 []) Hwfp)
    as (Hwf' & Hnd & Hdown & _); [constructor | intros d [] |].
  set (st := fold_left (attack_turn heal (heap s)) refs (mkCombat b [] 0 []))
    in *.
  split; [exact Hnd|]. split; [|split; [|split]].
  - intros d Hd. destruct (Hdown d Hd) as (x & Hx & Hc & Hdead).
    exists x. split.
    + apply (get_of_member _ _ Hwf') in Hx.
      assert (E3 : (col x, row x, owner x) = (col d, row d, owner d)) by exact Hc.
      injection E3 as <- <- <-. exact Hx.
    + unfold is_alive in Hdead. apply Z.ltb_ge in Hdead. exact Hdead.
  - rewrite bury_filter.
    rewrite <- Hsb, <- Hshape.
    exact (shape_filter
             (fun e => forallb (fun d => negb (Cell_eqb (fst e) (cell_of d)))
                               (cb_dead_cards st))
             (cb_board st)).
  - rewrite <- (shape_length (cb_board st) (board s))
      by (rewrite Hshape; exact Hsb).
    apply bury_length; [exact Hwf' | exact Hnd |].
    intros d Hd. specialize (Hdeadin d Hd).
    rewrite <- shape_cells, Hshape.
    apply in_map_iff. exists (cell_of d, instance d). now split.
  - intros x Hx Hdead.
    set (x0 := add_bonus x (round_bonus (heap s) (board s) veil x)).
    assert (Hx0 : In x0 b).
    { unfold b. rewrite (prepare_closed (heap s) (board s) veil Hwf).
      cbn [fst]. apply in_map_iff. exists x. now split. }
    destruct (fight_spares_down (heap s) refs x0 (mkCombat b [] 0 []) Hwfp
                                Hx0 Hdead) as [Hin Hnot]; [intros []|].
    fold st in Hin, Hnot. exists x0. split; [|split; reflexivity].
    refine (get_of_member _ x0 _ _).
    + unfold board_wf. rewrite bury_filter.
      apply NoDup_map_inv with (f := fun k : Cell => k). rewrite map_id.
      clear - Hwf'. unfold board_wf in Hwf'.
      induction (cb_board st) as [|y l IH]; [constructor|].
      cbn [map filter] in *. inversion Hwf' as [|? ? Hn Hnd]; subst.
      destruct (forallb _ _); [|auto]. cbn [map]. constructor; [|auto].
      intros Hy. apply Hn. apply in_map_iff in Hy. destruct Hy as (z & Hz & Hzl).
      apply filter_In in Hzl. apply in_map_iff. exists z. tauto.
    + apply bury_In. split; [exact Hin|]. intros d Hd E. apply Hnot.
      rewrite E. now apply in_map.
Qed.

End CombatLog.

Section CombatExamples.

(** The skirmish: Ashling falls to Duskwarden; one card is destroyed and one
    is left on the board. *)
Lemma round_casualties_witness :
  board_wf (board skirmish_revealed)
  /\ map cell_of (round_dead Cards.exact_heal skirmish_revealed)
     = [(0, FRONT, ONE)]
  /\ (List.length (board skirmish_resolved)
      + List.length (round_dead Cards.exact_heal skirmish_revealed)
      = List.length (board skirmish_revealed))%nat.
Proof.
  assert (Hwf : board_wf (board skirmish_revealed)).
  { unfold board_wf. cbn. repeat constructor; cbn; intuition discriminate. }
  split; [exact Hwf|]. split; [reflexivity|].
  pose proof (round_casualties Cards.exact_heal skirmish_revealed Hwf) as H.
  cbv zeta in H. destruct H as (_ & _ & _ & H & _). exact H.
Defined.

End CombatExamples.

(* ------------------------------------------------------------------ *)
(** ** Levels and XP *)
(* ------------------------------------------------------------------ *)

Section Levels.

Lemma levels_cost_next (lvl : Z) :
  1 <= lvl -> levels_cost (lvl + 1) = levels_cost lvl + xp_threshold lvl.
Proof.
  intros H. unfold levels_cost.
  replace (Z.to_nat (lvl + 1) - 1)%nat with (S (Z.to_nat lvl - 1)) by lia.
  rewrite seq_S, map_app. cbn [map].
  replace (Z.of_nat (1 + (Z.to_nat lvl - 1))) with lvl by lia.
  unfold Py.sum. rewrite fold_left_app. cbn [fold_left]. lia.
Qed.

(** [add_xp]: the card levels when, with the new XP, it holds the threshold
    of its level and is below level 5, and then by one level only, paying
    the threshold; attack grows by 1 and maximum defense by 2 with the level.
    Nothing is lost: XP held plus XP paid for levels grows by the amount
    given.  Identity, loss count and dormancy are not written. *)
Theorem add_xp_accounting (c : CardInstance) (amount : Z) :
  1 <= level c ->
  let up := fst (add_xp c amount) in
  let c' := snd (add_xp c amount) in
  (up = true <-> xp_threshold (level c) <= xp c + amount /\ level c < 5)
  /\ level c' = level c + (if up then 1 else 0)
  /\ xp c' = xp c + amount - (if up then xp_threshold (level c) else 0)
  /\ lifetime_xp c' = lifetime_xp c + amount
  /\ attack c' = attack c + (if up then 1 else 0)
  /\ max_defense c' = max_defense c + (if up then 2 else 0)
  /\ grows c c'
  /\ consecutive_losses c' = consecutive_losses c
  /\ is_dormant c' = is_dormant c.
Proof.
  intros Hl. cbv zeta. unfold add_xp, level_up, lifetime_xp, attack, max_defense, grows.
  cbn [level xp set_level_xp].
  destruct (xp_threshold (level c) <=? xp c + amount) eqn:Et;
    destruct (level c <? 5) eqn:El; cbn [andb fst snd level xp set_level_xp
      instance_id definition inst_owner consecutive_losses is_dormant];
    try apply Z.leb_le in Et; try apply Z.leb_gt in Et;
    try apply Z.ltb_lt in El; try apply Z.ltb_ge in El;
    try rewrite (levels_cost_next _ Hl);
    (split; [split; [intros; try discriminate; lia | intros; try reflexivity; lia]|]);
    repeat split; try lia; auto.
Qed.


Lemma add_xp_grows (c : CardInstance) (amount : Z) :
  grows c (snd (add_xp c amount)).
Proof.
  unfold add_xp, level_up, grows. cbn [level xp set_level_xp].
  destruct (xp_threshold (level c) <=? xp c + amount);
    destruct (level c <? 5) eqn:El; cbn [andb snd level set_level_xp
      instance_id definition inst_owner is_dormant];
    try apply Z.ltb_lt in El; repeat split; auto; lia.
Qed.

Lemma grows_refl (c : CardInstance) : grows c c.
Proof. unfold grows. repeat split; auto; lia. Qed.

Lemma grows_trans (a b c : CardInstance) : grows a b -> grows b c -> grows a c.
Proof.
  unfold grows. intros (A1 & A2 & A3 & A4 & A5 & A6) (B1 & B2 & B3 & B4 & B5 & B6).
  repeat split; try congruence; try lia; auto.
Qed.

(** A loop whose turns let every card object grow lets them grow. *)
Lemma fold_grows {A} (g : Heap -> A -> Heap) (L : list A) :
  (forall h a l, grows (h l) (g h a l)) ->
  forall h l, grows (h l) (fold_left g L h l).
Proof.
  intros Hg. induction L as [|a L IH]; intros h l; cbn [fold_left].
  - apply grows_refl.
  - eapply grows_trans; [apply Hg | apply IH].
Qed.

Lemma heap_set_grows (h : Heap) (x : Loc) (c : CardInstance) :
  grows (h x) c -> forall l, grows (h l) (heap_set h x c l).
Proof.
  intros H l. unfold heap_set. destruct (Nat.eqb l x) eqn:E.
  - apply Nat.eqb_eq in E. now subst.
  - apply grows_refl.
Qed.

Lemma heap_add_xp_grows (amount : Z) (h : Heap) (x l : Loc) :
  grows (h l) (heap_add_xp amount h x l).
Proof. apply heap_set_grows, add_xp_grows. Qed.

Lemma track_loss_grows (names : list string) (h : Heap) (x l : Loc) :
  grows (h l) (track_loss names h x l).
Proof.
  unfold track_loss. cbv zeta.
  destruct (name_in _ names); apply heap_set_grows; unfold grows;
    cbn [set_losses instance_id definition inst_owner level is_dormant];
    repeat split; auto; try lia.
  intros ->. now destruct (_ <=? _).
Qed.

Lemma cleanup_heap_grows (s : GameState) (r : RoundResult) (l : Loc) :
  grows (heap s l) (cleanup_heap s r l).
Proof.
  unfold cleanup_heap. cbv zeta.
  set (h1 := fold_left _ (Board.all_cards (board s)) (heap s)).
  set (h2 := fold_left _ (events r) h1).
  assert (G1 : grows (heap s l) (h1 l)).
  { apply fold_grows. intros h c l'. apply heap_add_xp_grows. }
  assert (G2 : grows (h1 l) (h2 l)).
  { apply fold_grows. intros h e l'. unfold reward_destroyed.
    destruct (defender_destroyed e); [|apply grows_refl].
    apply fold_grows. intros h' x l''. unfold reward_named.
    destruct (String.eqb _ _); [apply heap_add_xp_grows | apply grows_refl]. }
  destruct (round_winner r).
  - eapply grows_trans; [exact G1|]. eapply grows_trans; [exact G2|].
    apply fold_grows. intros h x l'. apply track_loss_grows.
  - eapply grows_trans; eassumption.
Qed.

End Levels.

(* ------------------------------------------------------------------ *)
(** ** What a match never does to its cards and its record *)
(* ------------------------------------------------------------------ *)

Section Match.

Variable heal : Z -> Q -> Z.

Lemma step_heap (s s' : GameState) (l : Loc) :
  step heal s s' -> grows (heap s l) (heap s' l).
Proof.
  intros H. destruct H.
  - apply grows_refl.
  - apply grows_refl.
  - destruct (apply_placement_reshuffled s pl batch) as [-> _].
    apply grows_refl.
  - apply grows_refl.
  - rewrite resolve_heap. apply grows_refl.
  - unfold phase_cleanup. destruct (last_result (round_history s)) as [r|];
      cbn [state_after heap]; [apply cleanup_heap_grows | apply grows_refl].
Qed.

(** Through any sequence of engine calls a card object stays the same copy
    of the same card of the same owner; its level never drops, and never
    passes 5 when it started at 5 or below; a dormant card stays dormant. *)
Theorem cards_only_grow (s s' : GameState) :
  steps heal s s' -> forall l, grows (heap s l) (heap s' l).
Proof.
  induction 1 as [s | s s1 s2 Hstep _ IH]; intros l.
  - apply grows_refl.
  - eapply grows_trans; [apply step_heap; exact Hstep | apply IH].
Qed.

Lemma record_grows_refl (s : GameState) : record_grows s s.
Proof.
  unfold record_grows. split; [reflexivity|]. split; [exists []; now rewrite app_nil_r|].
  split; [lia|]. intros p. repeat split; lia.
Qed.

Lemma record_grows_trans (a b c : GameState) :
  record_grows a b -> record_grows b c -> record_grows a c.
Proof.
  unfold record_grows. intros (A1 & [m1 A2] & A3 & A4) (B1 & [m2 B2] & B3 & B4).
  split; [congruence|]. split; [exists (m1 ++ m2); rewrite B2, A2; now rewrite app_assoc|].
  split; [lia|]. intros p. destruct (A4 p) as (? & ? & ?).
  destruct (B4 p) as (? & ? & ?). repeat split; try congruence; lia.
Qed.

Lemma apply_loop_record (pl : Player) (batch : list Placement) :
  forall (s : GameState) (t : Z),
    record_grows s (state_after fst (apply_loop s pl batch t)).
Proof.
  induction batch as [|p batch IH]; intros s t; cbn [apply_loop].
  - apply record_grows_refl.
  - cbv zeta.
    destruct (find_in_hand _ _ _) as [l|]; [|apply record_grows_refl].
    destruct (Board.place _ _) as [b'|]; [|apply record_grows_refl].
    eapply record_grows_trans; [|apply IH].
    unfold record_grows, take_from_hand. cbv zeta.
    destruct pl; cbn; (split; [reflexivity|]);
      (split; [exists []; now rewrite app_nil_r|]); (split; [lia|]);
      intros []; cbn; repeat split; lia.
Qed.

Lemma score_round_points (b : Board.t) :
  0 <= snd (score_round b) <= 2
  /\ (fst (score_round b) = None -> snd (score_round b) = 0).
Proof.
  unfold score_round. cbv zeta.
  repeat match goal with
         | |- context [if ?c then _ else _] => destruct c
         end; cbn [fst snd]; split; try lia; intros; try discriminate; reflexivity.
Qed.

Lemma step_record (s s' : GameState) : step heal s s' -> record_grows s s'.
Proof.
  intros H. destruct H.
  - unfold record_grows. cbn. split; [reflexivity|].
    split; [exists []; now rewrite app_nil_r|]. split; [lia|].
    intros []; cbn; repeat split; lia.
  - unfold record_grows. cbn. split; [reflexivity|].
    split; [exists []; now rewrite app_nil_r|]. split; [lia|].
    intros []; cbn; repeat split; lia.
  - unfold apply_placement.
    pose proof (apply_loop_record pl batch s 0) as Hl.
    destruct (apply_loop s pl batch 0) as [[s1 t]|e s1]; cbn [state_after fst] in *;
      [|exact Hl].
    eapply record_grows_trans; [exact Hl|].
    unfold record_grows, pay_mana.
    destruct (mana (get_player_state s1 pl) <? t);
      destruct pl; cbn; (split; [reflexivity|]);
      (split; [exists []; now rewrite app_nil_r|]); (split; [lia|]);
      intros []; cbn; repeat split; lia.
  - unfold record_grows. cbn. split; [reflexivity|].
    split; [exists []; now rewrite app_nil_r|]. split; [lia|].
    intros []; cbn; repeat split; lia.
  - unfold record_grows. rewrite resolve_round.
    split; [cbn; now destruct (fst (score_round _)) as [[]|]|].
    split; [exists [snd (phase_resolve heal s)]; unfold phase_resolve; cbv zeta;
            cbn [fst snd round_history]; f_equal;
            destruct (fst (score_round _)) as [[]|]; reflexivity|].
    split; [lia|]. intros p. rewrite resolve_player. cbv zeta.
    destruct (score_round_points (resolved_board heal s)) as [Hp _].
    destruct (fst (score_round _)) as [w|]; [|repeat split; lia].
    destruct (Player_eqb w p); cbn; repeat split; lia.
  - unfold phase_cleanup. destruct (last_result (round_history s)) as [r|];
      cbn [state_after]; [|apply record_grows_refl].
    unfold record_grows. cbn. split; [reflexivity|].
    split; [exists []; now rewrite app_nil_r|]. split; [lia|].
    unfold clear_debt, return_cards.
    intros []; cbn;
      match goal with |- context [if ?c then _ else _] => destruct c end;
      cbn; repeat split; lia.
Qed.

(** Through any sequence of engine calls the match keeps its id, the round
    history only grows at its end, and the round number and both scores
    never drop; the players' [hp] is never written. *)
Theorem match_record_grows (s s' : GameState) :
  steps heal s s' -> record_grows s s'.
Proof.
  induction 1 as [s | s s1 s2 Hstep _ IH].
  - apply record_grows_refl.
  - eapply record_grows_trans; [apply step_record; exact Hstep | exact IH].
Qed.

End Match.

Section MatchExamples.

(** The skirmish, call by call: two placements, Reveal, Resolve, Cleanup. *)
Lemma skirmish_steps : steps Cards.exact_heal skirmish_start skirmish_cleaned.
Proof.
  unfold skirmish_cleaned, skirmish_resolved, skirmish_revealed, skirmish_placed.
  refine (steps_step _ _ _ _ (step_placement _ _ _ _) _).
  refine (steps_step _ _ _ _ (step_placement _ _ _ _) _).
  refine (steps_step _ _ _ _ (step_reveal _ _) _).
  refine (steps_step _ _ _ _ (step_resolve _ _) _).
  refine (steps_step _ _ _ _ (step_cleanup _ _) _).
  exact (steps_refl _ _).
Qed.

(** A fresh Ashling given 120 XP reaches level 2 and keeps 20 XP. *)
Lemma add_xp_accounting_witness :
  let c := Cards.make_instance "a" Cards.ashling ONE in
  1 <= level c
  /\ level (snd (add_xp c 120)) = 2
  /\ xp (snd (add_xp c 120)) = 20
  /\ lifetime_xp (snd (add_xp c 120)) = lifetime_xp c + 120.
Proof.
  cbv zeta.
  assert (Hl : 1 <= level (Cards.make_instance "a" Cards.ashling ONE))
    by (cbn; lia).
  pose proof (add_xp_accounting (Cards.make_instance "a" Cards.ashling ONE)
                                120 Hl) as H.
  cbv zeta in H. destruct H as (_ & _ & _ & H & _).
  split; [exact Hl|]. split; [reflexivity|]. split; [reflexivity | exact H].
Defined.

(** The surviving Duskwarden of the skirmish after Cleanup: the same card,
    now with 20 XP. *)
Lemma cards_only_grow_witness :
  steps Cards.exact_heal skirmish_start skirmish_cleaned
  /\ grows (heap skirmish_start 1%nat) (heap skirmish_cleaned 1%nat)
  /\ xp (heap skirmish_cleaned 1%nat) = 20.
Proof.
  split; [exact skirmish_steps|].
  split; [exact (cards_only_grow Cards.exact_heal _ _ skirmish_steps 1%nat)
         | reflexivity].
Defined.

(** The record of the skirmish after Cleanup: one round in the history,
    round 2 next, two points for player two. *)
Lemma match_record_grows_witness :
  steps Cards.exact_heal skirmish_start skirmish_cleaned
  /\ record_grows skirmish_start skirmish_cleaned
  /\ List.length (round_history skirmish_cleaned) = 1%nat
  /\ current_round skirmish_cleaned = 2
  /\ score (player2 skirmish_cleaned) = 2.
Proof.
  split; [exact skirmish_steps|].
  split; [exact (match_record_grows Cards.exact_heal _ _ skirmish_steps)|].
  split; [reflexivity|]. split; reflexivity.
Defined.

End MatchExamples.

(* ------------------------------------------------------------------ *)
(** ** What [validate_placement] accepts *)
(* ------------------------------------------------------------------ *)

Section Validation.

Lemma sum_cons (x : Z) (l : list Z) : Py.sum (x :: l) = x + Py.sum l.
Proof.
  assert (H : forall (l : list Z) (a : Z),
             fold_left Z.add l a = a + fold_left Z.add l 0).
  { clear. induction l as [|y l IH]; intros a; cbn [fold_left]; [lia|].
    rewrite (IH (a + y)), (IH (0 + y)). lia. }
  unfold Py.sum. cbn [fold_left]. rewrite H. lia.
Qed.

Lemma cell_used_false (P : list (Z * Row)) (c : Z) (r : Row) :
  cell_used P c r = false <-> ~ In (c, r) P.
Proof.
  unfold cell_used. induction P as [|[c' r'] P IH]; cbn [existsb In fst snd].
  - tauto.
  - rewrite orb_false_iff, IH. split.
    + intros [H1 H2] [E|E]; [|tauto]. injection E as -> ->.
      now rewrite Z.eqb_refl, Row_eqb_refl in H1.
    + intros H. split; [|tauto].
      destruct (c' =? c) eqn:Ec; [|reflexivity].
      destruct (Row_eqb r' r) eqn:Er; [|reflexivity].
      apply Z.eqb_eq in Ec. apply Row_eqb_eq in Er. subst. tauto.
Qed.

Lemma validate_loop_spec (h : Heap) (ps : PlayerState) (b : Board.t)
      (pl : Player) (batch : list Placement) :
  forall (t : Z) (P : list (Z * Row)),
    (forall total,
        validate_loop h ps b pl batch t P = inr total <->
        (forall p, In p batch ->
                   placement_ok h ps b pl p /\ ~ In (p_col p, p_row p) P)
        /\ NoDup (map (fun p => (p_col p, p_row p)) batch)
        /\ total = t + batch_cost h (hand ps) batch)
    /\ (forall r, validate_loop h ps b pl batch t P <> inl (ForeignRow pl r)).
Proof.
  induction batch as [|p rest IH]; intros t P.
  - split.
    + intros total. cbn [validate_loop map]. unfold batch_cost. cbn [map].
      change (Py.sum []) with 0. split.
      * intros [= <-]. split; [intros q []|]. split; [constructor | lia].
      * intros (_ & _ & ->). f_equal. lia.
    + intros r. discriminate.
  - destruct (IH (t + match find_in_hand h (hand ps) (card_instance_id p) with
                      | Some l => mana_cost (definition (h l))
                      | None => 0
                      end)
                 ((p_col p, p_row p) :: P)) as [IH1 IH2].
    assert (Hcost : batch_cost h (hand ps) (p :: rest)
                    = match find_in_hand h (hand ps) (card_instance_id p) with
                      | Some l => mana_cost (definition (h l))
                      | None => 0
                      end + batch_cost h (hand ps) rest).
    { unfold batch_cost. cbn [map]. apply sum_cons. }
    cbn [validate_loop]. cbv zeta.
    assert (Hrows : negb (existsb (Row_eqb (p_row p)) (_valid_rows_for pl))
                    = false) by (destruct (p_row p); reflexivity).
    rewrite Hrows.
    destruct (find_in_hand h (hand ps) (card_instance_id p)) as [l|] eqn:Hf.
    2:{ split; [|discriminate]. intros total. split; [discriminate|].
        intros (Hall & _). destruct (Hall p (or_introl eq_refl))
          as [((l & Hl & _) & _) _]. congruence. }
    destruct (is_dormant (h l)) eqn:Hd.
    { split; [|discriminate]. intros total. split; [discriminate|].
      intros (Hall & _). destruct (Hall p (or_introl eq_refl))
        as [((l' & Hl & Hd') & _) _]. congruence. }
    destruct ((0 <=? p_col p) && (p_col p <=? 3)) eqn:Hc; cbn [negb].
    2:{ split; [|discriminate]. intros total. split; [discriminate|].
        intros (Hall & _). destruct (Hall p (or_introl eq_refl))
          as [(_ & Hcol & _) _].
        apply andb_false_iff in Hc. rewrite Z.leb_gt, Z.leb_gt in Hc. lia. }
    apply andb_true_iff in Hc. rewrite !Z.leb_le in Hc.
    destruct (cell_used P (p_col p) (p_row p)) eqn:Hu.
    { split; [|discriminate]. intros total. split; [discriminate|].
      intros (Hall & _). destruct (Hall p (or_introl eq_refl)) as [_ Hn].
      apply cell_used_false in Hn. congruence. }
    apply cell_used_false in Hu.
    destruct (Board.get b (p_col p) (p_row p) pl) eqn:Hg.
    { split; [|discriminate]. intros total. split; [discriminate|].
      intros (Hall & _). destruct (Hall p (or_introl eq_refl))
        as [(_ & _ & Hfree) _]. congruence. }
    split; [|exact IH2]. intros total. rewrite IH1, Hcost. cbn [map].
    split.
    + intros (Hall & Hnd & ->). split; [|split; [|lia]].
      * intros q [<- | Hq].
        -- split; [|exact Hu]. split; [exists l; auto|]. split; [lia | exact Hg].
        -- destruct (Hall q Hq) as [Hok Hn]. split; [exact Hok|].
           cbn [In] in Hn. tauto.
      * constructor; [|exact Hnd]. intros Hin. apply in_map_iff in Hin.
        destruct Hin as (q & Hq & Hqin). destruct (Hall q Hqin) as [_ Hn].
        apply Hn. left. congruence.
    + intros (Hall & Hnd & ->). inversion Hnd as [|? ? Hfresh Hnd']; subst.
      split; [|split; [exact Hnd' | lia]].
      intros q Hq. destruct (Hall q (or_intror Hq)) as [Hok Hn].
      split; [exact Hok|]. intros [E | Hin]; [|tauto].
      apply Hfresh. apply in_map_iff. exists q. split; [congruence | exact Hq].
Qed.

(** [validate_placement] accepts a batch exactly when every entry names a
    card of the hand that is not dormant, a column from 0 to 3 and a free
    cell of the player, no cell is named twice, and the cost is within the
    mana or over it by at most 3 with the Veil Surge unused.  The message is
    empty exactly when the batch is accepted, and the row check never
    fails: both rows are valid for both players. *)
Theorem validate_placement_iff (s : GameState) (pl : Player)
        (batch : list Placement) :
  let ps := get_player_state s pl in
  (fst (validate_placement s pl batch) = true <->
   (forall p, In p batch -> placement_ok (heap s) ps (board s) pl p)
   /\ NoDup (map (fun p => (p_col p, p_row p)) batch)
   /\ affordable ps (batch_cost (heap s) (hand ps) batch))
  /\ (fst (validate_placement s pl batch) = true <->
      snd (validate_placement s pl batch) = None)
  /\ (forall r, snd (validate_placement s pl batch) <> Some (ForeignRow pl r)).
Proof.
  cbv zeta. unfold validate_placement. cbv zeta.
  destruct (validate_loop_spec (heap s) (get_player_state s pl) (board s) pl
                               batch 0 []) as [Hspec Hrow].
  destruct (validate_loop (heap s) (get_player_state s pl) (board s) pl batch
                          0 []) as [err|total] eqn:Hloop.
  - cbn [fst snd]. split; [|split].
    + split; [discriminate|]. intros (Hall & Hnd & _). exfalso.
      assert (H : @inl PlacementError Z err
                  = inr (0 + batch_cost (heap s)
                                 (hand (get_player_state s pl)) batch)).
      { apply Hspec. split; [|split; [exact Hnd | reflexivity]].
        intros p Hp. split; [now apply Hall | intros []]. }
      discriminate.
    + split; discriminate.
    + intros r [= ->]. now apply (Hrow r).
  - destruct (proj1 (Hspec total) eq_refl) as (Hall & Hnd & Htot).
    assert (Hcost : batch_cost (heap s) (hand (get_player_state s pl)) batch
                    = total) by lia.
    rewrite Hcost. unfold mana_check, affordable. cbv zeta.
    destruct (Z.ltb_spec (mana (get_player_state s pl)) total) as [Hlt|Hge].
    + destruct (veil_surge_used (get_player_state s pl)); cbn [orb fst snd].
      * split; [|split; [split; discriminate | discriminate]].
        split; [discriminate|]. intros (_ & _ & [H | [H _]]); [lia | discriminate].
      * destruct (Z.ltb_spec VEIL_SURGE_MAX
                             (total - mana (get_player_state s pl)));
          cbn [fst snd]; (split; [|split; [split; congruence | discriminate]]).
        -- split; [discriminate|]. intros (_ & _ & [H' | [_ H']]); lia.
        -- split; [|reflexivity]. intros _.
           split; [intros p Hp; now apply Hall|]. split; [exact Hnd|].
           right. split; [reflexivity | lia].
    + cbn [fst snd]. split; [|split; [split; reflexivity | discriminate]].
      split; [|reflexivity]. intros _.
      split; [intros p Hp; now apply Hall|]. split; [exact Hnd|]. left. lia.
Qed.

Lemma only_placed_refl (s : GameState) (pl : Player) : only_placed s s pl.
Proof. unfold only_placed. repeat split; reflexivity. Qed.

Lemma only_placed_trans (a b c : GameState) (pl : Player) :
  only_placed a b pl -> only_placed b c pl -> only_placed a c pl.
Proof.
  unfold only_placed.
  intros (A1 & A2 & A3 & A4 & A5 & A6 & A7 & A8 & A9 & A10 & A11)
         (B1 & B2 & B3 & B4 & B5 & B6 & B7 & B8 & B9 & B10 & B11).
  repeat split; congruence.
Qed.

Lemma take_from_hand_only (s : GameState) (pl : Player) (l : Loc) (b' : Board.t) :
  only_placed s (take_from_hand (with_board s b') pl l) pl
  /\ mana (get_player_state (take_from_hand (with_board s b') pl l) pl)
     = mana (get_player_state s pl)
  /\ veil_surge_used (get_player_state (take_from_hand (with_board s b') pl l) pl)
     = veil_surge_used (get_player_state s pl).
Proof.
  unfold only_placed, take_from_hand. destruct pl; cbn; repeat split; reflexivity.
Qed.

(** A batch that passes the checks and names each card once goes through the
    loop of [apply_placement]: each entry puts its card at the end of the
    board and takes it off the hand. *)
Lemma validated_loop_result (pl : Player) (psV : PlayerState) (B : Board.t)
      (h : Heap) :
  forall (batch : list Placement) (s : GameState) (P : list (Z * Row))
         (t total : Z),
    heap s = h ->
    NoDup (map card_instance_id batch) ->
    (forall cid, In cid (map card_instance_id batch) ->
       find_in_hand h (hand (get_player_state s pl)) cid
       = find_in_hand h (hand psV) cid) ->
    (forall c r, Board.get (board s) c r pl = None <->
                 Board.get B c r pl = None /\ cell_used P c r = false) ->
    validate_loop h psV B pl batch t P = inr total ->
    exists s', apply_loop s pl batch t = Ok (s', total)
               /\ board s' = board s ++ flat_map (placed_card h (hand psV) pl) batch
               /\ hand (get_player_state s' pl)
                  = fold_left (fun hd c => list_remove (instance c) hd)
                              (flat_map (placed_card h (hand psV) pl) batch)
                              (hand (get_player_state s pl))
               /\ only_placed s s' pl
               /\ mana (get_player_state s' pl) = mana (get_player_state s pl)
               /\ veil_surge_used (get_player_state s' pl)
                  = veil_surge_used (get_player_state s pl).
Proof.
  induction batch as [|p rest IH]; intros s P t total Hh Hnd Hhand Hboard Hval.
  - cbn in Hval. injection Hval as <-. exists s. cbn [apply_loop flat_map fold_left].
    rewrite app_nil_r. split; [reflexivity|]. split; [reflexivity|].
    split; [reflexivity|]. split; [apply only_placed_refl|]. split; reflexivity.
  - cbn [validate_loop] in Hval. cbn [apply_loop]. subst h.
    cbn [map] in Hnd, Hhand. inversion Hnd as [|? ? Hfresh Hnd']; subst.
    rewrite (Hhand (card_instance_id p)) by now left.
    cbn [flat_map]. unfold placed_card at 1 3.
    destruct (find_in_hand (heap s) (hand psV) (card_instance_id p))
      as [l|] eqn:Hfind; [|discriminate].
    destruct (is_dormant (heap s l)); [discriminate|].
    destruct (negb (existsb (Row_eqb (p_row p)) (_valid_rows_for pl)));
      [discriminate|].
    destruct (negb ((0 <=? p_col p) && (p_col p <=? 3))); [discriminate|].
    destruct (cell_used P (p_col p) (p_row p)) eqn:Hused; [discriminate|].
    destruct (Board.get B (p_col p) (p_row p) pl) eqn:HB; [discriminate|].
    assert (Hfree : Board.get (board s) (p_col p) (p_row p) pl = None)
      by (apply Hboard; auto).
    unfold Board.place. cbn [col row owner]. rewrite Hfree.
    destruct (find_in_hand_id _ _ _ _ Hfind) as [_ Hid].
    set (card := mkBoardCard l (max_defense (heap s l)) (p_col p) (p_row p) pl
                             true false 0).
    destruct (take_from_hand_only s pl l (board s ++ [card])) as (Ho & Hm & Hv).
    set (s1 := take_from_hand (with_board s (board s ++ [card])) pl l) in *.
    assert (Hb1 : board s1 = board s ++ [card]).
    { unfold s1, take_from_hand. now rewrite board_set_player_state. }
    assert (Hh1 : hand (get_player_state s1 pl)
                  = list_remove l (hand (get_player_state s pl))).
    { unfold s1, take_from_hand. rewrite get_set_player_state.
      now rewrite get_player_state_with_board. }
    assert (Hheap1 : heap s1 = heap s) by apply Ho.
    destruct (IH s1 ((p_col p, p_row p) :: P)
                 (t + mana_cost (definition (heap s l))) total)
      as (s' & Ha & Hb & Hhd & Ho' & Hm' & Hv').
    + exact Hheap1.
    + assumption.
    + intros cid Hin. rewrite Hh1, <- Hhand by now right.
      apply find_remove_other. cbv beta. rewrite Hid.
      apply String.eqb_neq. intros E. subst cid. contradiction.
    + intros c r. rewrite Hb1.
      rewrite get_app. cbn [cell_used existsb fst snd].
      fold (cell_used P c r).
      unfold Board.get at 2. cbn [find]. unfold at_cell, cell_of, card.
      cbn [col row owner Cell_eqb]. rewrite Player_eqb_refl, andb_true_r.
      destruct (Board.get (board s) c r pl) eqn:Hs.
      * split; [discriminate|]. intros [HBc Hor].
        apply orb_false_iff in Hor. destruct Hor as [_ Hu].
        assert (Hn : Board.get (board s) c r pl = None) by (apply Hboard; auto).
        congruence.
      * assert (HP : Board.get B c r pl = None /\ cell_used P c r = false)
          by now apply Hboard.
        destruct HP as [HBc HPc]. rewrite HPc, orb_false_r.
        destruct ((p_col p =? c) && Row_eqb (p_row p) r); split;
          try discriminate; auto.
        intros [_ ?]; discriminate.
    + exact Hval.
    + exists s'. split; [exact Ha|]. split; [|split; [|split; [|split]]].
      * rewrite Hb, Hb1, <- app_assoc. reflexivity.
      * rewrite Hhd, Hh1. reflexivity.
      * eapply only_placed_trans; eassumption.
      * congruence.
      * congruence.
Qed.

Lemma list_remove_keeps (x l : Loc) (hd : list Loc) :
  In x hd -> x <> l -> In x (list_remove l hd).
Proof.
  intros Hin Hne. induction hd as [|y hd IH]; [contradiction|].
  cbn [list_remove]. destruct (Nat.eqb y l) eqn:E.
  - apply Nat.eqb_eq in E. destruct Hin as [->|Hin]; [congruence | exact Hin].
  - destruct Hin as [->|Hin]; [now left | right; auto].
Qed.

Lemma fold_remove_perm (cards : list BoardCard) :
  forall hd : list Loc,
    NoDup (map instance cards) ->
    (forall c, In c cards -> In (instance c) hd) ->
    Permutation hd
      (map instance cards
       ++ fold_left (fun hd c => list_remove (instance c) hd) cards hd).
Proof.
  induction cards as [|c cards IH]; intros hd Hnd Hin; cbn [map fold_left app].
  - reflexivity.
  - cbn [map] in Hnd. inversion Hnd as [|? ? Hfresh Hnd']; subst.
    rewrite <- (IH (list_remove (instance c) hd) Hnd').
    + symmetry. apply list_remove_perm. apply Hin. now left.
    + intros x Hx. apply list_remove_keeps; [apply Hin; now right|].
      intros E. apply Hfresh. rewrite <- E. now apply in_map.
Qed.

Lemma placed_cards_found (h : Heap) (hd : list Loc) (pl : Player)
      (batch : list Placement) :
  (forall p, In p batch ->
             exists l, find_in_hand h hd (card_instance_id p) = Some l) ->
  NoDup (map card_instance_id batch) ->
  List.length (flat_map (placed_card h hd pl) batch) = List.length batch
  /\ NoDup (map instance (flat_map (placed_card h hd pl) batch))
  /\ (forall c, In c (flat_map (placed_card h hd pl) batch) ->
                In (instance c) hd
                /\ In (instance_id (h (instance c)))
                      (map card_instance_id batch)).
Proof.
  induction batch as [|p rest IH]; intros Hall Hnd.
  - cbn. split; [reflexivity|]. split; [constructor | intros c []].
  - cbn [map] in Hnd. inversion Hnd as [|? ? Hfresh Hnd']; subst.
    destruct IH as (I1 & I2 & I3); [intros q Hq; apply Hall; now right
                                   | exact Hnd' |].
    destruct (Hall p (or_introl eq_refl)) as [l Hl].
    destruct (find_in_hand_id _ _ _ _ Hl) as [Hin Hid].
    cbn [flat_map]. unfold placed_card at 1 3 5. rewrite Hl.
    cbn [app List.length map instance]. split; [now rewrite I1|]. split.
    + constructor; [|exact I2]. intros Hl'. apply in_map_iff in Hl'.
      destruct Hl' as (c & Hc & Hcin). destruct (I3 c Hcin) as [_ Hcid].
      apply Hfresh. rewrite <- Hid, <- Hc. exact Hcid.
    + intros c [<- | Hc].
      * cbn [instance map]. split; [exact Hin | left; now rewrite Hid].
      * destruct (I3 c Hc). split; [assumption | now right].
Qed.

(** A batch that [validate_placement] accepts and that names each card once
    is applied without an exception.  The cards named stand at the end of
    the board in batch order, each at full HP and face down in its cell, and
    are off the hand; the player's mana is lowered by the cost of the batch
    and is -3 at the least, and the Veil Surge is marked used exactly when
    the cost exceeded the mana or it was used before; everything else is as
    it was. *)
Theorem validated_batch_applies (s : GameState) (pl : Player)
        (batch : list Placement) :
  fst (validate_placement s pl batch) = true ->
  NoDup (map card_instance_id batch) ->
  let ps := get_player_state s pl in
  let cards := flat_map (placed_card (heap s) (hand ps) pl) batch in
  let total := batch_cost (heap s) (hand ps) batch in
  exists s',
    apply_placement s pl batch = Ok s'
    /\ List.length cards = List.length batch
    /\ Board.all_cards (board s') = Board.all_cards (board s) ++ cards
    /\ hand (get_player_state s' pl)
       = fold_left (fun hd c => list_remove (instance c) hd) cards (hand ps)
    /\ Permutation (hand ps)
                   (map instance cards ++ hand (get_player_state s' pl))
    /\ mana (get_player_state s' pl) = mana ps - total
    /\ - VEIL_SURGE_MAX <= mana (get_player_state s' pl)
    /\ veil_surge_used (get_player_state s' pl)
       = veil_surge_used ps || (mana ps <? total)
    /\ only_placed s s' pl.
Proof.
  intros Hok Hnd. cbv zeta. unfold validate_placement in Hok. cbv zeta in Hok.
  destruct (validate_loop_spec (heap s) (get_player_state s pl) (board s) pl
                               batch 0 []) as [Hspec _].
  destruct (validate_loop (heap s) (get_player_state s pl) (board s) pl batch
                          0 []) as [err|total] eqn:Hloop; [discriminate|].
  destruct (proj1 (Hspec total) eq_refl) as (Hall & _ & Htot).
  replace (batch_cost (heap s) (hand (get_player_state s pl)) batch)
    with total by lia.
  destruct (validated_loop_result pl (get_player_state s pl) (board s) (heap s)
              batch s [] 0 total eq_refl Hnd)
    as (s1 & Happly & Hb & Hhd & Ho & Hm & Hv);
    [reflexivity | | exact Hloop |].
  { intros c r. cbn [cell_used existsb]. tauto. }
  destruct (placed_cards_found (heap s) (hand (get_player_state s pl)) pl batch)
    as (Hlen & Hndl & Hin); [|exact Hnd|].
  { intros p Hp. destruct (Hall p Hp) as [((l & Hl & _) & _) _]. eauto. }
  unfold apply_placement. rewrite Happly.
  set (ps1 := get_player_state s1 pl) in *.
  exists (set_player_state s1 pl (pay_mana ps1 total)).
  split; [reflexivity|]. split; [exact Hlen|].
  rewrite board_set_player_state, get_set_player_state.
  assert (Hhand : hand (pay_mana ps1 total) = hand ps1)
    by (unfold pay_mana; destruct (_ <? _); reflexivity).
  split; [exact Hb|]. split; [now rewrite Hhand|]. split.
  { rewrite Hhand, Hhd. apply fold_remove_perm; [exact Hndl|].
    intros c Hc. now apply Hin. }
  split; [|split; [|split]].
  - unfold pay_mana. rewrite Hm.
    destruct (_ <? _); cbn [mana with_mana]; lia.
  - unfold mana_check in Hok. cbv zeta in Hok.
    unfold pay_mana. rewrite Hm.
    destruct (Z.ltb_spec (mana (get_player_state s pl)) total) as [Hlt|Hge];
      cbn [mana with_mana]; [|unfold VEIL_SURGE_MAX; lia].
    destruct (veil_surge_used (get_player_state s pl)); [discriminate|].
    cbn [orb] in Hok.
    destruct (Z.ltb_spec VEIL_SURGE_MAX
                         (total - mana (get_player_state s pl)));
      [discriminate | lia].
  - unfold pay_mana. rewrite Hm, Hv.
    destruct (_ <? _); cbn [veil_surge_used with_mana];
      [now rewrite orb_true_r | now rewrite orb_false_r].
  - eapply only_placed_trans; [exact Ho|].
    unfold only_placed, pay_mana. fold ps1.
    destruct (mana ps1 <? total); destruct pl; cbn; repeat split; reflexivity.
Qed.

End Validation.

Section ValidationExamples.

(** The Veil Surge batch of the engine's test, applied: Bonecrag (cost 5) on
    3 mana goes to the board and leaves the player at -2 mana. *)
Lemma validated_batch_applies_witness :
  let batch := [mkPlacement "b" 0 FRONT] in
  fst (validate_placement surge_state ONE batch) = true
  /\ NoDup (map card_instance_id batch)
  /\ exists s',
       apply_placement surge_state ONE batch = Ok s'
       /\ Board.all_cards (board s')
          = [mkBoardCard 1%nat 14 0 FRONT ONE true false 0]
       /\ hand (get_player_state s' ONE) = [0%nat]
       /\ mana (get_player_state s' ONE) = -2.
Proof.
  cbv zeta.
  assert (Hok : fst (validate_placement surge_state ONE
                                        [mkPlacement "b" 0 FRONT]) = true)
    by reflexivity.
  assert (Hnd : NoDup (map card_instance_id [mkPlacement "b" 0 FRONT]))
    by (repeat constructor; intros []).
  split; [exact Hok|]. split; [exact Hnd|].
  pose proof (validated_batch_applies surge_state ONE
                [mkPlacement "b" 0 FRONT] Hok Hnd) as H.
  cbv zeta in H. destruct H as (s' & Ha & _ & Hb & Hh & _ & Hm & _).
  exists s'. split; [exact Ha|]. split; [exact Hb|].
  split; [exact Hh | exact Hm].
Defined.

End ValidationExamples.

(* ------------------------------------------------------------------ *)
(** ** The attacker that falls to the echo of its victim *)
(* ------------------------------------------------------------------ *)

Section EchoCasualty.
Local Open Scope string_scope.

(** C9 on a card destroyed by the echo of its victim.  In the final round
    Veyra (attack 9, 6 HP) strikes Vorath for int(14 x 1.5) = 21 and destroys
    it; Vorath's VEIL_ECHO deals 12 // 2 = 6 to Veyra, which leaves Veyra at
    0 HP, not alive.  Only the defender of an attack is appended to
    [dead_cards]: Veyra is not removed from the board, Cleanup counts it
    among the survivors, gives it 21 + 10 = 31 XP and returns it to the hand
    of player one, who may place it again. *)
Theorem echo_casualty_stays_in_the_match :
  let r := snd (phase_resolve Cards.exact_heal echo_duel) in
  state_wf echo_duel
  /\ map (fun e => (attacker_name e, defender_name e, damage_dealt e,
                    defender_destroyed e, ability_triggered e))
         (events r)
     = [("Veyra Silentblade", "Vorath the Consuming", 21, true,
         Some "Veil Echo")]
  /\ map instance (round_dead Cards.exact_heal echo_duel) = [1%nat]
  /\ Board.all_cards (board echo_resolved)
     = [mkBoardCard 0%nat 0 0 FRONT ONE false false 5]
  /\ (forall c, In c (Board.all_cards (board echo_resolved)) ->
                is_alive c = false)
  /\ phase_cleanup echo_resolved = Ok echo_cleaned
  /\ hand (player1 echo_cleaned) = [0%nat]
  /\ xp (heap echo_duel 0%nat) = 0
  /\ xp (heap echo_cleaned 0%nat) = 31
  /\ validate_placement echo_cleaned ONE [mkPlacement "a" 0 FRONT]
     = (true, None).
Proof.
  cbv zeta. split.
  { unfold state_wf. split; [reflexivity|]. split; [reflexivity|].
    cbn. repeat constructor; cbn; intuition discriminate. }
  assert (Hb : Board.all_cards (board echo_resolved)
               = [mkBoardCard 0%nat 0 0 FRONT ONE false false 5])
    by (vm_compute; reflexivity).
  split; [reflexivity|]. split; [reflexivity|]. split; [exact Hb|].
  split.
  { rewrite Hb. intros c [<- | []]. reflexivity. }
  split; [reflexivity|]. split; [reflexivity|]. split; [reflexivity|].
  split; reflexivity.
Qed.

(** C6 on the final round of Veyra and Vorath.  When the attacks are over
    no card of either side has HP left: Vorath is destroyed and removed,
    Veyra stands at 0 HP.  The round is not scored as a tie: Veyra is still
    on the board, so player one counts as not wiped, player two as wiped,
    and player one is given the round and 2 points, which decide the
    match. *)
Theorem echo_casualty_wins_the_round :
  let r := snd (phase_resolve Cards.exact_heal echo_duel) in
  (forall c, In c (Board.all_cards (board echo_resolved)) ->
             current_hp c <= 0)
  /\ Board.cards_for (board echo_resolved) TWO = []
  /\ p1_surviving_defense r = 0
  /\ p2_surviving_defense r = 0
  /\ round_winner r = Some ONE
  /\ round_points_awarded r = 2
  /\ score (player1 echo_duel) = 0
  /\ score (player1 echo_resolved) = 2
  /\ match_winner echo_resolved = Some ONE.
Proof.
  cbv zeta.
  assert (Hb : Board.all_cards (board echo_resolved)
               = [mkBoardCard 0%nat 0 0 FRONT ONE false false 5])
    by (vm_compute; reflexivity).
  split.
  { rewrite Hb. intros c [<- | []]. cbn [current_hp]. lia. }
  repeat split; reflexivity.
Qed.

End EchoCasualty.

(* ------------------------------------------------------------------ *)
(** ** Scoring the board Resolve returns *)
(* ------------------------------------------------------------------ *)

Section Scoring.

Variable heal : Z -> Q -> Z.

Lemma sum_fold_right (l : list Z) : Py.sum l = fold_right Z.add 0 l.
Proof.
  induction l as [|x l IH]; [reflexivity|].
  rewrite sum_cons, IH. reflexivity.
Qed.

Lemma total_hp_on_board (b : Board.t) (p : Player) :
  total_hp (Board.cards_for b p) = hp_on_board b p.
Proof. unfold total_hp, hp_on_board, Board.cards_for. apply sum_fold_right. Qed.

(** [phase_resolve] scores the board it returns.  The surviving defense it
    reports for a player is the sum of the HP of that player's cards on that
    board.  A player is wiped when none of the cards is theirs.  Both wiped:
    tie, 0 points.  One wiped: the other wins 2 points, whatever the sums.
    Neither wiped: the strictly higher sum wins 1 point, equal sums tie at 0.
    The score of the round winner grows by the points awarded, and no other
    score moves. *)
Theorem round_scoring (s : GameState) :
  let s' := fst (phase_resolve heal s) in
  let r := snd (phase_resolve heal s) in
  let wiped := fun p => forall c, In c (Board.all_cards (board s')) ->
                                  owner c <> p in
  let outcome := (round_winner r, round_points_awarded r) in
  p1_surviving_defense r = hp_on_board (board s') ONE
  /\ p2_surviving_defense r = hp_on_board (board s') TWO
  /\ (wiped ONE /\ wiped TWO -> outcome = (None, 0))
  /\ (wiped TWO /\ ~ wiped ONE -> outcome = (Some ONE, 2))
  /\ (wiped ONE /\ ~ wiped TWO -> outcome = (Some TWO, 2))
  /\ (~ wiped ONE /\ ~ wiped TWO
      /\ hp_on_board (board s') TWO < hp_on_board (board s') ONE
      -> outcome = (Some ONE, 1))
  /\ (~ wiped ONE /\ ~ wiped TWO
      /\ hp_on_board (board s') ONE < hp_on_board (board s') TWO
      -> outcome = (Some TWO, 1))
  /\ (~ wiped ONE /\ ~ wiped TWO
      /\ hp_on_board (board s') ONE = hp_on_board (board s') TWO
      -> outcome = (None, 0))
  /\ (forall w, round_winner r = Some w ->
        score (get_player_state s' w)
        = score (get_player_state s w) + round_points_awarded r
        /\ score (get_player_state s' (opponent w))
           = score (get_player_state s (opponent w)))
  /\ (round_winner r = None ->
        forall p, score (get_player_state s' p) = score (get_player_state s p)).
Proof.
  cbn zeta.
  destruct (resolve_result heal s) as (_ & _ & Hd1 & Hd2 & _).
  cbn zeta in Hd1, Hd2.
  destruct (resolve_scoring heal s) as (C1 & C2 & C3 & C4 & C5 & C6 & Hw & Hn).
  cbn zeta in C1, C2, C3, C4, C5, C6, Hw, Hn.
  rewrite !total_hp_on_board in *.
  set (b := board (fst (phase_resolve heal s))) in *.
  assert (Hwiped : forall p,
             Board.cards_for b p = []
             <-> (forall c, In c (Board.all_cards b) -> owner c <> p)).
  { intros p. unfold Board.cards_for, Board.all_cards. split.
    - intros Hnil c Hin Ho.
      assert (Hc : In c (filter (fun c => Player_eqb (owner c) p) b)).
      { apply filter_In. split; [exact Hin|]. now apply Player_eqb_eq. }
      rewrite Hnil in Hc. destruct Hc.
    - intros Hall.
      destruct (filter (fun c => Player_eqb (owner c) p) b) as [|c l] eqn:E;
        [reflexivity|].
      assert (Hc : In c (filter (fun c => Player_eqb (owner c) p) b))
        by (rewrite E; now left).
      apply filter_In in Hc. destruct Hc as [Hin Ho].
      apply Player_eqb_eq in Ho. now elim (Hall c Hin). }
  split; [exact Hd1|]. split; [exact Hd2|].
  rewrite <- !Hwiped.
  split; [exact C1|]. split; [exact C2|]. split; [exact C3|].
  split; [exact C4|]. split; [exact C5|]. split; [exact C6|].
  split; [exact Hw | exact Hn].
Qed.

End Scoring.

Section ScoringExamples.

(** Scoring on points: Duskwarden of player one and Bonecrag of player two
    both survive their exchange, with 3 and 8 HP; player two wins the round
    and 1 point. *)
Lemma round_scoring_on_points :
  let s := duel Cards.duskwarden Cards.bonecrag in
  let s' := fst (phase_resolve Cards.exact_heal s) in
  let r := snd (phase_resolve Cards.exact_heal s) in
  map current_hp (Board.all_cards (board s')) = [3; 8]
  /\ p1_surviving_defense r = 3
  /\ p2_surviving_defense r = 8
  /\ (round_winner r, round_points_awarded r) = (Some TWO, 1)
  /\ score (player2 s') = score (player2 s) + 1.
Proof.
  cbv zeta.
  pose proof (round_scoring Cards.exact_heal
                            (duel Cards.duskwarden Cards.bonecrag)) as H.
  cbv zeta in H.
  destruct H as (Hd1 & Hd2 & _ & _ & _ & _ & Hpts & _ & Hscore & _).
  split; [reflexivity|].
  split; [rewrite Hd1; reflexivity|]. split; [rewrite Hd2; reflexivity|].
  assert (Hout : (round_winner (snd (phase_resolve Cards.exact_heal
                                       (duel Cards.duskwarden Cards.bonecrag))),
                  round_points_awarded (snd (phase_resolve Cards.exact_heal
                                       (duel Cards.duskwarden Cards.bonecrag))))
                 = (Some TWO, 1)).
  { apply Hpts. split; [|split].
    - intros Hw. apply (Hw (mkBoardCard 0%nat 3 0 FRONT ONE false false 0));
        [left; reflexivity | reflexivity].
    - intros Hw. apply (Hw (mkBoardCard 1%nat 8 0 FRONT TWO false false 0));
        [right; left; reflexivity | reflexivity].
    - vm_compute. reflexivity. }
  split; [exact Hout|].
  pose proof (f_equal fst Hout) as Hw. pose proof (f_equal snd Hout) as Hp.
  cbn [fst snd] in Hw, Hp.
  destruct (Hscore TWO Hw) as [Hs _]. rewrite Hp in Hs. exact Hs.
Defined.

End ScoringExamples.

(* ------------------------------------------------------------------ *)
(** ** Draw and Mana *)
(* ------------------------------------------------------------------ *)

Section DrawAndMana.

Lemma draw_for_idem (ps : PlayerState) (draw_to : Z) :
  Py.len (hand ps) <= draw_to ->
  draw_for (draw_for ps draw_to) draw_to = draw_for ps draw_to.
Proof.
  intros Hle.
  destruct (draw_for_tops_up ps draw_to Hle) as (Hh & Hd & Hlen).
  cbv zeta in Hh, Hd.
  set (ps1 := draw_for ps draw_to) in *.
  assert (Hle1 : Py.len (hand ps1) <= draw_to) by lia.
  destruct (draw_for_tops_up ps1 draw_to Hle1) as (Hh1 & Hd1 & _).
  cbv zeta in Hh1, Hd1.
  assert (Hnone : firstn (Z.to_nat (draw_to - Py.len (hand ps1))) (deck ps1) = []
                  /\ skipn (Z.to_nat (draw_to - Py.len (hand ps1))) (deck ps1)
                     = deck ps1).
  { destruct (Z.eq_dec (Py.len (hand ps1)) draw_to) as [E|E].
    - rewrite E, Z.sub_diag. cbn. auto.
    - assert (Hempty : deck ps1 = []).
      { rewrite Hd. apply skipn_all2. unfold Py.len in *. lia. }
      rewrite Hempty, firstn_nil, skipn_nil. auto. }
  destruct Hnone as [Hf Hs]. rewrite Hf, app_nil_r in Hh1. rewrite Hs in Hd1.
  unfold draw_for at 1. unfold with_cards.
  change (hand ps1 ++ Py.slice_to (deck ps1) (draw_to - Py.len (hand ps1)))
    with (hand (draw_for ps1 draw_to)).
  change (Py.slice_from (deck ps1) (draw_to - Py.len (hand ps1)))
    with (deck (draw_for ps1 draw_to)).
  rewrite Hh1, Hd1. unfold ps1, draw_for, with_cards. reflexivity.
Qed.

(** [phase_draw] loses no card and makes none up: for each player the hand
    followed by the deck is the same list before and after, whatever the
    hand size and [draw_to].  A hand of at most [draw_to] cards is topped up
    from the front of the deck, in deck order, to [draw_to] cards or until
    the deck is empty (an empty deck is no error), and drawing again then
    changes nothing.  The call writes hands, decks and the phase only. *)
Theorem phase_draw_conserves (s : GameState) (draw_to : Z) :
  let s' := phase_draw s draw_to in
  (forall p, hand (get_player_state s' p) ++ deck (get_player_state s' p)
             = hand (get_player_state s p) ++ deck (get_player_state s p))
  /\ (forall p, Py.len (hand (get_player_state s p)) <= draw_to ->
        let n := Z.to_nat (draw_to - Py.len (hand (get_player_state s p))) in
        hand (get_player_state s' p)
        = hand (get_player_state s p) ++ firstn n (deck (get_player_state s p))
        /\ deck (get_player_state s' p) = skipn n (deck (get_player_state s p))
        /\ Py.len (hand (get_player_state s' p))
           = Z.min draw_to (Py.len (hand (get_player_state s p))
                            + Py.len (deck (get_player_state s p))))
  /\ (Py.len (hand (player1 s)) <= draw_to ->
      Py.len (hand (player2 s)) <= draw_to ->
      phase_draw s' draw_to = s')
  /\ phase s' = MANA
  /\ board s' = board s /\ heap s' = heap s
  /\ current_round s' = current_round s
  /\ round_history s' = round_history s
  /\ match_winner s' = match_winner s
  /\ forall p, mana (get_player_state s' p) = mana (get_player_state s p)
               /\ score (get_player_state s' p) = score (get_player_state s p)
               /\ veil_surge_used (get_player_state s' p)
                  = veil_surge_used (get_player_state s p).
Proof.
  cbv zeta. split; [|split; [|split]].
  - intros []; cbn [phase_draw get_player_state Player_eqb with_phase
                    with_players player1 player2]; apply draw_for_cards.
  - intros [] Hle; cbn [phase_draw get_player_state Player_eqb with_phase
                        with_players player1 player2] in *;
      exact (draw_for_tops_up _ draw_to Hle).
  - intros H1 H2. unfold phase_draw, with_phase, with_players.
    cbn [player1 player2 game_id heap board current_round round_history
         match_winner].
    now rewrite (draw_for_idem _ _ H1), (draw_for_idem _ _ H2).
  - cbn. repeat split; destruct p; reflexivity.
Qed.


Lemma apply_loop_mana (pl : Player) (batch : list Placement) :
  forall (s : GameState) (t : Z),
    heap (state_after fst (apply_loop s pl batch t)) = heap s
    /\ (forall q, mana (get_player_state (state_after fst (apply_loop s pl batch t)) q)
                  = mana (get_player_state s q))
    /\ ((forall l, 0 <= mana_cost (definition (heap s l))) ->
        forall s' total, apply_loop s pl batch t = Ok (s', total) -> t <= total).
Proof.
  induction batch as [|p batch IH]; intros s t; cbn [apply_loop].
  - cbn [state_after fst]. split; [reflexivity|]. split; [reflexivity|].
    intros _ s' total [= _ <-]. lia.
  - cbv zeta.
    destruct (find_in_hand _ _ _) as [l|];
      [|cbn [state_after]; split; [reflexivity|];
        split; [reflexivity | discriminate]].
    destruct (Board.place _ _) as [b'|];
      [|cbn [state_after]; split; [reflexivity|];
        split; [reflexivity | discriminate]].
    destruct (take_from_hand_only s pl l b') as (Ho & Hm & _).
    set (s1 := take_from_hand (with_board s b') pl l) in *.
    destruct (IH s1 (t + mana_cost (definition (heap s l)))) as (I1 & I2 & I3).
    assert (Hheap : heap s1 = heap s) by apply Ho.
    split; [congruence|]. split.
    + intros q. rewrite I2.
      destruct (Player_eqb q pl) eqn:E.
      * apply Player_eqb_eq in E. subst q. exact Hm.
      * destruct Ho as (_ & Hopp & _).
        assert (Hq : q = opponent pl) by (destruct q, pl; cbn in *; congruence).
        subst q. now rewrite Hopp.
    + intros Hcost s' total Ha. specialize (Hcost l) as Hl.
      assert (t + mana_cost (definition (heap s l)) <= total); [|lia].
      apply (I3 (fun x => eq_ind_r (fun h => 0 <= mana_cost (definition (h x)))
                                   (Hcost x) Hheap) s' total Ha).
Qed.


Lemma phase_draw_mana (s : GameState) (n : Z) (p : Player) :
  mana (get_player_state (phase_draw s n) p) = mana (get_player_state s p).
Proof. destruct p; reflexivity. Qed.

Lemma phase_mana_mana (s : GameState) (p : Player) :
  mana (get_player_state (phase_mana s) p)
  = Z.min (mana (get_player_state s p) + MANA_PER_TURN) MANA_CAP.
Proof. destruct p; reflexivity. Qed.

Lemma cleanup_mana (s s' : GameState) (p : Player) :
  phase_cleanup s = Ok s' ->
  mana (get_player_state s' p) = Z.max 0 (mana (get_player_state s p)).
Proof.
  unfold phase_cleanup.
  destruct (last_result (round_history s)) as [r|]; [|discriminate].
  intros [= <-].
  destruct p; cbn [get_player_state Player_eqb player1 player2];
    unfold clear_debt, return_cards; cbn [mana with_cards];
    match goal with |- context [if ?c <? 0 then _ else _] =>
      destruct (Z.ltb_spec c 0) end;
    cbn [mana with_mana with_cards]; lia.
Qed.

Section ManaCap.

Variable heal : Z -> Q -> Z.

Lemma step_mana_cap (s s' : GameState) :
  step heal s s' ->
  (forall l, 0 <= mana_cost (definition (heap s l))) ->
  (forall p, mana (get_player_state s p) <= MANA_CAP) ->
  forall p, mana (get_player_state s' p) <= MANA_CAP.
Proof.
  intros Hstep Hcost Hcap. destruct Hstep.
  - intros []; cbn; [apply (Hcap ONE) | apply (Hcap TWO)].
  - intros []; cbn; unfold MANA_CAP; lia.
  - unfold apply_placement.
    destruct (apply_loop_mana pl batch s 0) as (_ & Hm & Htot).
    destruct (apply_loop s pl batch 0) as [[s1 total]|e s1] eqn:Ha;
      cbn [state_after fst] in *.
    + specialize (Htot Hcost s1 total eq_refl). intros p.
      destruct (Player_eqb p pl) eqn:E.
      * apply Player_eqb_eq in E. subst p. rewrite get_set_player_state.
        specialize (Hcap pl). rewrite <- (Hm pl) in Hcap. unfold pay_mana.
        destruct (Z.ltb_spec (mana (get_player_state s1 pl)) total);
          cbn [mana with_mana]; unfold MANA_CAP in *; lia.
      * replace (get_player_state (set_player_state s1 pl _) p)
          with (get_player_state s1 p)
          by (destruct p, pl; cbn in *; congruence).
        rewrite Hm. apply Hcap.
    + intros p. rewrite Hm. apply Hcap.
  - intros []; cbn; [apply (Hcap ONE) | apply (Hcap TWO)].
  - intros p. destruct (resolve_players_cards heal s p) as (_ & _ & _ & _ & ->).
    apply Hcap.
  - unfold phase_cleanup. destruct (last_result (round_history s)) as [r|];
      cbn [state_after]; [|exact Hcap].
    pose proof (Hcap ONE) as H1. pose proof (Hcap TWO) as H2.
    cbn [get_player_state Player_eqb] in H1, H2.
    intros []; cbn [get_player_state Player_eqb player1 player2];
      unfold clear_debt, return_cards; cbn [mana with_cards];
      match goal with |- context [if ?c <? 0 then _ else _] =>
        destruct (Z.ltb_spec c 0) end;
      cbn [mana with_mana with_cards]; unfold MANA_CAP in *; lia.
Qed.

(** With no card of negative mana cost, mana never passes the cap of 8:
    a match that starts within the cap stays within it through every
    sequence of engine calls.  Cleanup then leaves no debt, and the next
    Draw and Mana phases give each player between 1 and 8 mana: a player who
    ended the round in debt starts the next with exactly the one mana of
    the turn. *)
Theorem mana_capped (s s' : GameState) :
  steps heal s s' ->
  (forall l, 0 <= mana_cost (definition (heap s l))) ->
  (forall p, mana (get_player_state s p) <= MANA_CAP) ->
  (forall p, mana (get_player_state s' p) <= MANA_CAP)
  /\ forall s'', phase_cleanup s' = Ok s'' ->
       forall p,
         mana (get_player_state s'' p) = Z.max 0 (mana (get_player_state s' p))
         /\ mana (get_player_state (phase_mana (phase_draw s'' DRAW_TO)) p)
            = Z.min (Z.max 0 (mana (get_player_state s' p)) + MANA_PER_TURN)
                    MANA_CAP.
Proof.
  intros Hsteps.
  assert (Hinv : (forall l, 0 <= mana_cost (definition (heap s l))) ->
                 (forall p, mana (get_player_state s p) <= MANA_CAP) ->
                 forall p, mana (get_player_state s' p) <= MANA_CAP).
  { induction Hsteps as [s | s s1 s2 Hstep _ IH]; intros Hcost Hcap;
      [exact Hcap|].
    apply IH.
    - intros l. destruct (step_heap heal s s1 l Hstep) as (_ & -> & _).
      apply Hcost.
    - now apply (step_mana_cap s s1). }
  intros Hcost Hcap. split; [now apply Hinv|].
  intros s'' Hclean p.
  rewrite phase_mana_mana, phase_draw_mana, (cleanup_mana s' s'' p Hclean).
  split; reflexivity.
Qed.

End ManaCap.

End DrawAndMana.

Section ManaExamples.

(** The skirmish: player one pays 2 of 3 mana for Ashling and ends the round
    with 1, within the cap. *)
Lemma mana_capped_witness :
  steps Cards.exact_heal skirmish_start skirmish_cleaned
  /\ (forall l, 0 <= mana_cost (definition (heap skirmish_start l)))
  /\ (forall p, mana (get_player_state skirmish_start p) <= MANA_CAP)
  /\ mana (player1 skirmish_cleaned) = 1
  /\ forall p, mana (get_player_state skirmish_cleaned p) <= MANA_CAP.
Proof.
  assert (Hcost : forall l, 0 <= mana_cost (definition (heap skirmish_start l))).
  { intros l. destruct l as [|[|[|l]]]; vm_compute; discriminate. }
  assert (Hcap : forall p, mana (get_player_state skirmish_start p) <= MANA_CAP).
  { intros []; vm_compute; discriminate. }
  split; [exact skirmish_steps|]. split; [exact Hcost|]. split; [exact Hcap|].
  split; [reflexivity|].
  exact (proj1 (mana_capped Cards.exact_heal _ _ skirmish_steps Hcost Hcap)).
Defined.

End ManaExamples.
